(** * cluster.py: from similarity matrices to RTTM speaker turns

    A shallow embedding of [cluster.py] and the properties of its
    enhancer, estimators, segment merger, RTTM serializer and corpus
    aggregator.

    Python [float] and NumPy [float64] values are IEEE 754 binary64
    numbers: they are modelled by Rocq's primitive [float], whose
    operations are the processor's.  Python [int] and NumPy integer labels
    are modelled by [Z], Python [str] by [string] (one character per code
    point below 256), Python lists and NumPy arrays by [list]. *)

From Stdlib Require Import ZArith Lia Bool List String Ascii.
From Stdlib Require Import Floats DecimalString Permutation Sorted Orders Mergesort.
Import ListNotations.

Local Open Scope string_scope.
Local Open Scope list_scope.

(** [length] is the length of a list throughout. *)
Local Abbreviation length := Datatypes.length.

(** ** Exceptions and results

    A Python call either returns a value or raises; the exceptions named
    here are the ones the modelled code can raise, [OtherError] standing
    for any other exception, by the name of its class. *)

Inductive exn : Type :=
| IndexError
| ValueError
| FileNotFoundError
| LinAlgError
| IsADirectoryError
| PermissionError
| UnicodeDecodeError
| OtherError (name : string).

Inductive result (A : Type) : Type :=
| Ok (a : A)
| Raise (e : exn).

Arguments Ok {A} a.
Arguments Raise {A} e.

Definition rbind {A B} (r : result A) (k : A -> result B) : result B :=
  match r with
  | Ok a => k a
  | Raise e => Raise e
  end.

(** ** Python text formatting *)

Module PyFormat.

(** The values handed to [str.format] by the serializer. *)
Inductive pyval : Type :=
| PStr (s : string)
| PInt (z : Z)
| PFloat (x : float).

(** [str(z)] for an integer. *)
Definition str_int (z : Z) : string := NilZero.string_of_int (Z.to_int z).

Definition digit (d : Z) : ascii := ascii_of_nat (48 + Z.to_nat d).

(** The last [p] decimal digits of [n], most significant first. *)
Fixpoint zero_padded (p : nat) (n : Z) : string :=
  match p with
  | O => ""
  | S p' => (zero_padded p' (n / 10) ++ String (digit (n mod 10)) "")%string
  end.

(** [num / den] rounded to the nearest integer, ties to even
    (the rounding of Python's float formatting, which is exact). *)
Definition round_half_even (num den : Z) : Z :=
  let q := (num / den)%Z in
  let r := (num mod den)%Z in
  match (2 * r ?= den)%Z with
  | Lt => q
  | Gt => (q + 1)%Z
  | Eq => if Z.even q then q else (q + 1)%Z
  end.

(** The magnitude [m * 2^e], scaled by [10^p] and rounded to an integer. *)
Definition scaled (p : nat) (m : positive) (e : Z) : Z :=
  let ten := (10 ^ Z.of_nat p)%Z in
  match e with
  | Zneg k => round_half_even (Zpos m * ten) (2 ^ Zpos k)
  | _ => (Zpos m * 2 ^ e * ten)%Z
  end.

Definition sign_str (s : bool) : string := if s then "-" else "".

Definition point_digits (p : nat) (n : Z) : string :=
  let ten := (10 ^ Z.of_nat p)%Z in
  (str_int (n / ten) ++
   match p with
   | O => ""
   | _ => "." ++ zero_padded p (n mod ten)
   end)%string.

(** [format(x, '.<p>f')]: fixed-point notation with [p] decimals. *)
Definition format_fixed (p : nat) (x : float) : string :=
  match Prim2SF x with
  | S754_nan => "nan"
  | S754_infinity s => (sign_str s ++ "inf")%string
  | S754_zero s => (sign_str s ++ point_digits p 0)%string
  | S754_finite s m e => (sign_str s ++ point_digits p (scaled p m e))%string
  end.

(** A format specification: empty, or [.<p>f]. *)
Inductive spec : Type :=
| Default
| Fixed (p : nat).

(** A parsed template: literal text and replacement fields. *)
Inductive piece : Type :=
| Lit (c : ascii)
| Field (sp : spec).

Definition nat_of_digit (c : ascii) : option nat :=
  let n := nat_of_ascii c in
  if (48 <=? n)%nat && (n <=? 57)%nat then Some (n - 48)%nat else None.

Fixpoint parse_nat (acc : nat) (s : string) : option (nat * string) :=
  match s with
  | String c rest =>
      match nat_of_digit c with
      | Some d => parse_nat (10 * acc + d) rest
      | None => Some (acc, s)
      end
  | EmptyString => Some (acc, s)
  end.

(** The text between the braces of an automatically numbered field. *)
Definition parse_spec (s : string) : option spec :=
  match s with
  | "" => Some Default
  | String ":" (String "." (String c rest)) =>
      match nat_of_digit c with
      | Some _ =>
          match parse_nat 0 (String c rest) with
          | Some (p, "f") => Some (Fixed p)
          | _ => None
          end
      | None => None
      end
  | _ => None
  end.

(** [parse inside s]: [inside] is [Some txt] while a replacement field is
    open, [txt] being its text so far.  Templates with escaped braces or
    named fields are outside the fragment read here ([None]). *)
Fixpoint parse (inside : option string) (s : string) : option (list piece) :=
  match s with
  | EmptyString =>
      match inside with
      | None => Some []
      | Some _ => None
      end
  | String c rest =>
      match inside with
      | None =>
          if Ascii.eqb c "{" then parse (Some EmptyString) rest
          else if Ascii.eqb c "}" then None
          else option_map (cons (Lit c)) (parse None rest)
      | Some txt =>
          if Ascii.eqb c "}" then
            match parse_spec txt, parse None rest with
            | Some sp, Some ps => Some (Field sp :: ps)
            | _, _ => None
            end
          else if Ascii.eqb c "{" then None
          else parse (Some (txt ++ String c EmptyString)%string) rest
      end
  end.

(** One replacement field applied to one argument: [{}] prints a string
    as it is and an integer in decimal, [{:.<p>f}] prints a float with [p]
    decimals.  The other combinations are left out ([None]); the
    serializer uses none of them. *)
Definition render_field (sp : spec) (v : pyval) : option string :=
  match sp, v with
  | Default, PStr s => Some s
  | Default, PInt z => Some (str_int z)
  | Fixed p, PFloat x => Some (format_fixed p x)
  | _, _ => None
  end.

Fixpoint render (ps : list piece) (args : list pyval) : option string :=
  match ps with
  | [] => Some ""
  | Lit c :: ps' => option_map (String c) (render ps' args)
  | Field sp :: ps' =>
      match args with
      | [] => None
      | v :: args' =>
          match render_field sp v, render ps' args' with
          | Some s, Some rest => Some (s ++ rest)%string
          | _, _ => None
          end
      end
  end.

(** [template.format(args...)], the arguments consumed left to right;
    [None] when a field has no argument or lies outside the fragment. *)
Definition format (template : string) (args : list pyval) : option string :=
  match parse None template with
  | Some ps => render ps args
  | None => None
  end.

End PyFormat.

(** ** Merged intervals

    An entry of the merger is the dictionary [{'s': start, 'e': end, 'id': label}]. *)

Record entry : Type := { s : float; e : float; id : Z }.

(** A row of the segment table: [ev[0]] is the start, [ev[1]] the end. *)
Definition event : Type := (float * float)%type.

(** *** Segment merger *)

(** A non-empty list seen as [entries[:-1]] and [entries[-1]]. *)
Fixpoint unsnoc {A} (l : list A) : option (list A * A) :=
  match l with
  | [] => None
  | x :: l' =>
      match unsnoc l' with
      | None => Some ([], x)
      | Some (init, y) => Some (x :: init, y)
      end
  end.

(** [entry['e'] = v], the other keys kept. *)
Definition set_e (en : entry) (v : float) : entry :=
  {| s := s en; e := v; id := id en |}.

(** One turn of the loop of [assign_segments]: [entries] is the list built so
    far, which the body extends or whose last entry it updates. *)
Definition assign_step (entries : list entry) (pe : Z * event) : list entry :=
  let '(plabel, ev) := pe in
  let start := fst ev in
  let end_ := snd ev in
  match unsnoc entries with
  | None => entries ++ [{| s := start; e := end_; id := plabel |}]
  | Some (init, lst) =>
      if (e lst <? start)%float then
        entries ++ [{| s := start; e := end_; id := plabel |}]
      else if (id lst =? plabel)%Z then
        init ++ [set_e lst end_]
      else
        let fuzzy_start := ((e lst + start) / 2)%float in
        init ++ [set_e lst fuzzy_start;
                 {| s := fuzzy_start; e := end_; id := plabel |}]
  end.

(** [zip] stops at the shorter of the two lists, as [combine] does. *)
Definition assign_segments (pred_labels : list Z) (events : list event)
  : list entry :=
  fold_left assign_step (combine pred_labels events) [].

(** *** RTTM serializer *)

(** The line terminator written [\n] in the source. *)
Definition LF : string := String "010"%char "".

Definition rttm_template : string :=
  ("SPEAKER {} 0 {:.3f} {:.3f} <NA> <NA> {} <NA> <NA>" ++ LF)%string.

(** The loop body: one formatted line appended to [lines].  [None] stands
    for a formatting failure, which never happens with this template and
    these arguments, as the properties below show. *)
Definition rttm_step (rec_id : string) (lines : option (list string))
  (en : entry) : option (list string) :=
  match lines with
  | None => None
  | Some ls =>
      let start := s en in
      let end_ := e en in
      let label := id en in
      let offset := (end_ - start)%float in
      match PyFormat.format rttm_template
              [PyFormat.PStr rec_id; PyFormat.PFloat start;
               PyFormat.PFloat offset; PyFormat.PInt label] with
      | Some line => Some (ls ++ [line])
      | None => None
      end
  end.

Definition rttm_lines_from_entries (entries : list entry) (rec_id : string)
  : option (list string) :=
  fold_left (rttm_step rec_id) entries (Some []).

(** ** NumPy arrays

    A one-dimensional [float64] array is a list, a two-dimensional one the
    list of its rows, all of one length.  The list of rows tells the number
    of columns only when there is a row: [[]] stands for the array without
    rows and without columns, and an array of [n] rows without columns is
    the list of [n] empty rows.  The functions below build a new array from
    the ones they read; none of them writes to an argument. *)

Abbreviation vector := (list float).
Abbreviation matrix := (list (list float)).

(** [m[i][j]] *)
Definition entry_at (m : matrix) (i j : nat) : float := nth j (nth i m []) 0%float.

(** [m] has [n] rows of [n] entries. *)
Definition square (n : nat) (m : matrix) : bool :=
  (length m =? n)%nat && forallb (fun r => (length r =? n)%nat) m.

(** [m.shape[0]] and [m.shape[1]] *)
Definition nrows (m : matrix) : nat := length m.

Definition ncols (m : matrix) : nat := length (hd [] m).

Definition map2 {A B C} (f : A -> B -> C) (l : list A) (l' : list B) : list C :=
  map (fun p => f (fst p) (snd p)) (combine l l').

(** The maximum of two numbers as [np.maximum] and [np.amax] take it: a
    NaN on either side is returned, and of two equal numbers (the zeros of
    either sign) the second. *)
Definition fmax (x y : float) : float :=
  if (y <? x)%float || is_nan x then x else y.

(** Broadcasting: two extents go together when they are equal or one of
    them is 1, which is then stretched to the other. *)
Definition broadcast_dim (a b : nat) : option nat :=
  if (a =? b)%nat then Some a
  else if (a =? 1)%nat then Some b
  else if (b =? 1)%nat then Some a
  else None.

(** An axis of extent 1 repeated [n] times; an axis of extent [n] as it is. *)
Definition stretch {A} (n : nat) (l : list A) : list A :=
  match l with
  | [x] => repeat x n
  | _ => l
  end.

Definition broadcast_to (rows cols : nat) (m : matrix) : matrix :=
  map (stretch cols) (stretch rows m).

(** [np.maximum(a, b)]: the two arrays are broadcast to a common shape,
    or [ValueError] is raised when there is none. *)
Definition np_maximum (a b : matrix) : result matrix :=
  match broadcast_dim (nrows a) (nrows b), broadcast_dim (ncols a) (ncols b) with
  | Some rows, Some cols =>
      Ok (map2 (map2 fmax) (broadcast_to rows cols a) (broadcast_to rows cols b))
  | _, _ => Raise ValueError
  end.

Definition column (j : nat) (m : matrix) : vector := map (fun r => nth j r 0%float) m.

(** [m.T] for an array [m] of [cols] columns: row [j] of the transpose is
    column [j] of [m]. *)
Definition transpose (cols : nat) (m : matrix) : matrix :=
  map (fun j => column j m) (seq 0 cols).

(** [m.T] for an array given by its rows. *)
Definition np_T (m : matrix) : matrix := transpose (ncols m) m.

(** [np.amax(m, axis=0)]: the maximum of each column, the rows folded
    one after the other into the first; an array with no row has no
    maximum and NumPy raises [ValueError]. *)
Definition np_amax_axis0 (m : matrix) : result vector :=
  match m with
  | [] => Raise ValueError
  | r :: rs => Ok (fold_left (map2 fmax) rs r)
  end.

(** [m / v]: the vector is broadcast along the rows, so entry [j] of each
    row is divided by [v[j]]. *)
Definition np_divide (m : matrix) (v : vector) : matrix :=
  map (fun r => map2 PrimFloat.div r v) m.

(** ** Library routines

    The routines of NumPy, SciPy and scikit-learn that compute with
    rounding or by iteration are parameters: none of them is part of the
    program, and none writes to the array it is given.
    - [np_dot a b] is [np.dot(a, b)], which NumPy hands to BLAS: neither
      the order of the additions nor the fusing of a multiplication with
      an addition is fixed, so the last bits of an entry are the
      library's;
    - [laplacian m] is [scipy.sparse.csgraph.laplacian(m, normed=True)];
    - [eig m] is [np.linalg.eig(m)], the eigenvalues and the matrix whose
      columns are the eigenvectors;
    - [KMeans_fit_predict k P] is [KMeans(n_clusters=k).fit_predict(P)];
    - [Agglomerative_fit_predict thresh m] is [fit_predict(m)] of the
      [AgglomerativeClustering] built in [agg_clustering] with
      [distance_threshold=thresh]. *)

Record complex : Type := { re : float; im : float }.

Class Libraries : Type := {
  np_dot : matrix -> matrix -> matrix;
  laplacian : matrix -> matrix;
  eig : matrix -> result (list complex * list (list complex));
  KMeans_fit_predict : nat -> matrix -> result (list Z);
  Agglomerative_fit_predict : float -> matrix -> result (list Z)
}.

(** ** Similarity enhancer *)

Definition sym (m : matrix) : result matrix := np_maximum m (np_T m).

Definition diffusion {libs : Libraries} (m : matrix) : matrix :=
  np_dot m (np_T m).

Definition row_max_norm (m : matrix) : result matrix :=
  rbind (np_amax_axis0 m) (fun maxes => Ok (np_divide m maxes)).

Definition sim_enhancement {libs : Libraries} (m : matrix) : result matrix :=
  rbind (sym m) (fun y => row_max_norm (diffusion y)).

(** ** The heap of arrays

    An estimator receives a reference to the caller's array, and
    [np.fill_diagonal] writes into the array it is given.  Arrays therefore
    live in a heap, a reference being the index of its array; a computation
    threads the heap and may raise, the heap staying as it was when the
    exception left. *)

Abbreviation heap := (list matrix).

Definition M (A : Type) : Type := heap -> result A * heap.

Definition ret {A} (a : A) : M A := fun h => (Ok a, h).

Definition bind {A B} (c : M A) (k : A -> M B) : M B :=
  fun h =>
    match c h with
    | (Ok a, h') => k a h'
    | (Raise ex, h') => (Raise ex, h')
    end.

Notation "x <- c ;; k" := (bind c (fun x => k))
  (at level 61, c at next level, right associativity).
Notation "c ;;; k" := (bind c (fun _ => k))
  (at level 61, right associativity).

(** A value or an exception computed without touching the heap. *)
Definition lift {A} (r : result A) : M A := fun h => (r, h).

(** The array a reference names. *)
Definition load (a : nat) : M matrix := fun h => (Ok (nth a h []), h).

(** A new array, at a reference no array had before. *)
Definition alloc (m : matrix) : M nat := fun h => (Ok (length h), h ++ [m]).

Fixpoint update {A} (i : nat) (x : A) (l : list A) : list A :=
  match l, i with
  | [], _ => []
  | _ :: l', O => x :: l'
  | y :: l', S i' => y :: update i' x l'
  end.

(** The array a reference names is overwritten in place. *)
Definition store (a : nat) (m : matrix) : M unit := fun h => (Ok tt, update a m h).

(** The rows of [m] with [val] on the main diagonal. *)
Definition with_diagonal (val : float) (m : matrix) : matrix :=
  map (fun p => update (fst p) val (snd p)) (combine (seq 0 (length m)) m).

(** [np.fill_diagonal(a, val)] returns nothing and changes [a] itself. *)
Definition np_fill_diagonal (a : nat) (val : float) : M unit :=
  m <- load a ;; store a (with_diagonal val m).

(** The enhancer on references: each NumPy call reads its arguments and
    returns a newly allocated array ([m.T] is a view that is only read). *)
Definition sym_at (a : nat) : M nat :=
  m <- load a ;; y <- lift (sym m) ;; alloc y.

Definition diffusion_at {libs : Libraries} (a : nat) : M nat :=
  m <- load a ;; alloc (diffusion m).

Definition row_max_norm_at (a : nat) : M nat :=
  m <- load a ;; r <- lift (row_max_norm m) ;; alloc r.

Definition sim_enhancement_at {libs : Libraries} (a : nat) : M nat :=
  y <- sym_at a ;; y' <- diffusion_at y ;; row_max_norm_at y'.

(** ** Cluster estimators *)

(** [np.real] *)
Definition np_real (v : list complex) : vector := map re v.

(** [rows[mask]]: the rows whose mask entry is [True]. *)
Definition mask_rows {A} (mask : list bool) (rows : list A) : list A :=
  map snd (filter fst (combine mask rows)).

(** [P.shape[1]] *)
Definition shape1 (P : matrix) : nat := length (hd [] P).

Section Estimators.

Context {libs : Libraries}.

(** In [np.real(eigvecs).T[kmask].T] the array [np.real(eigvecs).T[kmask]]
    has one row per selected eigenvector and as many columns as
    [np.real(eigvecs)] has rows, also when no eigenvector is selected. *)
Definition spectral_clustering (S : nat) (beta : float) : M (list Z) :=
  S <- sim_enhancement_at S ;;
  np_fill_diagonal S 0 ;;;
  m <- load S ;;
  let L_norm := laplacian m in
  dec <- lift (eig L_norm) ;;
  let eigvals := fst dec in
  let eigvecs := snd dec in
  let kmask := map (fun x => (x <? beta)%float) (np_real eigvals) in
  let R := map np_real eigvecs in
  let P := transpose (nrows R) (mask_rows kmask (np_T R)) in
  lift (KMeans_fit_predict (shape1 P) P).

Definition agg_clustering (S : nat) (thresh : float) : M (list Z) :=
  m <- load S ;; lift (Agglomerative_fit_predict thresh m).

End Estimators.

(** ** Corpus aggregator

    What opening a path and reading it to the end gives: the list of its
    lines as iteration over the open file yields them, each with its line
    terminator, or the exception that [open] or the reading raises. *)

Definition file_system : Type := string -> result (list string).

(** A string as an item of a NumPy array of strings: the items have a
    fixed width, and the NUL characters at the end of one are dropped. *)
Fixpoint np_str (t : string) : string :=
  match t with
  | String c rest =>
      match np_str rest with
      | EmptyString =>
          if Ascii.eqb c "000" then EmptyString else String c EmptyString
      | kept => String c kept
      end
  | EmptyString => EmptyString
  end.

(** The characters [str.strip] removes: the white space below code point
    256 (tab to carriage return, the separators 28 to 31, space, NEL and
    the no-break space). *)
Definition is_space (c : ascii) : bool :=
  let n := nat_of_ascii c in
  ((9 <=? n) && (n <=? 13) || (28 <=? n) && (n <=? 32)
   || (n =? 133) || (n =? 160))%nat.

Fixpoint lstrip (t : string) : string :=
  match t with
  | String c rest => if is_space c then lstrip rest else t
  | EmptyString => EmptyString
  end.

Fixpoint rstrip (t : string) : string :=
  match t with
  | String c rest =>
      match rstrip rest with
      | EmptyString => if is_space c then EmptyString else String c EmptyString
      | kept => String c kept
      end
  | EmptyString => EmptyString
  end.

(** [t.strip()] *)
Definition strip (t : string) : string := lstrip (rstrip t).

(** [t.split(sep)] for a one-character separator: every occurrence
    separates, so two separators in a row enclose an empty field. *)
Fixpoint split_on (sep : ascii) (t : string) : list string :=
  match t with
  | EmptyString => [EmptyString]
  | String c rest =>
      if Ascii.eqb c sep then EmptyString :: split_on sep rest
      else
        match split_on sep rest with
        | field :: fields => String c field :: fields
        | [] => [String c EmptyString]
        end
  end.

(** [zip] over the rows of [data], as a list: as many columns as the
    shortest row has fields, none when there is no row. *)
Definition zip_star (data : list (list string)) : list (list string) :=
  match data with
  | [] => []
  | row :: rows =>
      let width := fold_left Nat.min (map (fun r => length r) rows) (length row) in
      map (fun k => map (fun r => nth k r EmptyString) data) (seq 0 width)
  end.

(** Python compares strings code point by code point. *)
Module StringOrder <: TotalLeBool'.
Definition t : Type := string.
Definition leb : t -> t -> bool := String.leb.
Infix "<=?" := leb (at level 70, no associativity).
Theorem leb_total (x y : t) : leb x y = true \/ leb y x = true.
Proof. apply String.leb_total. Qed.
End StringOrder.

Module StringSort := Sort StringOrder.

(** [sorted(set(keys))]: the distinct values in ascending order. *)
Definition sorted_set (keys : list string) : list string :=
  StringSort.sort (nodup string_dec keys).

(** The two lists the reading loops fill: the fields of every line and the
    line itself. *)
Definition read_line (acc : list (list string) * list string) (line : string)
  : list (list string) * list string :=
  (fst acc ++ [split_on " " (strip line)], snd acc ++ [line]).

Definition read_file (fs : file_system)
  (acc : result (list (list string) * list string)) (rttm_file : string)
  : result (list (list string) * list string) :=
  rbind acc (fun read =>
    match fs rttm_file with
    | Raise ex => Raise ex
    | Ok lines => Ok (fold_left read_line lines read)
    end).

(** [all_rows] and the columns are turned into NumPy arrays of strings
    before they are compared and selected from. *)
Definition sort_and_cat (fs : file_system) (rttms : list string) (column : nat)
  : result (list string) :=
  rbind (fold_left (read_file fs) rttms (Ok ([], []))) (fun read =>
    let data := fst read in
    let all_rows := map np_str (snd read) in
    let columns := map (map np_str) (zip_star data) in
    match nth_error columns column with
    | None => Raise IndexError
    | Some keys =>
        let rec_ids := sorted_set keys in
        Ok (fold_left
              (fun final_lines rid =>
                 let rindexes := map (fun k => String.eqb k rid) keys in
                 final_lines ++ mask_rows rindexes all_rows)
              rec_ids [])
    end).

(** ** Files on disk

    What the file system holds at a path, as far as the program can
    tell: a regular file with its text, nothing yet (a file can be created
    there), or something that cannot be opened for writing (a directory,
    a path below a missing directory).  The process may read, write and
    remove the regular files.  Text is written and read back in the same
    encoding, with [\n] as the line terminator of the platform. *)

Inductive node : Type :=
| Regular (text : string)
| Free
| Barred.

Definition disk : Type := string -> node.

(** The disk with [n] at [path] and everything else as in [d]. *)
Definition put (path : string) (n : node) (d : disk) : disk :=
  fun p => if String.eqb p path then n else d p.

(** The exceptions of the orchestration: those of the parts it calls, a
    failed [assert], a local variable read before any assignment, and a
    refusal of the operating system. *)
Inductive failure : Type :=
| Raised (ex : exn)
| AssertionError
| UnboundLocalError
| OSError.

Inductive outcome (A : Type) : Type :=
| Done (a : A)
| Failed (f : failure).

Arguments Done {A} a.
Arguments Failed {A} f.

(** What the orchestration reads and changes: the files, the arrays and
    the text printed on the standard output so far. *)
Record world : Type := {
  files : disk;
  arrays : heap;
  stdout : list string
}.

Definition with_files (d : disk) (w : world) : world :=
  {| files := d; arrays := arrays w; stdout := stdout w |}.

Definition with_arrays (h : heap) (w : world) : world :=
  {| files := files w; arrays := h; stdout := stdout w |}.

Definition with_stdout (out : list string) (w : world) : world :=
  {| files := files w; arrays := arrays w; stdout := out |}.

Definition IO (A : Type) : Type := world -> outcome A * world.

Definition io_ret {A} (a : A) : IO A := fun w => (Done a, w).

Definition io_fail {A} (f : failure) : IO A := fun w => (Failed f, w).

Definition io_bind {A B} (c : IO A) (k : A -> IO B) : IO B :=
  fun w =>
    match c w with
    | (Done a, w') => k a w'
    | (Failed f, w') => (Failed f, w')
    end.

Notation "x <~ c ;; k" := (io_bind c (fun x => k))
  (at level 61, c at next level, right associativity).
Notation "c ;;~ k" := (io_bind c (fun _ => k))
  (at level 61, right associativity).

(** A computation on the arrays alone, run in the world. *)
Definition on_arrays {A} (c : M A) : IO A :=
  fun w =>
    match c (arrays w) with
    | (Ok a, h) => (Done a, with_arrays h w)
    | (Raise ex, h) => (Failed (Raised ex), with_arrays h w)
    end.

(** A [for] loop whose body updates the local variables [st]. *)
Fixpoint for_each {A St} (body : St -> A -> IO St) (items : list A) (st : St)
  : IO St :=
  match items with
  | [] => io_ret st
  | x :: rest => st' <~ body st x ;; for_each body rest st'
  end.

(** [assert b] *)
Definition assert (b : bool) : IO unit :=
  if b then io_ret tt else io_fail AssertionError.

(** [print(a, b)] for two integers: the two numbers, a space between
    them, and a newline. *)
Definition print (a b : Z) : IO unit :=
  fun w =>
    (Done tt,
     with_stdout
       (stdout w ++ [(PyFormat.str_int a ++ " " ++ PyFormat.str_int b ++ LF)%string])
       w).

(** [os.path.isfile(path)] *)
Definition os_path_isfile (path : string) : IO bool :=
  fun w =>
    (Done match files w path with
          | Regular _ => true
          | _ => false
          end, w).

(** [os.remove(path)] *)
Definition os_remove (path : string) : IO unit :=
  fun w =>
    match files w path with
    | Regular _ => (Done tt, with_files (put path Free (files w)) w)
    | _ => (Failed OSError, w)
    end.

(** The two modes the program opens a file for writing with: ["w+"],
    which empties the file, and ["a"], which keeps what it holds.  Both
    create the file when there is none. *)
Inductive wmode : Type :=
| W_plus
| A_mode.

(** [open(filename, wmode)]: the text the file holds once it is open. *)
Definition open_write (filename : string) (mode : wmode) : IO string :=
  fun w =>
    match files w filename, mode with
    | Barred, _ => (Failed OSError, w)
    | Regular text, A_mode => (Done text, w)
    | _, _ =>
        (Done EmptyString,
         with_files (put filename (Regular EmptyString) (files w)) w)
    end.

(** Leaving the [with] block closes the file: what was written reaches
    the disk. *)
Definition close_write (filename : string) (text : string) : IO unit :=
  fun w => (Done tt, with_files (put filename (Regular text) (files w)) w).

(** [fp.write(line)] adds [line] at the end of the file in both modes. *)
Definition lines_to_file (lines : list string) (filename : string)
  (mode : wmode) : IO unit :=
  fp <~ open_write filename mode ;;
  let fp := fold_left (fun text line => (text ++ line)%string) lines fp in
  close_write filename fp.

(** *** Reading a file back

    Iterating over a file open for reading in text mode yields its
    lines, each with its terminator; a carriage return, alone or before
    a newline, is read as a newline. *)

Fixpoint text_lines_from (cur text : string) : list string :=
  match text with
  | EmptyString =>
      match cur with
      | EmptyString => []
      | _ => [cur]
      end
  | String c rest =>
      if Ascii.eqb c "010" then
        (cur ++ LF)%string :: text_lines_from EmptyString rest
      else if Ascii.eqb c "013" then
        match rest with
        | String c' rest' =>
            if Ascii.eqb c' "010" then
              (cur ++ LF)%string :: text_lines_from EmptyString rest'
            else (cur ++ LF)%string :: text_lines_from EmptyString rest
        | EmptyString => [(cur ++ LF)%string]
        end
      else text_lines_from (cur ++ String c EmptyString)%string rest
  end.

Definition text_lines (text : string) : list string :=
  text_lines_from EmptyString text.

(** The lines of the regular file at a path, as reading it gives them. *)
Definition readable (d : disk) (path : string) : option (list string) :=
  match d path with
  | Regular text => Some (text_lines text)
  | _ => None
  end.

(** ** Orchestration

    A row of the segment table: the segment, its recording, and its start
    and end times as the table spells them.  [load_n_col] is not among
    the sources read here: it is a parameter, which reads the table from
    the disk and may fail; of its result the orchestration uses the
    recording, start and end columns, given here row by row (a table
    with fewer than four columns is not described).
    [to_float] is the conversion of one item by [astype(float)], [None]
    when the text is not a number. *)

Record segment : Type := {
  seg_name : string;
  seg_rec : string;
  seg_start : string;
  seg_end : string
}.

Class DataIO : Type := {
  load_n_col : disk -> string -> outcome (list segment);
  to_float : string -> option float
}.

Section Orchestration.

Context {libs : Libraries} {data_io : DataIO}.

Fixpoint astype_float (items : list string) : option (list float) :=
  match items with
  | [] => Some []
  | item :: rest =>
      match to_float item, astype_float rest with
      | Some x, Some xs => Some (x :: xs)
      | _, _ => None
      end
  end.

(** [np.array(segment_cols[2:4]).astype(float).transpose()]: one row
    [(start, end)] per segment. *)
Definition events_of (segment_cols : list segment) : IO (list event) :=
  match astype_float (map seg_start segment_cols),
        astype_float (map seg_end segment_cols) with
  | Some starts, Some ends => io_ret (combine starts ends)
  | _, _ => io_fail (Raised ValueError)
  end.

(** The body of the loop over the recordings.  [pred_labels] is the local
    variable of that name, [None] as long as nothing was assigned to
    it; reading it then raises [UnboundLocalError].  The serializer always
    returns its lines, so the branch for a formatting failure is never
    taken. *)
Definition make_rttm_step (segment_cols : list segment) (events0 : list event)
  (rttm_file ctype : string) (cparam : float)
  (pred_labels : option (list Z)) (item : string * nat)
  : IO (option (list Z)) :=
  let '(rec_id, smatrix) := item in
  let seg_indexes := map (fun row => String.eqb (seg_rec row) rec_id) segment_cols in
  let ev0 := mask_rows seg_indexes events0 in
  m <~ on_arrays (load smatrix) ;;
  assert (length m =? length ev0)%nat ;;~
  pred_labels <~ (if String.eqb ctype "sc" then
                    labels <~ on_arrays (spectral_clustering smatrix cparam) ;;
                    io_ret (Some labels)
                  else io_ret pred_labels) ;;
  pred_labels <~ (if String.eqb ctype "ahc" then
                    labels <~ on_arrays (agg_clustering smatrix cparam) ;;
                    io_ret (Some labels)
                  else io_ret pred_labels) ;;
  match pred_labels with
  | None => io_fail UnboundLocalError
  | Some labels =>
      let entries := assign_segments labels ev0 in
      match rttm_lines_from_entries entries rec_id with
      | Some lines =>
          lines_to_file lines rttm_file A_mode ;;~ io_ret pred_labels
      | None => io_fail (Raised ValueError)
      end
  end.

(** The progress bar that [tqdm] draws on the standard error is left
    out. *)
Definition make_rttm (segments : string) (cids : list string) (cm : list nat)
  (rttm_file ctype : string) (cparam : float) : IO unit :=
  isfile <~ os_path_isfile rttm_file ;;
  (if isfile then os_remove rttm_file else io_ret tt) ;;~
  segment_cols <~ (fun w => (load_n_col (files w) segments, w)) ;;
  let seg_recording_ids := sorted_set (map seg_rec segment_cols) in
  print (Z.of_nat (length seg_recording_ids)) (Z.of_nat (length cids)) ;;~
  assert (length seg_recording_ids =? length cids)%nat ;;~
  events0 <~ events_of segment_cols ;;
  for_each (make_rttm_step segment_cols events0 rttm_file ctype cparam)
    (combine cids cm) None ;;~
  io_ret tt.

End Orchestration.

(** * Vocabulary of the properties

    Predicates and reference definitions the theorems are stated with. *)

(** ** Binary64 numbers by kind *)

(** [f] is a zero, a finite number or an infinity of sign [sx]. *)
Definition sf_signed (sx : bool) (f : spec_float) : Prop :=
  match f with
  | S754_nan => False
  | S754_zero sg | S754_infinity sg | S754_finite sg _ _ => sg = sx
  end.

(** [f] is not below zero: a zero of either sign, a positive number,
    plus infinity, or NaN. *)
Definition sf_not_neg (f : spec_float) : Prop :=
  match f with
  | S754_finite true _ _ | S754_infinity true => False
  | _ => True
  end.

Definition sf_finite (f : spec_float) : Prop :=
  match f with
  | S754_zero _ | S754_finite _ _ _ => True
  | _ => False
  end.

Definition sf_zero (f : spec_float) : Prop :=
  match f with
  | S754_zero _ => True
  | _ => False
  end.

(** ** Serializer and merger *)

(** The line the specification describes for one interval. *)
Definition rttm_line (rec_id : string) (en : entry) : string :=
  ("SPEAKER " ++ rec_id ++ " 0 " ++ PyFormat.format_fixed 3 (s en) ++ " "
     ++ PyFormat.format_fixed 3 (e en - s en)%float ++ " <NA> <NA> "
     ++ PyFormat.str_int (id en) ++ " <NA> <NA>" ++ LF)%string.

(** [entries[-1]], when there is one. *)
Definition last_error {A} (l : list A) : option A := option_map snd (unsnoc l).

(** Times that never decrease along a list. *)
Fixpoint nondecreasing (l : list float) : bool :=
  match l with
  | x :: (y :: _) as rest => (x <=? y)%float && nondecreasing rest
  | _ => true
  end.

(** Segment starts and segment ends both never decrease. *)
Definition times_nondecreasing (events : list event) : bool :=
  nondecreasing (map fst events) && nondecreasing (map snd events).

(** Both times of a segment are finite numbers (neither NaN nor infinite). *)
Definition finite_event (ev : event) : bool :=
  is_finite (fst ev) && is_finite (snd ev).

(** [R] holds of every two neighbours of [l]. *)
Definition adjacent {A} (R : A -> A -> Prop) (l : list A) : Prop :=
  forall i a b, nth_error l i = Some a -> nth_error l (S i) = Some b -> R a b.

(** What two neighbouring intervals satisfy: the earlier one ends no later
    than the next one starts, and their ids differ unless a strict gap
    separates them. *)
Definition turn_order (a b : entry) : Prop :=
  (e a <=? s b)%float = true
  /\ (id a <> id b \/ (e a <? s b)%float = true).

(** The loop invariant: neighbours are in order and the end of the open
    interval is not NaN. *)
Definition merger_inv (entries : list entry) : Prop :=
  adjacent turn_order entries
  /\ match last_error entries with
     | Some lst => is_nan (e lst) = false
     | None => True
     end.

(** ** The steps of the enhancer, entry by entry *)

(** The maximum of [f 0], ..., [f (n-1)]. *)
Definition fmax_over (n : nat) (f : nat -> float) : float :=
  fold_left (fun acc k => fmax acc (f k)) (seq 1 (n - 1)) (f 0%nat).

(** [Y[i][j] = max(S[i][j], S[j][i])] *)
Definition spec_sym (S : matrix) (i j : nat) : float :=
  fmax (entry_at S i j) (entry_at S j i).

(** ** Signs *)

(** [x] is not below zero: it is non-negative or NaN. *)
Definition nn (x : float) : Prop := (x <? 0)%float = false.

(** ** Estimators *)

(** A product of matrices that adds the products of a row and a column
    from left to right, starting from zero: one of the ways [np.dot] may
    compute, used where an example needs one. *)
Definition vdot (u v : vector) : float :=
  fold_left (fun acc p => (acc + fst p * snd p)%float) (combine u v) 0%float.

Definition sequential_dot (a b : matrix) : matrix :=
  map (fun r => map (fun c => vdot r c) (np_T b)) a.

(** Library routines for a one-segment recording: the Laplacian of the
    single isolated node is zero, with eigenvalue 0 and eigenvector (1);
    K-means refuses zero clusters. *)
Definition example_libraries : Libraries := {|
  np_dot := sequential_dot;
  laplacian := fun m => m;
  eig := fun _ => Ok ([{| re := 0; im := 0 |}], [[{| re := 1; im := 0 |}]]);
  KMeans_fit_predict := fun k P =>
    match k with
    | O => Raise ValueError
    | _ => Ok (map (fun _ => 0%Z) P)
    end;
  Agglomerative_fit_predict := fun _ m => Ok (map (fun _ => 0%Z) m)
|}.

(** ** Aggregator *)

(** The field the aggregator groups by: the one at index [column] of
    the stripped line, split at every single space. *)
Definition field_key (column : nat) (line : string) : string :=
  nth column (split_on " " (strip line)) EmptyString.

(** The lines of the files, in file order then line order; [None] when
    a file cannot be read. *)
Fixpoint all_lines (fs : file_system) (rttms : list string) : option (list string) :=
  match rttms with
  | [] => Some []
  | rttm_file :: rest =>
      match fs rttm_file, all_lines fs rest with
      | Ok lines, Some more => Some (lines ++ more)
      | _, _ => None
      end
  end.

(** The exception of the first file that cannot be read, if there is
    one. *)
Fixpoint first_failure (fs : file_system) (rttms : list string) : option exn :=
  match rttms with
  | [] => None
  | rttm_file :: rest =>
      match fs rttm_file with
      | Ok _ => first_failure fs rest
      | Raise ex => Some ex
      end
  end.

(** [t] holds no NUL character. *)
Fixpoint no_nul (t : string) : bool :=
  match t with
  | EmptyString => true
  | String c rest => negb (Ascii.eqb c "000") && no_nul rest
  end.

(** The lines whose key is [k], in their order. *)
Definition group (column : nat) (lines : list string) (k : string) : list string :=
  filter (fun line => String.eqb (field_key column line) k) lines.

(** Two RTTM files whose recordings interleave. *)
Definition example_files : file_system :=
  fun path =>
    if String.eqb path "a.rttm" then
      Ok [("SPEAKER r2 0 0.000 1.000 <NA> <NA> 0 <NA> <NA>" ++ LF)%string;
          ("SPEAKER r1 0 0.000 2.000 <NA> <NA> 1 <NA> <NA>" ++ LF)%string]
    else if String.eqb path "b.rttm" then
      Ok [("SPEAKER r1 0 2.000 1.500 <NA> <NA> 0 <NA> <NA>" ++ LF)%string;
          ("SPEAKER r2 0 1.000 0.500 <NA> <NA> 1 <NA> <NA>" ++ LF)%string]
    else Raise FileNotFoundError.

(** The fields of a line in the words of the specification: delimited by
    white space, as [str.split()] with no argument gives them, a run of
    white space delimiting once.  [cur] is the field being read. *)
Fixpoint split_whitespace (cur : string) (t : string) : list string :=
  match t with
  | EmptyString =>
      match cur with
      | EmptyString => []
      | _ => [cur]
      end
  | String c rest =>
      if is_space c then
        match cur with
        | EmptyString => split_whitespace EmptyString rest
        | _ => cur :: split_whitespace EmptyString rest
        end
      else split_whitespace (cur ++ String c EmptyString)%string rest
  end.

Definition example_spaced_files : file_system :=
  fun path =>
    if String.eqb path "spaced.rttm" then
      Ok [("SPEAKER  rb 0" ++ LF)%string; ("SPEAKER ra 0" ++ LF)%string]
    else if String.eqb path "short.rttm" then Ok [("SPEAKER" ++ LF)%string]
    else Raise FileNotFoundError.

(** A file whose two lines have keys that differ by a NUL character at
    the end. *)
Definition example_nul_files : file_system :=
  fun path =>
    if String.eqb path "nul.rttm" then
      Ok [String "b"%char (String "000"%char (" 1" ++ LF)%string);
          ("b 2" ++ LF)%string;
          ("a 3" ++ LF)%string]
    else Raise FileNotFoundError.

(** ** More on the merger *)

(** The interval a segment opens when nothing is merged into it. *)
Definition entry_of (pe : Z * event) : entry :=
  {| s := fst (snd pe); e := snd (snd pe); id := fst pe |}.

(** Segment [q] does not continue the turn of the segment [p] read before
    it: a time gap separates them, or their labels differ. *)
Definition boundary (p q : Z * event) : bool :=
  (snd (snd p) <? fst (snd q))%float || negb (fst p =? fst q)%Z.

(** The number of neighbouring segments with a boundary between them. *)
Fixpoint boundaries (pes : list (Z * event)) : nat :=
  match pes with
  | p :: (q :: _) as rest => ((if boundary p q then 1 else 0) + boundaries rest)%nat
  | _ => 0%nat
  end.

(** Every segment ends strictly before the next one starts. *)
Fixpoint all_gaps (events : list event) : bool :=
  match events with
  | p :: (q :: _) as rest => (snd p <? fst q)%float && all_gaps rest
  | _ => true
  end.

(** No segment ends strictly before the next one starts. *)
Fixpoint no_gap (events : list event) : bool :=
  match events with
  | p :: (q :: _) as rest => negb (snd p <? fst q)%float && no_gap rest
  | _ => true
  end.

(** ** More on the serializer and the aggregator *)

(** Character [c] occurs in [t]. *)
Fixpoint has_char (c : ascii) (t : string) : bool :=
  match t with
  | EmptyString => false
  | String x rest => Ascii.eqb x c || has_char c rest
  end.

(** White space and NUL: the characters no printed number holds. *)
Definition blank (c : ascii) : bool := is_space c || Ascii.eqb c "000".

(** The fields with one [sep] between neighbours. *)
Fixpoint join (sep : ascii) (fields : list string) : string :=
  match fields with
  | [] => EmptyString
  | [field] => field
  | field :: rest => (field ++ String sep (join sep rest))%string
  end.

(** The ten fields of the line of one interval. *)
Definition rttm_fields (rec_id : string) (en : entry) : list string :=
  ["SPEAKER"; rec_id; "0"; PyFormat.format_fixed 3 (s en);
   PyFormat.format_fixed 3 (e en - s en)%float; "<NA>"; "<NA>";
   PyFormat.str_int (id en); "<NA>"; "<NA>"].

(** ** More on the spectral estimator *)

(** The eigenvalues the spectral estimator keeps: those whose real part
    is below [beta]. *)
Definition selected (beta : float) (ev : complex) : bool := (re ev <? beta)%float.

Definition clusters_requested (beta : float) (eigvals : list complex) : nat :=
  length (filter (selected beta) eigvals).

(** For every row of the eigenvector matrix, the real parts of its
    components along the kept eigenvectors, in their order. *)
Definition embedding (beta : float) (eigvals : list complex)
  (eigvecs : list (list complex)) : matrix :=
  map (fun row => mask_rows (map (selected beta) eigvals) (np_real row)) eigvecs.

(** ** More on files *)

(** The lines one after the other. *)
Definition joined (lines : list string) : string :=
  fold_right append EmptyString lines.

(** [t] is one line of text: it ends with a newline and holds neither
    another newline nor a carriage return. *)
Fixpoint one_line (t : string) : bool :=
  match t with
  | EmptyString => false
  | String c rest =>
      match rest with
      | EmptyString => Ascii.eqb c "010"
      | _ => negb (Ascii.eqb c "010") && negb (Ascii.eqb c "013") && one_line rest
      end
  end.

(** The text a file holds when it is opened for writing in mode [mode]. *)
Definition text_at_open (mode : wmode) (n : node) : string :=
  match mode, n with
  | A_mode, Regular text => text
  | _, _ => EmptyString
  end.

(** ** More on the orchestration *)

(** The disk once the regular file at [path], if there is one, is
    removed. *)
Definition removed (path : string) (d : disk) : disk :=
  match d path with
  | Regular _ => put path Free d
  | _ => d
  end.

(** The rows of the recording [rec_id] among the events of the table. *)
Definition recording_events (segment_cols : list segment)
  (events0 : list event) (rec_id : string) : list event :=
  mask_rows (map (fun row => String.eqb (seg_rec row) rec_id) segment_cols)
    events0.

(** The lines of the recording [rec_id] when its segments get [labels]. *)
Definition recording_lines (segment_cols : list segment)
  (events0 : list event) (rec_id : string) (labels : list Z) : list string :=
  map (rttm_line rec_id)
    (assign_segments labels (recording_events segment_cols events0 rec_id)).

(** The labels the estimator named [ctype] gives the matrix [v]: the
    estimator run on a heap that holds [v] alone. *)
Definition labels_of {libs : Libraries} (ctype : string) (cparam : float)
  (v : matrix) : result (list Z) :=
  if String.eqb ctype "sc" then fst (spectral_clustering 0 cparam [v])
  else fst (agg_clustering 0 cparam [v]).

(** The line [print] writes for two counts. *)
Definition counts_line (a b : nat) : string :=
  (PyFormat.str_int (Z.of_nat a) ++ " " ++ PyFormat.str_int (Z.of_nat b) ++ LF)%string.

(** World [w'] differs from [w] at most by the file at [path], by new
    arrays after the ones of [w], and by what was printed. *)
Definition touches_only (path : string) (w w' : world) : Prop :=
  (forall p, p <> path -> files w' p = files w p)
  /\ (exists fresh, arrays w' = arrays w ++ fresh)
  /\ (exists more, stdout w' = stdout w ++ more).

(** A computation that touches only the file at [path]. *)
Definition confined {A} (path : string) (c : IO A) : Prop :=
  forall w, touches_only path w (snd (c w)).

(** The file once [lines] are appended to it. *)
Definition appended (lines : list string) (n : node) : node :=
  Regular (text_at_open A_mode n ++ joined lines).

(** A recording identifier the serializer and the aggregator agree on:
    it holds no space, no newline, no carriage return and no NUL. *)
Definition plain_id (rec_id : string) : bool :=
  negb (has_char " " rec_id) && negb (has_char "010" rec_id)
  && negb (has_char "013" rec_id) && no_nul rec_id.

(** The file system hands the aggregator the regular files of the disk
    [d] as reading them gives them. *)
Definition opens (d : disk) (fs : file_system) : Prop :=
  forall path lines, readable d path = Some lines -> fs path = Ok lines.

(** A file system for the examples: the regular files of the disk read
    as their lines, and every other path is reported missing. *)
Definition example_reader (d : disk) : file_system :=
  fun path =>
    match readable d path with
    | Some lines => Ok lines
    | None => Raise FileNotFoundError
    end.

(** The recording [item] (its identifier and the reference of its
    matrix) can be processed on the arrays [h] and gets [labels]: the
    reference names an array of [h], with as many rows as the recording
    has segments, to which the estimator gives [labels]. *)
Definition processed {libs : Libraries} (segment_cols : list segment)
  (events0 : list event) (ctype : string) (cparam : float) (h : heap)
  (item : string * nat) (labels : list Z) : Prop :=
  (snd item < length h)%nat
  /\ length (nth (snd item) h [])
     = length (recording_events segment_cols events0 (fst item))
  /\ labels_of ctype cparam (nth (snd item) h []) = Ok labels.

(** The lines of the recordings [items], one recording after the other. *)
Definition output_lines (segment_cols : list segment) (events0 : list event)
  (items : list (string * nat)) (labelss : list (list Z)) : list string :=
  flat_map (fun il => recording_lines segment_cols events0 (fst (fst il)) (snd il))
    (combine items labelss).

(** The output file once the lines of the recordings [items] are
    appended to [n]: nothing is opened when there is no recording. *)
Definition output_file (segment_cols : list segment) (events0 : list event)
  (items : list (string * nat)) (labelss : list (list Z)) (n : node) : node :=
  match items with
  | [] => n
  | _ => appended (output_lines segment_cols events0 items labelss) n
  end.

(** A segment table with two segments of recording [rec1] and one of
    [rec2], the loader that finds it at the path [segments], and the
    conversion of the three numbers it spells. *)
Definition example_table : list segment :=
  [{| seg_name := "rec1-0"; seg_rec := "rec1"; seg_start := "0"; seg_end := "1" |};
   {| seg_name := "rec1-1"; seg_rec := "rec1"; seg_start := "1"; seg_end := "2" |};
   {| seg_name := "rec2-0"; seg_rec := "rec2"; seg_start := "0"; seg_end := "1" |}].

Definition example_data_io : DataIO := {|
  load_n_col := fun _ path =>
    if String.eqb path "segments" then Done example_table
    else Failed (Raised FileNotFoundError);
  to_float := fun item =>
    if String.eqb item "0" then Some 0%float
    else if String.eqb item "1" then Some 1%float
    else if String.eqb item "2" then Some 2%float
    else None
|}.

(** A world with an output file left by an earlier run and the matrices
    [arrays]. *)
Definition example_world (arrays : heap) : world := {|
  files := fun path =>
    if String.eqb path "hyp.rttm" then Regular ("stale" ++ LF) else Free;
  arrays := arrays;
  stdout := []
|}.

(** * Properties *)

(** ** Facts about binary64 arithmetic

    The primitive operations are specified by the Standard Library against
    [spec_float]; the facts below are read off that specification. *)

Module F64.

Local Open Scope Z_scope.

Lemma sf_signed_not_nan sx f : sf_signed sx f -> f <> S754_nan.
Proof. now destruct f. Qed.

Lemma sf_signed_not_neg f : sf_signed false f -> sf_not_neg f.
Proof. destruct f as [| [] | | [] ? ?]; cbn; auto; discriminate. Qed.

(** *** Rounding keeps the sign and never yields NaN *)

Lemma shr_1_nonneg mrs : 0 <= shr_m mrs -> 0 <= shr_m (shr_1 mrs).
Proof.
  destruct mrs as [m r sticky]; cbn [shr_m]; intros H.
  destruct m as [|p|p]; [cbn; lia| |lia].
  destruct p; cbn; lia.
Qed.

Lemma iter_shr_1_nonneg p :
  forall mrs, 0 <= shr_m mrs -> 0 <= shr_m (iter_pos shr_1 p mrs).
Proof.
  induction p as [p IH|p IH|]; intros mrs H; cbn [iter_pos].
  - apply IH, IH, shr_1_nonneg, H.
  - apply IH, IH, H.
  - apply shr_1_nonneg, H.
Qed.

Lemma shr_fexp_nonneg m ex l :
  0 <= m -> 0 <= shr_m (fst (shr_fexp prec emax m ex l)).
Proof.
  intros H. unfold shr_fexp, shr.
  assert (H0 : 0 <= shr_m (shr_record_of_loc m l))
    by (destruct l as [|[]]; exact H).
  destruct (fexp prec emax (Zdigits2 m + ex) - ex); cbn [fst]; auto.
  now apply iter_shr_1_nonneg.
Qed.

Lemma round_nearest_even_nonneg m l : 0 <= m -> 0 <= round_nearest_even m l.
Proof.
  intros H. destruct l as [|[]]; cbn; try lia. destruct (Z.even m); lia.
Qed.

Lemma binary_round_aux_signed sx mx ex lx :
  0 <= mx -> sf_signed sx (binary_round_aux prec emax sx mx ex lx).
Proof.
  intros H. unfold binary_round_aux.
  pose proof (shr_fexp_nonneg mx ex lx H) as H1.
  destruct (shr_fexp prec emax mx ex lx) as [mrs' e']. cbn [fst] in H1.
  pose proof (shr_fexp_nonneg _ e' loc_Exact
                (round_nearest_even_nonneg _ (loc_of_shr_record mrs') H1)) as H2.
  destruct (shr_fexp prec emax _ e' loc_Exact) as [mrs'' e'']. cbn [fst] in H2.
  destruct (shr_m mrs'') as [|p|p]; [reflexivity| |lia].
  destruct (e'' <=? emax - prec); reflexivity.
Qed.

Lemma binary_round_signed sx mx ex :
  sf_signed sx (binary_round prec emax sx mx ex).
Proof.
  unfold binary_round. destruct shl_align. now apply binary_round_aux_signed.
Qed.

Lemma binary_normalize_not_nan m ex :
  binary_normalize prec emax m ex false <> S754_nan.
Proof.
  destruct m; cbn [binary_normalize]; [discriminate| |];
    eapply sf_signed_not_nan, binary_round_signed.
Qed.

(** *** Addition, multiplication and division *)

Lemma SF64add_not_nan x y :
  x <> S754_nan -> sf_finite y -> SF64add x y <> S754_nan.
Proof.
  intros Hx Hy. unfold SF64add.
  destruct x as [sx|sx| |sx mx ex], y as [sy|sy| |sy my ey];
    cbn in Hy |- *; try contradiction; try discriminate.
  - destruct sx, sy; discriminate.
  - apply binary_normalize_not_nan.
Qed.

Lemma SF64div_finite_not_nan x sy my ey :
  x <> S754_nan -> SF64div x (S754_finite sy my ey) <> S754_nan.
Proof.
  intros Hx. unfold SF64div.
  destruct x as [sx|sx| |sx mx ex]; cbn [SFdiv]; try contradiction;
    try discriminate.
  destruct (SFdiv_core_binary prec emax (Zpos mx) ex (Zpos my) ey)
    as [[mz ez] lz] eqn:E.
  eapply sf_signed_not_nan, binary_round_aux_signed.
  unfold SFdiv_core_binary in E.
  set (m' := match _ with Zpos _ => _ | Z0 => _ | Zneg _ => _ end) in E.
  assert (Hm : 0 <= m').
  { subst m'. destruct (_ - _ - _); [lia| |lia]. apply Z.shiftl_nonneg. lia. }
  pose proof (Z.div_pos m' (Zpos my) Hm ltac:(lia)) as Hq.
  unfold Z.div in Hq. destruct (Z.div_eucl m' (Zpos my)) as [q r].
  injection E as <- _ _. exact Hq.
Qed.

Lemma SF64add_not_neg x y :
  sf_not_neg x -> sf_not_neg y -> sf_not_neg (SF64add x y).
Proof.
  intros Hx Hy. unfold SF64add.
  destruct x as [sx|[]| |[] mx ex], y as [sy|[]| |[] my ey];
    cbn in Hx, Hy |- *; try contradiction; try exact I.
  - destruct sx, sy; exact I.
  - apply sf_signed_not_neg. cbn [cond_Zopp Z.add].
    apply binary_round_signed.
Qed.

Lemma SF64mul_not_neg x y :
  sf_not_neg x -> sf_not_neg y -> sf_not_neg (SF64mul x y).
Proof.
  intros Hx Hy. unfold SF64mul.
  destruct x as [sx|[]| |[] mx ex], y as [sy|[]| |[] my ey];
    cbn in Hx, Hy |- *; try contradiction; try exact I.
  apply sf_signed_not_neg, binary_round_aux_signed. lia.
Qed.

(** A quotient [x / m] is not below zero when neither operand is and
    [m] is zero only if [x] is zero or NaN. *)
Lemma SF64div_not_neg x m :
  sf_not_neg x -> sf_not_neg m ->
  (sf_zero m -> sf_zero x \/ x = S754_nan) ->
  sf_not_neg (SF64div x m).
Proof.
  intros Hx Hm Hz. unfold SF64div.
  destruct x as [sx|[]| |[] mx ex], m as [sy|[]| |[] my ey];
    cbn in Hx, Hm, Hz |- *; try contradiction; try exact I.
  - destruct (Hz I) as [[]|?]; discriminate.
  - destruct (Hz I) as [[]|?]; discriminate.
  - destruct (SFdiv_core_binary prec emax (Zpos mx) ex (Zpos my) ey)
      as [[mz ez] lz] eqn:E.
    apply sf_signed_not_neg, binary_round_aux_signed.
    unfold SFdiv_core_binary in E.
    set (m' := match _ with Zpos _ => _ | Z0 => _ | Zneg _ => _ end) in E.
    assert (Hm' : 0 <= m').
    { subst m'. destruct (_ - _ - _); [lia| |lia]. apply Z.shiftl_nonneg. lia. }
    pose proof (Z.div_pos m' (Zpos my) Hm' ltac:(lia)) as Hq.
    unfold Z.div in Hq. destruct (Z.div_eucl m' (Zpos my)) as [q r].
    injection E as <- _ _. exact Hq.
Qed.

(** *** Comparison *)

Lemma SFcompare_refl f : f <> S754_nan -> SFcompare f f = Some Eq.
Proof.
  destruct f as [sx|[]| |[] m ex]; cbn; intros H; try reflexivity;
    try contradiction;
    now rewrite Z.compare_refl, Pos.compare_cont_refl.
Qed.

(** *** The same facts on primitive floats *)

Local Open Scope float_scope.

Lemma Prim2SF_zero : Prim2SF 0 = S754_zero false.
Proof. reflexivity. Qed.

Lemma Prim2SF_two : Prim2SF 2 = S754_finite false 4503599627370496 (-51).
Proof. reflexivity. Qed.

Lemma is_nan_spec x : is_nan x = false <-> Prim2SF x <> S754_nan.
Proof.
  unfold is_nan. rewrite eqb_spec. unfold SFeqb. split.
  - intros H E. rewrite E in H. discriminate.
  - intros H. now rewrite SFcompare_refl.
Qed.

Lemma is_nan_true x : is_nan x = true <-> Prim2SF x = S754_nan.
Proof.
  split.
  - intros H. destruct (Prim2SF x) eqn:E; try reflexivity;
      assert (Hn : is_nan x = false) by (apply is_nan_spec; rewrite E; discriminate);
      congruence.
  - intros H. destruct (is_nan x) eqn:E; [reflexivity|].
    apply is_nan_spec in E. contradiction.
Qed.

Lemma is_finite_spec x : is_finite x = true -> sf_finite (Prim2SF x).
Proof.
  unfold is_finite, is_infinity. rewrite negb_true_iff, orb_false_iff.
  intros [Hn Hi]. apply is_nan_spec in Hn.
  rewrite eqb_spec, abs_spec in Hi.
  destruct (Prim2SF x) as [sx|sx| |sx m ex]; cbn; auto.
  discriminate.
Qed.

Lemma is_finite_not_nan x : is_finite x = true -> is_nan x = false.
Proof.
  unfold is_finite. rewrite negb_true_iff, orb_false_iff. tauto.
Qed.

Lemma is_zero_spec x : is_zero x = true <-> sf_zero (Prim2SF x).
Proof.
  unfold is_zero. rewrite eqb_spec.
  change (Prim2SF zero) with (S754_zero false).
  destruct (Prim2SF x) as [sx|[]| |[] m ex]; cbn; intuition discriminate.
Qed.

Lemma not_neg_spec x : (x <? 0) = false <-> sf_not_neg (Prim2SF x).
Proof.
  rewrite ltb_spec, Prim2SF_zero.
  destruct (Prim2SF x) as [sx|[]| |[] m ex]; cbn; intuition discriminate.
Qed.

Lemma leb_zero_not_neg x : (0 <=? x) = true -> (x <? 0) = false.
Proof.
  rewrite leb_spec, Prim2SF_zero. intros H. apply not_neg_spec.
  destruct (Prim2SF x) as [sx|[]| |[] m ex]; cbn in *; auto; discriminate.
Qed.

Lemma not_neg_cases x :
  (x <? 0) = false -> (0 <=? x) = true \/ is_nan x = true.
Proof.
  intros H. apply not_neg_spec in H.
  rewrite leb_spec, Prim2SF_zero, is_nan_true.
  destruct (Prim2SF x) as [sx|[]| |[] m ex]; cbn in *; auto; contradiction.
Qed.

Lemma leb_refl x : is_nan x = false -> (x <=? x) = true.
Proof.
  intros H. apply is_nan_spec in H.
  rewrite leb_spec. unfold SFleb. now rewrite SFcompare_refl.
Qed.

Lemma ltb_leb x y : (x <? y) = true -> (x <=? y) = true.
Proof.
  rewrite ltb_spec, leb_spec. unfold SFltb, SFleb.
  destruct (SFcompare (Prim2SF x) (Prim2SF y)) as [[]|]; auto.
Qed.

(** The midpoint of a number that is not NaN and a finite one is not NaN
    (it is an infinity when the sum overflows). *)
Lemma midpoint_not_nan x y :
  is_nan x = false -> is_finite y = true -> is_nan ((x + y) / 2) = false.
Proof.
  intros Hx Hy. apply is_nan_spec in Hx. apply is_finite_spec in Hy.
  apply is_nan_spec. rewrite div_spec, add_spec, Prim2SF_two.
  now apply SF64div_finite_not_nan, SF64add_not_nan.
Qed.

Lemma add_not_neg x y :
  (x <? 0) = false -> (y <? 0) = false -> (x + y <? 0) = false.
Proof.
  rewrite !not_neg_spec, add_spec. apply SF64add_not_neg.
Qed.

Lemma mul_not_neg x y :
  (x <? 0) = false -> (y <? 0) = false -> (x * y <? 0) = false.
Proof.
  rewrite !not_neg_spec, mul_spec. apply SF64mul_not_neg.
Qed.

Lemma div_not_neg x m :
  (x <? 0) = false -> (m <? 0) = false ->
  (is_zero m = true -> is_zero x = true \/ is_nan x = true) ->
  (x / m <? 0) = false.
Proof.
  rewrite !not_neg_spec, div_spec. intros Hx Hm Hz.
  apply SF64div_not_neg; auto.
  intros Z. rewrite <- is_zero_spec, <- is_nan_true. apply Hz.
  now apply is_zero_spec.
Qed.

Lemma is_zero_not_nan x : is_zero x = true -> is_nan x = false.
Proof.
  rewrite is_zero_spec, is_nan_spec. now destruct (Prim2SF x).
Qed.

(** A zero is at most any number that is neither NaN nor below zero. *)
Lemma zero_leb y m :
  is_zero y = true -> is_nan m = false -> (m <? 0) = false -> (y <=? m) = true.
Proof.
  rewrite is_zero_spec, is_nan_spec, not_neg_spec, leb_spec.
  destruct (Prim2SF y) as [sy|[]| |[] my ey], (Prim2SF m) as [sx|[]| |[] mx ex];
    cbn; intuition congruence.
Qed.

(** Only a zero is both at most a zero and not below zero. *)
Lemma leb_zero_is_zero y m :
  (y <=? m) = true -> is_zero m = true -> (y <? 0) = false -> is_zero y = true.
Proof.
  rewrite !is_zero_spec, not_neg_spec, leb_spec.
  destruct (Prim2SF y) as [sy|[]| |[] my ey], (Prim2SF m) as [sx|[]| |[] mx ex];
    cbn; intuition congruence.
Qed.

End F64.

(** ** The order of binary64 numbers *)

Module F64Order.

Lemma SFcompare_antisym (f1 f2 : spec_float) :
  SFcompare f2 f1 = option_map CompOpp (SFcompare f1 f2).
Proof.
  destruct f1 as [[]|[]| |[] m1 e1], f2 as [[]|[]| |[] m2 e2]; cbn;
    try reflexivity;
    rewrite (Z.compare_antisym e1 e2); destruct (e1 ?= e2)%Z; cbn;
    try reflexivity;
    change (Pos.compare_cont Eq m2 m1) with (Pos.compare m2 m1);
    change (Pos.compare_cont Eq m1 m2) with (Pos.compare m1 m2);
    rewrite (Pos.compare_antisym m1 m2);
    now rewrite ?CompOpp_involutive.
Qed.

Ltac order_cases :=
  repeat match goal with
         | H : context [(?a ?= ?b)%Z] |- _ => destruct (Z.compare_spec a b)
         | |- context [(?a ?= ?b)%Z] => destruct (Z.compare_spec a b)
         | H : context [Pos.compare_cont Eq ?a ?b] |- _ =>
             change (Pos.compare_cont Eq a b) with (Pos.compare a b) in *;
             destruct (Pos.compare_spec a b)
         | |- context [Pos.compare_cont Eq ?a ?b] =>
             change (Pos.compare_cont Eq a b) with (Pos.compare a b) in *;
             destruct (Pos.compare_spec a b)
         end;
  cbn in *; subst; try discriminate; try reflexivity; try lia.

Lemma SFltb_SFleb_trans (x y z : spec_float) :
  SFltb x y = true -> SFleb y z = true -> SFltb x z = true.
Proof.
  unfold SFltb, SFleb.
  destruct x as [[]|[]| |[] mx ex], y as [[]|[]| |[] my ey],
    z as [[]|[]| |[] mz ez]; cbn; try discriminate; try reflexivity;
    intros H1 H2; order_cases.
Qed.

Lemma SFleb_trans (x y z : spec_float) :
  SFleb x y = true -> SFleb y z = true -> SFleb x z = true.
Proof.
  unfold SFleb.
  destruct x as [[]|[]| |[] mx ex], y as [[]|[]| |[] my ey],
    z as [[]|[]| |[] mz ez]; cbn; try discriminate; try reflexivity;
    intros H1 H2; order_cases.
Qed.

Lemma SFcompare_nan_l (f : spec_float) : SFcompare S754_nan f = None.
Proof. reflexivity. Qed.

Lemma SFcompare_nan_r (f : spec_float) : SFcompare f S754_nan = None.
Proof. now destruct f. Qed.

Lemma SFcompare_some (f1 f2 : spec_float) :
  f1 <> S754_nan -> f2 <> S754_nan -> exists c, SFcompare f1 f2 = Some c.
Proof.
  destruct f1 as [s1|s1| |s1 m1 e1], f2 as [s2|s2| |s2 m2 e2]; cbn;
    intros H1 H2; try contradiction; eauto.
Qed.

Local Open Scope float_scope.

Lemma ltb_leb_trans (x y z : float) :
  (x <? y) = true -> (y <=? z) = true -> (x <? z) = true.
Proof. rewrite !ltb_spec, leb_spec. apply SFltb_SFleb_trans. Qed.

Lemma leb_nan_l (x y : float) : is_nan x = true -> (x <=? y) = false.
Proof.
  intros H. apply F64.is_nan_true in H. rewrite leb_spec. unfold SFleb.
  now rewrite H.
Qed.

Lemma leb_nan_r (x y : float) : is_nan y = true -> (x <=? y) = false.
Proof.
  intros H. apply F64.is_nan_true in H. rewrite leb_spec. unfold SFleb.
  now rewrite H, SFcompare_nan_r.
Qed.

Lemma leb_connex (x y : float) :
  is_nan x = false -> is_nan y = false ->
  (x <=? y) = true \/ (y <=? x) = true.
Proof.
  intros Hx Hy. apply F64.is_nan_spec in Hx, Hy. rewrite !leb_spec.
  unfold SFleb. rewrite (SFcompare_antisym (Prim2SF x) (Prim2SF y)).
  destruct (SFcompare_some _ _ Hx Hy) as ([] & ->); cbn; auto.
Qed.

Lemma leb_antisym (x y : float) :
  (x <=? y) = true -> (y <=? x) = true -> (x =? y) = true.
Proof.
  rewrite !leb_spec, eqb_spec. unfold SFleb, SFeqb.
  rewrite (SFcompare_antisym (Prim2SF x) (Prim2SF y)).
  destruct (SFcompare (Prim2SF x) (Prim2SF y)) as [[]|]; cbn; auto.
Qed.

Lemma eqb_refl (x : float) : is_nan x = false -> (x =? x) = true.
Proof.
  intros H. apply F64.is_nan_spec in H. rewrite eqb_spec. unfold SFeqb.
  now rewrite F64.SFcompare_refl.
Qed.

Lemma leb_trans (x y z : float) :
  (x <=? y) = true -> (y <=? z) = true -> (x <=? z) = true.
Proof. rewrite !leb_spec. apply SFleb_trans. Qed.

Lemma ltb_nan_l (x y : float) : is_nan x = true -> (x <? y) = false.
Proof.
  intros H. apply F64.is_nan_true in H. rewrite ltb_spec. unfold SFltb.
  now rewrite H.
Qed.

Lemma ltb_nan_r (x y : float) : is_nan y = true -> (x <? y) = false.
Proof.
  intros H. apply F64.is_nan_true in H. rewrite ltb_spec. unfold SFltb.
  now rewrite H, SFcompare_nan_r.
Qed.

(** Of two numbers, the one that is not below the other is at least it. *)
Lemma ltb_false_leb (x y : float) :
  is_nan x = false -> is_nan y = false ->
  (y <? x) = false -> (x <=? y) = true.
Proof.
  intros Hx Hy. apply F64.is_nan_spec in Hx, Hy. rewrite ltb_spec, leb_spec.
  unfold SFltb, SFleb. rewrite (SFcompare_antisym (Prim2SF x) (Prim2SF y)).
  destruct (SFcompare_some _ _ Hx Hy) as ([] & ->); cbn; auto.
Qed.

(** A number divided by a finite number other than zero is not NaN. *)
Lemma div_finite_not_nan (x m : float) :
  is_nan x = false -> is_finite m = true -> is_zero m = false ->
  is_nan (x / m) = false.
Proof.
  intros Hx Hm Hz. apply F64.is_nan_spec in Hx. apply F64.is_finite_spec in Hm.
  apply F64.is_nan_spec. rewrite div_spec.
  destruct (Prim2SF m) as [sm|sm| |sm mm em] eqn:E; cbn in Hm;
    try contradiction.
  - assert (Hz' : is_zero m = true) by (apply F64.is_zero_spec; now rewrite E).
    congruence.
  - now apply F64.SF64div_finite_not_nan.
Qed.

(** Zero divided by zero is NaN. *)
Lemma div_zeros_nan (x m : float) :
  is_zero x = true -> is_zero m = true -> is_nan (x / m) = true.
Proof.
  rewrite !F64.is_zero_spec, F64.is_nan_true, div_spec.
  now destruct (Prim2SF x), (Prim2SF m).
Qed.

End F64Order.

(** ** RTTM serializer *)

Section Serializer.

Import PyFormat.

Lemma format_rttm_template (rec_id : string) (start offset : float) (label : Z) :
  format rttm_template [PStr rec_id; PFloat start; PFloat offset; PInt label]
  = Some ("SPEAKER " ++ rec_id ++ " 0 " ++ format_fixed 3 start ++ " "
            ++ format_fixed 3 offset ++ " <NA> <NA> "
            ++ str_int label ++ " <NA> <NA>" ++ LF)%string.
Proof.
  unfold format.
  let v := eval vm_compute in (parse None rttm_template) in
  change (parse None rttm_template) with v.
  cbn [render render_field option_map append].
  reflexivity.
Qed.

Lemma rttm_loop (rec_id : string) (entries : list entry) :
  forall lines,
    fold_left (rttm_step rec_id) entries (Some lines)
    = Some (lines ++ map (rttm_line rec_id) entries).
Proof.
  induction entries as [|en entries IH]; intros lines; cbn [fold_left map].
  - now rewrite app_nil_r.
  - unfold rttm_step at 2. rewrite format_rttm_template.
    rewrite IH, <- app_assoc. reflexivity.
Qed.

Lemma scaled_nonneg (p : nat) (m : positive) (ex : Z) : (0 <= scaled p m ex)%Z.
Proof.
  unfold scaled. destruct ex as [|k|k].
  - lia.
  - pose proof (Z.pow_nonneg 2 (Zpos k)). pose proof (Z.pow_nonneg 10 (Z.of_nat p)).
    nia.
  - unfold round_half_even.
    assert (Hden : (0 < 2 ^ Zpos k)%Z) by (apply Z.pow_pos_nonneg; lia).
    pose proof (Z.pow_nonneg 10 (Z.of_nat p) ltac:(lia)) as Hten.
    assert (Hq : (0 <= Zpos m * 10 ^ Z.of_nat p / 2 ^ Zpos k)%Z)
      by (apply Z.div_pos; [nia|assumption]).
    destruct (_ ?= _)%Z; [destruct (Z.even _)| |]; lia.
Qed.

(** A finite number formatted with [.3f] is a sign, the digits of a
    natural number, a point and exactly three decimal digits. *)
Lemma format_fixed_three_decimals (x : float) :
  is_finite x = true ->
  exists (neg : bool) (whole k1 k2 k3 : Z),
    (0 <= whole)%Z
    /\ (0 <= k1 <= 9)%Z /\ (0 <= k2 <= 9)%Z /\ (0 <= k3 <= 9)%Z
    /\ format_fixed 3 x
       = (sign_str neg ++ str_int whole ++ "."
            ++ String (digit k1) (String (digit k2) (String (digit k3) EmptyString)))%string.
Proof.
  intros H. apply F64.is_finite_spec in H. unfold format_fixed.
  assert (Hd : forall n : Z, (0 <= n mod 10 <= 9)%Z)
    by (intros n; pose proof (Z.mod_pos_bound n 10); lia).
  assert (Hw : forall n : Z, (0 <= n)%Z -> (0 <= n / 10 ^ Z.of_nat 3)%Z)
    by (intros n Hn; apply Z.div_pos; [assumption|reflexivity]).
  destruct (Prim2SF x) as [sx|sx| |sx m ex]; cbn in H; try contradiction;
    unfold point_digits; cbn [zero_padded append].
  - exists sx, (0 / 10 ^ Z.of_nat 3)%Z. do 3 eexists.
    repeat split; try apply Hd. apply Hw. lia.
  - exists sx, (scaled 3 m ex / 10 ^ Z.of_nat 3)%Z. do 3 eexists.
    repeat split; try apply Hd. apply Hw, scaled_nonneg.
Qed.

End Serializer.

(** C1: every interval is rendered as exactly one line
    [SPEAKER <rec_id> 0 <start:.3f> <duration:.3f> <NA> <NA> <label> <NA> <NA>]
    followed by a newline, with [duration = end - start], the fields one
    space apart; a finite start or duration is printed with exactly three
    decimals; the interval [{s:1.0, e:2.5, id:3}] of recording [rec1]
    gives the line of the specification. *)
Theorem rttm_lines_from_entries_format :
  (forall (entries : list entry) (rec_id : string),
      rttm_lines_from_entries entries rec_id
      = Some (map (fun en =>
                     "SPEAKER " ++ rec_id ++ " 0 "
                       ++ PyFormat.format_fixed 3 (s en) ++ " "
                       ++ PyFormat.format_fixed 3 (e en - s en)%float
                       ++ " <NA> <NA> " ++ PyFormat.str_int (id en)
                       ++ " <NA> <NA>" ++ LF)%string entries))
  /\ (forall x : float,
         is_finite x = true ->
         exists (neg : bool) (whole k1 k2 k3 : Z),
           (0 <= whole)%Z
           /\ (0 <= k1 <= 9)%Z /\ (0 <= k2 <= 9)%Z /\ (0 <= k3 <= 9)%Z
           /\ PyFormat.format_fixed 3 x
              = (PyFormat.sign_str neg ++ PyFormat.str_int whole ++ "."
                   ++ String (PyFormat.digit k1)
                        (String (PyFormat.digit k2)
                           (String (PyFormat.digit k3) EmptyString)))%string)
  /\ rttm_lines_from_entries [{| s := 1.0; e := 2.5; id := 3 |}] "rec1"
     = Some [("SPEAKER rec1 0 1.000 1.500 <NA> <NA> 3 <NA> <NA>" ++ LF)%string].
Proof.
  split; [|split].
  - intros entries rec_id. unfold rttm_lines_from_entries.
    rewrite rttm_loop. reflexivity.
  - exact format_fixed_three_decimals.
  - vm_compute. reflexivity.
Qed.

Lemma rttm_lines_from_entries_format_witness :
  exists (neg : bool) (whole k1 k2 k3 : Z),
    (0 <= whole)%Z
    /\ (0 <= k1 <= 9)%Z /\ (0 <= k2 <= 9)%Z /\ (0 <= k3 <= 9)%Z
    /\ PyFormat.format_fixed 3 1.5
       = (PyFormat.sign_str neg ++ PyFormat.str_int whole ++ "."
            ++ String (PyFormat.digit k1)
                 (String (PyFormat.digit k2)
                    (String (PyFormat.digit k3) EmptyString)))%string.
Proof.
  apply (proj1 (proj2 rttm_lines_from_entries_format) 1.5%float).
  reflexivity.
Defined.

(** ** Segment merger *)

Lemma unsnoc_snoc {A} (l : list A) (x : A) : unsnoc (l ++ [x]) = Some (l, x).
Proof.
  induction l as [|y l IH]; cbn; [reflexivity|]. now rewrite IH.
Qed.

Lemma unsnoc_Some {A} (l init : list A) (x : A) :
  unsnoc l = Some (init, x) -> l = init ++ [x].
Proof.
  revert init; induction l as [|y l IH]; intros init H; cbn in H; [discriminate|].
  destruct (unsnoc l) as [[i z]|] eqn:E.
  - injection H as <- <-. cbn. f_equal. now apply IH.
  - injection H as <- <-. destruct l; [reflexivity|].
    cbn in E. destruct (unsnoc l) as [[? ?]|]; discriminate.
Qed.

Lemma unsnoc_None {A} (l : list A) : unsnoc l = None -> l = [].
Proof.
  destruct l as [|y l]; [reflexivity|]. cbn.
  destruct (unsnoc l) as [[? ?]|]; discriminate.
Qed.

Lemma combine_app_cons {A B} (l l1 : list A) (l' l1' : list B) (x : A) (y : B) :
  length l = length l' ->
  combine (l ++ x :: l1) (l' ++ y :: l1') = combine l l' ++ (x, y) :: combine l1 l1'.
Proof.
  revert l'; induction l as [|a l IH]; intros [|b l'] H; cbn in *;
    try discriminate; [reflexivity|].
  f_equal. apply IH. now injection H.
Qed.

(** The loop reads the segments in order: after a prefix and one more
    segment its state is one turn from the state after the prefix, and the
    remaining segments are read from there. *)
Lemma assign_segments_app labels events plabel ev labels' events' :
  length labels = length events ->
  assign_segments (labels ++ plabel :: labels') (events ++ ev :: events')
  = fold_left assign_step (combine labels' events')
      (assign_step (assign_segments labels events) (plabel, ev)).
Proof.
  intros H. unfold assign_segments.
  now rewrite combine_app_cons, fold_left_app.
Qed.

(** C3: a time gap closes the open interval unchanged and opens a new one
    with the new segment's start, end and label, whatever the two labels
    (the remaining segments are read from that state); segments
    [(0,1),(2,3)] with labels [A,A] give two intervals. *)
Theorem assign_segments_gap :
  (forall labels events init lst plabel start end_ labels' events',
      length labels = length events ->
      assign_segments labels events = init ++ [lst] ->
      (e lst <? start)%float = true ->
      assign_segments (labels ++ plabel :: labels')
        (events ++ (start, end_) :: events')
      = fold_left assign_step (combine labels' events')
          (init ++ [lst; {| s := start; e := end_; id := plabel |}]))
  /\ (forall A : Z,
         assign_segments [A; A] [(0, 1); (2, 3)]%float
         = [{| s := 0; e := 1; id := A |}; {| s := 2; e := 3; id := A |}]).
Proof.
  split.
  - intros labels events init lst plabel start end_ labels' events'
      Hlen Hopen Hgap.
    rewrite assign_segments_app, Hopen by assumption. f_equal.
    unfold assign_step. rewrite unsnoc_snoc. cbn [fst snd].
    rewrite Hgap, <- app_assoc. reflexivity.
  - intros A. reflexivity.
Qed.

Lemma assign_segments_gap_witness :
  assign_segments ([0%Z] ++ 0%Z :: []) ([(0, 1)%float] ++ (2, 3)%float :: [])
  = fold_left assign_step (combine [] [])
      ([] ++ [{| s := 0; e := 1; id := 0 |}; {| s := 2; e := 3; id := 0 |}]).
Proof.
  apply (proj1 assign_segments_gap [0%Z] [(0, 1)%float] []
           {| s := 0; e := 1; id := 0 |} 0%Z 2%float 3%float [] []);
    reflexivity.
Defined.

(** C2, as the code has it: a contiguous or overlapping segment with a
    different label closes the open interval at the midpoint of its end and
    the new start, and opens the next interval there (the remaining
    segments are read from that state).  For segments [(0,1),(1,2),(2,3)]
    with labels [A,A,B] the open interval has already been extended to 2
    when B arrives, so the boundary is (2+2)/2 = 2. *)
Theorem assign_segments_fuzzy_boundary :
  (forall labels events init lst plabel start end_ labels' events',
      length labels = length events ->
      assign_segments labels events = init ++ [lst] ->
      (e lst <? start)%float = false ->
      id lst <> plabel ->
      assign_segments (labels ++ plabel :: labels')
        (events ++ (start, end_) :: events')
      = fold_left assign_step (combine labels' events')
          (init ++ [{| s := s lst; e := (e lst + start) / 2; id := id lst |};
                    {| s := (e lst + start) / 2; e := end_; id := plabel |}]))
  /\ (forall A B : Z,
         A <> B ->
         assign_segments [A; A; B] [(0, 1); (1, 2); (2, 3)]%float
         = [{| s := 0; e := 2; id := A |}; {| s := 2; e := 3; id := B |}]).
Proof.
  split.
  - intros labels events init lst plabel start end_ labels' events'
      Hlen Hopen Hgap Hid.
    rewrite assign_segments_app, Hopen by assumption. f_equal.
    unfold assign_step. rewrite unsnoc_snoc. cbn [fst snd].
    rewrite Hgap. apply Z.eqb_neq in Hid. rewrite Hid. reflexivity.
  - intros A B HAB. apply Z.eqb_neq in HAB.
    unfold assign_segments. cbn [combine fold_left].
    unfold assign_step; cbn. rewrite Z.eqb_refl; cbn. now rewrite HAB.
Qed.

Lemma assign_segments_fuzzy_boundary_witness :
  assign_segments ([0; 0] ++ 1 :: [])%Z ([(0, 1); (1, 2)] ++ (2, 3) :: [])%float
  = fold_left assign_step (combine [] [])
      ([] ++ [{| s := 0; e := (2 + 2) / 2; id := 0 |};
              {| s := (2 + 2) / 2; e := 3; id := 1 |}]).
Proof.
  apply (proj1 assign_segments_fuzzy_boundary [0; 0]%Z [(0, 1); (1, 2)]%float []
           {| s := 0; e := 2; id := 0 |} 1%Z 2%float 3%float [] []);
    [reflexivity | reflexivity | reflexivity | discriminate].
Defined.

(** C2, the example as the specification writes it: the boundary it gives,
    1.5, is not the one the merger computes. *)
Lemma assign_segments_midpoint_example_differs :
  assign_segments [0; 0; 1]%Z [(0, 1); (1, 2); (2, 3)]%float
  = [{| s := 0; e := 2; id := 0 |}; {| s := 2; e := 3; id := 1 |}]
  /\ assign_segments [0; 0; 1]%Z [(0, 1); (1, 2); (2, 3)]%float
     <> [{| s := 0; e := 1.5; id := 0 |}; {| s := 1.5; e := 3; id := 1 |}].
Proof.
  split; [reflexivity|].
  intros H.
  apply (f_equal (fun l => match l with
                           | en :: _ => (e en =? 2)%float
                           | [] => false
                           end)) in H.
  vm_compute in H. discriminate.
Qed.

(** *** The outer endpoints *)

Lemma hd_error_app {A} (l l' : list A) :
  l <> [] -> hd_error (l ++ l') = hd_error l.
Proof. destruct l; [contradiction|reflexivity]. Qed.

Lemma last_error_snoc {A} (l : list A) (x : A) : last_error (l ++ [x]) = Some x.
Proof. unfold last_error. now rewrite unsnoc_snoc. Qed.

Lemma last_cons_default {A} (l : list A) :
  forall x y, last (y :: l) x = last l y.
Proof.
  induction l as [|z l IH]; intros x y; [reflexivity|].
  change (last (y :: z :: l) x) with (last (z :: l) x).
  now rewrite !IH.
Qed.

Lemma last_error_cons {A} (x : A) (l : list A) :
  last_error (x :: l) = Some (last l x).
Proof.
  revert x; induction l as [|y l IH]; intros x; [reflexivity|].
  specialize (IH y). unfold last_error in *.
  change (unsnoc (x :: y :: l)) with
    (match unsnoc (y :: l) with
     | None => Some ([], x)
     | Some (init, z) => Some (x :: init, z)
     end).
  destruct (unsnoc (y :: l)) as [[i z]|]; [|discriminate].
  cbn [option_map snd] in *. now rewrite last_cons_default.
Qed.

Lemma snoc_not_nil {A} (l : list A) (x : A) : l ++ [x] <> [].
Proof. destruct l; discriminate. Qed.

Lemma snoc2 {A} (l : list A) (x y : A) : l ++ [x; y] = (l ++ [x]) ++ [y].
Proof. now rewrite <- app_assoc. Qed.

Lemma hd_error_snoc_s init lst v :
  option_map s (hd_error (init ++ [set_e lst v]))
  = option_map s (hd_error (init ++ [lst])).
Proof. destruct init; reflexivity. Qed.

(** One turn of the loop keeps the start of the first entry and makes the
    end of the last entry the end of the segment just read. *)
Lemma assign_step_endpoints entries pe a :
  entries <> [] ->
  option_map s (hd_error entries) = Some a ->
  assign_step entries pe <> []
  /\ option_map s (hd_error (assign_step entries pe)) = Some a
  /\ option_map e (last_error (assign_step entries pe)) = Some (snd (snd pe)).
Proof.
  intros Hne Hhd. destruct pe as [plabel [start end_]]. unfold assign_step.
  cbn [fst snd].
  destruct (unsnoc entries) as [[init lst]|] eqn:E.
  - apply unsnoc_Some in E. subst entries.
    destruct (e lst <? start)%float; [|destruct (id lst =? plabel)%Z].
    + rewrite hd_error_app, last_error_snoc by assumption.
      repeat split; auto using snoc_not_nil.
    + rewrite hd_error_snoc_s, last_error_snoc.
      repeat split; auto using snoc_not_nil.
    + rewrite snoc2, hd_error_app, hd_error_snoc_s, last_error_snoc
        by apply snoc_not_nil.
      repeat split; auto using snoc_not_nil.
  - apply unsnoc_None in E. contradiction.
Qed.

Lemma assign_loop_endpoints pes :
  forall pe0,
    let out := fold_left assign_step pes (assign_step [] pe0) in
    out <> []
    /\ option_map s (hd_error out) = Some (fst (snd pe0))
    /\ option_map e (last_error out) = Some (snd (snd (last pes pe0))).
Proof.
  induction pes as [|pe pes IH] using rev_ind; intros pe0; cbn zeta.
  - destruct pe0 as [plabel [start end_]]. cbn. repeat split. discriminate.
  - rewrite fold_left_app, last_last. cbn [fold_left].
    destruct (IH pe0) as (Hne & Hhd & _).
    now apply assign_step_endpoints.
Qed.

Lemma last_combine {A B} (l : list A) (l' : list B) (x : A) (y : B) :
  length l = length l' -> snd (last (combine l l') (x, y)) = last l' y.
Proof.
  revert l' x y; induction l as [|a l IH]; intros [|b l'] x y H;
    try discriminate; [reflexivity|].
  injection H as H. specialize (IH l' a b H).
  cbn [combine]. now rewrite !last_cons_default.
Qed.

(** C10: on a non-empty input of equal lengths, the first interval starts
    at the first segment's start and the last interval ends at the last
    segment's end. *)
Theorem assign_segments_outer_endpoints (labels : list Z) (events : list event) :
  labels <> [] ->
  length labels = length events ->
  exists first_ev last_ev first_en last_en,
    hd_error events = Some first_ev
    /\ last_error events = Some last_ev
    /\ hd_error (assign_segments labels events) = Some first_en
    /\ last_error (assign_segments labels events) = Some last_en
    /\ s first_en = fst first_ev
    /\ e last_en = snd last_ev.
Proof.
  intros Hne Hlen.
  destruct labels as [|l0 labels]; [contradiction|].
  destruct events as [|ev0 events]; [discriminate|].
  injection Hlen as Hlen.
  unfold assign_segments. cbn [combine fold_left].
  destruct (assign_loop_endpoints (combine labels events) (l0, ev0))
    as (Hout & Hhd & Hlast).
  cbn zeta in *. cbn [fst snd] in Hhd. rewrite last_combine in Hlast by assumption.
  destruct (hd_error _) as [first_en|] eqn:E1; [|discriminate].
  destruct (last_error (fold_left _ _ _)) as [last_en|] eqn:E2; [|discriminate].
  exists ev0, (last events ev0), first_en, last_en.
  rewrite last_error_cons. cbn in Hhd, Hlast.
  repeat split; congruence.
Qed.

Lemma assign_segments_outer_endpoints_witness :
  exists first_ev last_ev first_en last_en,
    hd_error [(0, 1); (1, 2); (2, 3)]%float = Some first_ev
    /\ last_error [(0, 1); (1, 2); (2, 3)]%float = Some last_ev
    /\ hd_error (assign_segments [0; 0; 1]%Z [(0, 1); (1, 2); (2, 3)]%float)
       = Some first_en
    /\ last_error (assign_segments [0; 0; 1]%Z [(0, 1); (1, 2); (2, 3)]%float)
       = Some last_en
    /\ s first_en = fst first_ev
    /\ e last_en = snd last_ev.
Proof.
  apply (assign_segments_outer_endpoints [0; 0; 1]%Z
           [(0, 1); (1, 2); (2, 3)]%float);
    [discriminate | reflexivity].
Defined.

(** *** Consecutive intervals *)

Lemma nth_error_snoc_last {A} (l : list A) (x : A) :
  nth_error (l ++ [x]) (length l) = Some x.
Proof. rewrite nth_error_app2, Nat.sub_diag by lia. reflexivity. Qed.

Lemma adjacent_single {A} (R : A -> A -> Prop) (x : A) : adjacent R [x].
Proof. intros i a b _ H. destruct i; discriminate. Qed.

Lemma adjacent_snoc {A} (R : A -> A -> Prop) (init : list A) (x y : A) :
  adjacent R (init ++ [x]) -> R x y -> adjacent R (init ++ [x; y]).
Proof.
  intros H Hxy i a b Ha Hb. rewrite snoc2 in Ha, Hb.
  assert (Hlen : length (init ++ [x]) = S (length init))
    by (rewrite length_app; cbn; lia).
  destruct (Nat.lt_ge_cases (S i) (length (init ++ [x]))) as [Hi|Hi].
  - rewrite nth_error_app1 in Ha, Hb by lia. eauto.
  - destruct (Nat.eq_dec (S i) (length (init ++ [x]))) as [Heq|Hneq].
    + rewrite nth_error_app1 in Ha by lia.
      rewrite Heq, nth_error_snoc_last in Hb.
      assert (i = length init) by lia. subst i.
      rewrite nth_error_snoc_last in Ha. congruence.
    + assert (Hnone : nth_error ((init ++ [x]) ++ [y]) (S i) = None).
      { apply nth_error_None. rewrite length_app. cbn. lia. }
      congruence.
Qed.

Lemma adjacent_change_last {A} (R : A -> A -> Prop) (init : list A) (x x' : A) :
  adjacent R (init ++ [x]) -> (forall a, R a x -> R a x') ->
  adjacent R (init ++ [x']).
Proof.
  intros H Hx i a b Ha Hb.
  destruct (Nat.lt_ge_cases (S i) (length init)) as [Hi|Hi].
  - rewrite nth_error_app1 in Ha, Hb by lia.
    apply (H i); rewrite nth_error_app1 by lia; assumption.
  - destruct (Nat.eq_dec (S i) (length init)) as [Heq|Hneq].
    + rewrite nth_error_app1 in Ha by lia.
      rewrite Heq, nth_error_snoc_last in Hb. injection Hb as <-.
      apply Hx, (H i).
      * rewrite nth_error_app1 by lia. assumption.
      * rewrite Heq. apply nth_error_snoc_last.
    + assert (Hnone : nth_error (init ++ [x']) (S i) = None).
      { apply nth_error_None. rewrite length_app. cbn. lia. }
      congruence.
Qed.

Lemma assign_step_inv entries plabel ev :
  finite_event ev = true ->
  merger_inv entries -> merger_inv (assign_step entries (plabel, ev)).
Proof.
  unfold finite_event. rewrite andb_true_iff. intros [Hs He] [Hadj Hlast].
  apply F64.is_finite_not_nan in He.
  destruct ev as [start end_]. unfold assign_step. cbn [fst snd] in *.
  unfold last_error in Hlast.
  destruct (unsnoc entries) as [[init lst]|] eqn:E; cbn [option_map snd] in Hlast.
  - apply unsnoc_Some in E. subst entries.
    destruct (e lst <? start)%float eqn:Hgap;
      [|destruct (id lst =? plabel)%Z eqn:Hid].
    + split.
      * rewrite <- app_assoc. apply adjacent_snoc; [assumption|].
        split; [now apply F64.ltb_leb | now right].
      * rewrite last_error_snoc. exact He.
    + split.
      * apply adjacent_change_last with (x := lst); [assumption|].
        intros a Ha. exact Ha.
      * rewrite last_error_snoc. exact He.
    + pose proof (F64.midpoint_not_nan _ _ Hlast Hs) as Hmid.
      split.
      * apply adjacent_snoc.
        -- apply adjacent_change_last with (x := lst); [assumption|].
           intros a Ha. exact Ha.
        -- split; cbn [e s id set_e].
           ++ now apply F64.leb_refl.
           ++ left. now apply Z.eqb_neq.
      * rewrite snoc2, last_error_snoc. exact He.
  - apply unsnoc_None in E. subst entries. split.
    + apply adjacent_single.
    + exact He.
Qed.

Lemma assign_loop_inv pes :
  forall entries,
    Forall (fun pe => finite_event (snd pe) = true) pes ->
    merger_inv entries -> merger_inv (fold_left assign_step pes entries).
Proof.
  induction pes as [|[plabel ev] pes IH]; intros entries Hfin Hinv;
    [exact Hinv|].
  cbn [fold_left]. inversion Hfin; subst.
  apply IH; [assumption|]. now apply assign_step_inv.
Qed.

Lemma Forall_combine_snd {A B} (P : B -> Prop) (l : list A) (l' : list B) :
  Forall P l' -> Forall (fun p => P (snd p)) (combine l l').
Proof.
  intros H; revert l; induction H as [|b l' Hb H IH]; intros [|a l]; cbn;
    constructor; auto.
Qed.

(** Neighbouring intervals of the merger's output, for finite segment
    times, whatever their order. *)
Lemma assign_segments_adjacent labels events :
  forallb finite_event events = true ->
  adjacent turn_order (assign_segments labels events).
Proof.
  intros Hfin. apply (assign_loop_inv (combine labels events) []).
  - apply (Forall_combine_snd (fun ev => finite_event ev = true)).
    apply Forall_forall. now apply forallb_forall.
  - split; [|exact I]. intros i a b H. destruct i; discriminate.
Qed.

(** C4, as the code has it: for finite, non-decreasing segment times and
    equal lengths, every interval ends no later than the next one starts,
    and two consecutive intervals have different ids unless a strict time
    gap separates them (a gap always splits, also between equal labels). *)
Theorem assign_segments_turns_ordered (labels : list Z) (events : list event) :
  length labels = length events ->
  forallb finite_event events = true ->
  times_nondecreasing events = true ->
  forall i a b,
    nth_error (assign_segments labels events) i = Some a ->
    nth_error (assign_segments labels events) (S i) = Some b ->
    (e a <=? s b)%float = true
    /\ (id a <> id b \/ (e a <? s b)%float = true).
Proof.
  intros _ Hfin _ i a b Ha Hb.
  exact (assign_segments_adjacent labels events Hfin i a b Ha Hb).
Qed.

Lemma assign_segments_turns_ordered_witness :
  (2 <=? 2)%float = true /\ (0%Z <> 1%Z \/ (2 <? 2)%float = true).
Proof.
  exact (assign_segments_turns_ordered [0; 0; 1]%Z
           [(0, 1); (1, 2); (2, 3)]%float eq_refl eq_refl eq_refl 0%nat
           {| s := 0; e := 2; id := 0 |} {| s := 2; e := 3; id := 1 |}
           eq_refl eq_refl).
Defined.

(** C4 as stated fails twice.  Across a gap two consecutive intervals keep
    the same id: segments [(0,1),(2,3)] with labels [0,0].  And with
    infinite times the midpoint is NaN, so the order is lost: segments
    [(-inf,+inf),(-inf,+inf)] with labels [0,1]. *)
Lemma assign_segments_consecutive_ids_may_agree :
  ~ (forall (labels : list Z) (events : list event),
        length labels = length events ->
        times_nondecreasing events = true ->
        forall i a b,
          nth_error (assign_segments labels events) i = Some a ->
          nth_error (assign_segments labels events) (S i) = Some b ->
          id a <> id b /\ (e a <=? s b)%float = true)
  /\ (exists a b,
         times_nondecreasing
           [(neg_infinity, infinity); (neg_infinity, infinity)] = true
         /\ assign_segments [0; 1]%Z
              [(neg_infinity, infinity); (neg_infinity, infinity)] = [a; b]
         /\ id a <> id b
         /\ (e a <=? s b)%float = false).
Proof.
  split.
  - intros H.
    destruct (H [0; 0]%Z [(0, 1); (2, 3)]%float eq_refl eq_refl 0%nat
                {| s := 0; e := 1; id := 0 |} {| s := 2; e := 3; id := 0 |}
                eq_refl eq_refl) as [Hid _].
    now apply Hid.
  - eexists _, _. repeat split. discriminate.
Qed.

(** *** The open interval and the number of intervals *)

(** The open interval carries the end and the label of the segment read
    last, so the next turn depends on the two segments only. *)
Lemma assign_step_open (init : list entry) (lst : entry) (p q : Z * event) :
  e lst = snd (snd p) -> id lst = fst p ->
  exists init' lst',
    assign_step (init ++ [lst]) q = init' ++ [lst']
    /\ e lst' = snd (snd q) /\ id lst' = fst q
    /\ length (init' ++ [lst'])
       = (length (init ++ [lst]) + if boundary p q then 1 else 0)%nat.
Proof.
  intros He Hid. destruct q as [plabel [start end_]].
  destruct p as [plabel0 [start0 end0]]. cbn [fst snd] in He, Hid.
  unfold assign_step, boundary. rewrite unsnoc_snoc. cbn [fst snd].
  rewrite <- He, <- Hid.
  destruct (e lst <? start)%float; cbn [orb].
  - exists (init ++ [lst]), {| s := start; e := end_; id := plabel |}.
    repeat split. rewrite !length_app. cbn. lia.
  - destruct (id lst =? plabel)%Z eqn:E; cbn [negb].
    + apply Z.eqb_eq in E. exists init, (set_e lst end_).
      repeat split; auto. rewrite !length_app. cbn. lia.
    + exists (init ++ [set_e lst ((e lst + start) / 2)]),
        {| s := (e lst + start) / 2; e := end_; id := plabel |}.
      rewrite <- app_assoc. repeat split. rewrite !length_app. cbn. lia.
Qed.

Lemma assign_loop_length (pes : list (Z * event)) :
  forall (init : list entry) (lst : entry) (p : Z * event),
    e lst = snd (snd p) -> id lst = fst p ->
    length (fold_left assign_step pes (init ++ [lst]))
    = (length (init ++ [lst]) + boundaries (p :: pes))%nat.
Proof.
  induction pes as [|q pes IH]; intros init lst p He Hid.
  - cbn. lia.
  - cbn [fold_left].
    destruct (assign_step_open init lst p q He Hid)
      as (init' & lst' & -> & He' & Hid' & Hlen).
    rewrite (IH init' lst' q He' Hid'), Hlen.
    change (boundaries (p :: q :: pes))
      with ((if boundary p q then 1 else 0) + boundaries (q :: pes))%nat.
    now rewrite Nat.add_assoc.
Qed.

Lemma boundaries_bound pes : (boundaries pes <= length pes - 1)%nat.
Proof.
  induction pes as [|p [|q pes] IH]; cbn [boundaries length] in *; try lia.
  destruct (boundary p q); lia.
Qed.

(** X1: the merger returns one interval for the first segment and one more
    for every boundary (a gap or a change of label) between neighbouring
    segments; it never returns more intervals than it read segments, and
    none on an empty input. *)
Theorem assign_segments_count (labels : list Z) (events : list event) :
  length (assign_segments labels events)
  = match combine labels events with
    | [] => 0%nat
    | pes => S (boundaries pes)
    end
  /\ (length (assign_segments labels events)
      <= Nat.min (length labels) (length events))%nat.
Proof.
  assert (H : length (assign_segments labels events)
              = match combine labels events with
                | [] => 0%nat
                | pes => S (boundaries pes)
                end).
  { unfold assign_segments. destruct (combine labels events) as [|p pes];
      [reflexivity|].
    cbn [fold_left].
    replace (assign_step [] p) with ([] ++ [entry_of p])
      by now destruct p as [plabel [start end_]].
    now rewrite (assign_loop_length pes [] (entry_of p) p). }
  split; [exact H|]. rewrite H, <- length_combine.
  pose proof (boundaries_bound (combine labels events)).
  destruct (combine labels events); cbn [length] in *; lia.
Qed.

(** *** Gaps everywhere, gaps nowhere *)

Lemma all_gaps_combine (labels : list Z) :
  forall events,
    all_gaps events = true -> all_gaps (map snd (combine labels events)) = true.
Proof.
  induction labels as [|l labels IH]; intros events H; [reflexivity|].
  destruct events as [|p events]; [reflexivity|].
  destruct labels as [|l' labels]; [reflexivity|].
  destruct events as [|q events]; [reflexivity|].
  cbn [all_gaps] in H. apply andb_true_iff in H as [Hpq H].
  specialize (IH (q :: events) H). cbn [combine map snd all_gaps] in *.
  now rewrite Hpq, IH.
Qed.

Lemma assign_loop_all_gaps (pes : list (Z * event)) :
  forall (init : list entry) (lst : entry) (p : event),
    e lst = snd p ->
    all_gaps (p :: map snd pes) = true ->
    fold_left assign_step pes (init ++ [lst])
    = init ++ lst :: map entry_of pes.
Proof.
  induction pes as [|[plabel [start end_]] pes IH]; intros init lst p He H;
    [reflexivity|].
  cbn [map snd all_gaps] in H. apply andb_true_iff in H as [Hgap H].
  cbn [fold_left map]. unfold assign_step at 2. rewrite unsnoc_snoc.
  cbn [fst snd] in *. rewrite He, Hgap.
  replace ((init ++ [lst]) ++ [{| s := start; e := end_; id := plabel |}])
    with ((init ++ [lst]) ++ [entry_of (plabel, (start, end_))])
    by reflexivity.
  rewrite (IH (init ++ [lst]) _ (start, end_)) by (assumption || reflexivity).
  now rewrite <- app_assoc.
Qed.

(** X2: when every segment ends strictly before the next one starts, the
    merger returns one interval per segment read, with the segment's own
    start, end and label: nothing is merged and no boundary is moved,
    whatever the labels. *)
Theorem assign_segments_all_gaps (labels : list Z) (events : list event) :
  all_gaps events = true ->
  assign_segments labels events = map entry_of (combine labels events).
Proof.
  intros H. apply (all_gaps_combine labels) in H. unfold assign_segments.
  destruct (combine labels events) as [|[plabel [start end_]] pes];
    [reflexivity|].
  cbn [fold_left map].
  change (assign_step [] (plabel, (start, end_)))
    with ([] ++ [entry_of (plabel, (start, end_))]).
  now rewrite (assign_loop_all_gaps pes [] _ (start, end_)).
Qed.

Lemma assign_segments_all_gaps_witness :
  assign_segments [0; 0; 1]%Z [(0, 1); (2, 3); (4, 5)]%float
  = map entry_of (combine [0; 0; 1]%Z [(0, 1); (2, 3); (4, 5)]%float).
Proof.
  apply (assign_segments_all_gaps [0; 0; 1]%Z [(0, 1); (2, 3); (4, 5)]%float).
  reflexivity.
Defined.

Lemma assign_loop_one_turn (A : Z) (pes : list (Z * event)) :
  forall (init : list entry) (lst : entry) (p : Z * event),
    e lst = snd (snd p) -> id lst = A ->
    Forall (fun pe => fst pe = A) pes ->
    no_gap (map snd (p :: pes)) = true ->
    fold_left assign_step pes (init ++ [lst])
    = init ++ [set_e lst (snd (snd (last pes p)))].
Proof.
  induction pes as [|[plabel [start end_]] pes IH]; intros init lst p He Hid HA H.
  - cbn. rewrite <- He. now destruct lst.
  - apply Forall_cons_iff in HA as [Hl HA]. cbn [fst] in Hl. subst plabel.
    cbn [map snd no_gap] in H. apply andb_true_iff in H as [Hgap H].
    apply negb_true_iff in Hgap.
    cbn [fold_left]. unfold assign_step at 2. rewrite unsnoc_snoc.
    cbn [fst snd] in *. rewrite He, Hgap, Hid, Z.eqb_refl.
    rewrite (IH init (set_e lst end_) (A, (start, end_)))
      by (assumption || reflexivity).
    rewrite last_cons_default. reflexivity.
Qed.

(** X3: when all segments carry the same label and none ends strictly
    before the next one starts, the merger returns a single interval, from
    the start of the first segment to the end of the last. *)
Theorem assign_segments_one_turn (A : Z) (labels : list Z)
  (ev0 : event) (events : list event) :
  length labels = S (length events) ->
  Forall (fun l => l = A) labels ->
  no_gap (ev0 :: events) = true ->
  assign_segments labels (ev0 :: events)
  = [{| s := fst ev0; e := snd (last events ev0); id := A |}].
Proof.
  intros Hlen HA Hgap. destruct labels as [|l labels]; [discriminate|].
  injection Hlen as Hlen. apply Forall_cons_iff in HA as [-> HA].
  unfold assign_segments. cbn [combine fold_left].
  destruct ev0 as [start end_].
  change (assign_step [] (A, (start, end_)))
    with ([] ++ [{| s := start; e := end_; id := A |}]).
  rewrite (assign_loop_one_turn A (combine labels events) [] _ (A, (start, end_))).
  - cbn [app set_e s id fst]. now rewrite last_combine.
  - reflexivity.
  - reflexivity.
  - clear -HA. revert events; induction HA as [|l labels Hl HA IH];
      intros [|ev events]; cbn; constructor; auto.
  - cbn [map snd]. clear -Hlen Hgap.
    replace (map snd (combine labels events)) with events; [exact Hgap|].
    clear Hgap. revert events Hlen.
    induction labels as [|l labels IH]; intros [|ev events] H;
      try discriminate; [reflexivity|].
    cbn. f_equal. apply IH. now injection H.
Qed.

Lemma assign_segments_one_turn_witness :
  assign_segments [7; 7; 7]%Z ((0, 1) :: [(1, 2); (2, 3)])%float
  = [{| s := fst (0, 1)%float; e := snd (last [(1, 2); (2, 3)] (0, 1))%float;
        id := 7 |}].
Proof.
  apply (assign_segments_one_turn 7 [7; 7; 7]%Z (0, 1)%float
           [(1, 2); (2, 3)]%float).
  - reflexivity.
  - repeat constructor.
  - reflexivity.
Defined.

(** *** Lists of unequal lengths, and where the labels come from *)

Lemma combine_surplus_l {A B} (l extra : list A) (l' : list B) :
  length l = length l' -> combine (l ++ extra) l' = combine l l'.
Proof.
  revert l'; induction l as [|a l IH]; intros [|b l'] H; cbn in *;
    try discriminate.
  - now destruct extra.
  - f_equal. apply IH. now injection H.
Qed.

Lemma combine_surplus_r {A B} (l : list A) (l' extra : list B) :
  length l = length l' -> combine l (l' ++ extra) = combine l l'.
Proof.
  revert l'; induction l as [|a l IH]; intros [|b l'] H; cbn in *;
    try discriminate; [reflexivity|].
  f_equal. apply IH. now injection H.
Qed.

Lemma assign_step_ids (labels : list Z) entries pe :
  In (fst pe) labels ->
  Forall (fun en => In (id en) labels) entries ->
  Forall (fun en => In (id en) labels) (assign_step entries pe).
Proof.
  intros Hpe H. destruct pe as [plabel [start end_]]. cbn [fst] in Hpe.
  assert (Hnew : forall x y, Forall (fun en => In (id en) labels)
                               [{| s := x; e := y; id := plabel |}])
    by (intros; repeat constructor; exact Hpe).
  unfold assign_step. destruct (unsnoc entries) as [[init lst]|] eqn:E.
  - apply unsnoc_Some in E. subst entries.
    apply Forall_app in H as [Hinit Hlst].
    apply Forall_cons_iff in Hlst as [Hlst _]. cbn [fst snd].
    destruct (e lst <? start)%float; [|destruct (id lst =? plabel)%Z].
    + apply Forall_app; split; [|apply Hnew].
      apply Forall_app; split; [assumption|]. now constructor.
    + apply Forall_app; split; [assumption|]. now constructor.
    + apply Forall_app; split; [assumption|].
      constructor; [exact Hlst|]. apply Hnew.
  - apply Forall_app; split; [assumption|]. apply Hnew.
Qed.

(** X4: the merger reads as many segments as the shorter of its two
    arguments has and ignores the rest without an error: labels or segments
    beyond the common length change nothing; and every interval it returns
    carries the label of one of the segments. *)
Theorem assign_segments_surplus (labels : list Z) (events : list event) :
  length labels = length events ->
  (forall extra, assign_segments (labels ++ extra) events
                 = assign_segments labels events)
  /\ (forall extra, assign_segments labels (events ++ extra)
                    = assign_segments labels events)
  /\ Forall (fun en => In (id en) labels) (assign_segments labels events).
Proof.
  intros H. unfold assign_segments. split; [|split].
  - intros extra. now rewrite combine_surplus_l.
  - intros extra. now rewrite combine_surplus_r.
  - assert (Hpes : Forall (fun pe => In (fst pe) labels) (combine labels events)).
    { apply Forall_forall. intros [l ev] Hin. now apply in_combine_l in Hin. }
    assert (G : forall pes entries,
               Forall (fun pe => In (fst pe) labels) pes ->
               Forall (fun en => In (id en) labels) entries ->
               Forall (fun en => In (id en) labels)
                 (fold_left assign_step pes entries)).
    { induction pes as [|pe pes IH]; intros entries Hp He; [exact He|].
      apply Forall_cons_iff in Hp as [Hpe Hp]. cbn [fold_left].
      apply IH; [assumption|]. now apply assign_step_ids. }
    apply G; [assumption|constructor].
Qed.

Lemma assign_segments_surplus_witness :
  (forall extra, assign_segments ([0; 1]%Z ++ extra) [(0, 1); (1, 2)]%float
                 = assign_segments [0; 1]%Z [(0, 1); (1, 2)]%float)
  /\ (forall extra, assign_segments [0; 1]%Z ([(0, 1); (1, 2)]%float ++ extra)
                    = assign_segments [0; 1]%Z [(0, 1); (1, 2)]%float)
  /\ Forall (fun en => In (id en) [0; 1]%Z)
       (assign_segments [0; 1]%Z [(0, 1); (1, 2)]%float).
Proof.
  apply (assign_segments_surplus [0; 1]%Z [(0, 1); (1, 2)]%float).
  reflexivity.
Defined.

(** ** Similarity enhancer *)

Section MatrixFacts.

Local Open Scope nat_scope.

Lemma length_map2 {A B C} (f : A -> B -> C) l l' :
  length (map2 f l l') = Nat.min (length l) (length l').
Proof. unfold map2. now rewrite length_map, length_combine. Qed.

Lemma nth_map2 {A B C} (f : A -> B -> C) l l' i d d1 d2 :
  i < length l -> i < length l' ->
  nth i (map2 f l l') d = f (nth i l d1) (nth i l' d2).
Proof.
  revert l' i; induction l as [|a l IH]; intros [|b l'] [|i] H1 H2;
    cbn in *; try lia; [reflexivity|].
  apply IH; lia.
Qed.

Lemma nth_map_in {A B} (f : A -> B) (l : list A) (i : nat) (d : B) (d' : A) :
  i < length l -> nth i (map f l) d = f (nth i l d').
Proof.
  intros H. rewrite (nth_indep _ d (f d')) by now rewrite length_map.
  apply map_nth.
Qed.

Lemma nth_map_seq {A} (f : nat -> A) (n i : nat) (d : A) :
  i < n -> nth i (map f (seq 0 n)) d = f i.
Proof.
  intros H. rewrite (nth_map_in f _ i d 0) by now rewrite length_seq.
  now rewrite seq_nth.
Qed.

Lemma map_nth_seq {A B} (g : A -> B) (l : list A) (d : A) :
  map g l = map (fun k => g (nth k l d)) (seq 0 (length l)).
Proof.
  induction l as [|a l IH]; [reflexivity|].
  cbn [length seq map nth]. f_equal.
  rewrite <- seq_shift, map_map. exact IH.
Qed.

Lemma fold_left_map {A B C} (f : A -> B -> A) (h : C -> B) (l : list C) (a : A) :
  fold_left f (map h l) a = fold_left (fun acc x => f acc (h x)) l a.
Proof. revert a; induction l as [|x l IH]; intros a; cbn; auto. Qed.

Lemma fold_left_ext {A B} (f g : A -> B -> A) (l : list B) (a : A) :
  (forall acc x, f acc x = g acc x) -> fold_left f l a = fold_left g l a.
Proof.
  intros H; revert a; induction l as [|x l IH]; intros a; cbn; [reflexivity|].
  now rewrite H, IH.
Qed.

Lemma fold_left_ext_in {A B} (f g : A -> B -> A) (l : list B) (a : A) :
  (forall acc x, In x l -> f acc x = g acc x) ->
  fold_left f l a = fold_left g l a.
Proof.
  revert a; induction l as [|x l IH]; intros a H; cbn; [reflexivity|].
  rewrite H by now left. apply IH. intros acc y Hy. apply H. now right.
Qed.

(** *** Shapes *)

Lemma square_spec n m :
  square n m = true <-> length m = n /\ Forall (fun r => length r = n) m.
Proof.
  unfold square. rewrite andb_true_iff, Nat.eqb_eq, forallb_forall, Forall_forall.
  split; intros [H1 H2]; split; auto; intros r Hr; apply Nat.eqb_eq; auto.
Qed.

Lemma square_row n m i :
  square n m = true -> i < n -> length (nth i m []) = n.
Proof.
  intros H Hi. apply square_spec in H as [Hl Hr].
  rewrite Forall_forall in Hr. apply Hr, nth_In. lia.
Qed.

Lemma square_nrows n m : square n m = true -> nrows m = n.
Proof. intros H. now apply square_spec in H. Qed.

Lemma square_ncols n m : square n m = true -> ncols m = n.
Proof.
  intros H. apply square_spec in H as [Hl Hr]. unfold ncols.
  destruct m as [|r m]; [exact Hl|].
  apply Forall_cons_iff in Hr as [Hr _]. exact Hr.
Qed.

Lemma length_column j m : length (column j m) = length m.
Proof. unfold column. apply length_map. Qed.

Lemma square_np_T n m : square n m = true -> square n (np_T m) = true.
Proof.
  intros H. pose proof (square_ncols n m H) as Hc.
  apply square_spec in H as [Hl Hr]. apply square_spec.
  unfold np_T, transpose.
  rewrite length_map, length_seq, Hc. split; [reflexivity|].
  apply Forall_forall. intros r Hin. apply in_map_iff in Hin as (j & <- & _).
  now rewrite length_column.
Qed.

Lemma entry_np_T n m i j :
  square n m = true -> i < n -> j < n ->
  entry_at (np_T m) i j = entry_at m j i.
Proof.
  intros H Hi Hj. pose proof (square_ncols n m H) as Hc.
  apply square_spec in H as [Hl Hr].
  unfold entry_at, np_T, transpose. rewrite Hc, nth_map_seq by assumption.
  unfold column. now rewrite (nth_map_in _ m j _ []) by lia.
Qed.

Lemma square_intro n m :
  length m = n -> (forall i, i < n -> length (nth i m []) = n) ->
  square n m = true.
Proof.
  intros Hl Hr. apply square_spec. split; [assumption|].
  apply Forall_forall. intros r Hin.
  destruct (In_nth _ _ [] Hin) as (i & Hi & <-). apply Hr. lia.
Qed.

(** *** Broadcasting leaves arrays of one shape as they are *)

Lemma stretch_same {A} (n : nat) (l : list A) : length l = n -> stretch n l = l.
Proof.
  intros H. unfold stretch. destruct l as [|x [|y l]]; try reflexivity.
  now subst n.
Qed.

Lemma broadcast_dim_same (n : nat) : broadcast_dim n n = Some n.
Proof. unfold broadcast_dim. now rewrite Nat.eqb_refl. Qed.

Lemma broadcast_to_square n m : square n m = true -> broadcast_to n n m = m.
Proof.
  intros H. apply square_spec in H as [Hl Hr]. unfold broadcast_to.
  rewrite (stretch_same n m Hl). rewrite <- (map_id m) at 2.
  apply map_ext_in. intros r Hin. apply stretch_same.
  rewrite Forall_forall in Hr. now apply Hr.
Qed.

Lemma np_maximum_square n a b :
  square n a = true -> square n b = true ->
  np_maximum a b = Ok (map2 (map2 fmax) a b).
Proof.
  intros Ha Hb. unfold np_maximum.
  rewrite (square_nrows n a Ha), (square_nrows n b Hb),
    (square_ncols n a Ha), (square_ncols n b Hb), !broadcast_dim_same.
  now rewrite (broadcast_to_square n a Ha), (broadcast_to_square n b Hb).
Qed.

End MatrixFacts.

(** *** The maximum of two numbers *)

Section Maximum.

Local Open Scope float_scope.

Lemma fmax_cases x y : fmax x y = x \/ fmax x y = y.
Proof. unfold fmax. destruct (_ || _); auto. Qed.

(** The maximum of two numbers taken in either order: the two results are
    equal as numbers, or both NaN. *)
Lemma fmax_sym (x y : float) :
  (fmax x y =? fmax y x) = true
  \/ (is_nan (fmax x y) = true /\ is_nan (fmax y x) = true).
Proof.
  unfold fmax.
  destruct (is_nan x) eqn:Hx, (is_nan y) eqn:Hy.
  - rewrite !orb_true_r. auto.
  - rewrite (F64Order.ltb_nan_l x y Hx), orb_true_r. cbn. auto.
  - rewrite (F64Order.ltb_nan_l y x Hy), (F64Order.ltb_nan_r x y Hy). cbn. auto.
  - rewrite !orb_false_r. left.
    destruct (y <? x) eqn:Hyx, (x <? y) eqn:Hxy.
    + apply F64Order.leb_antisym; now apply F64.ltb_leb.
    + now apply F64Order.eqb_refl.
    + now apply F64Order.eqb_refl.
    + apply F64Order.leb_antisym; now apply F64Order.ltb_false_leb.
Qed.

Lemma fmax_above (x y : float) :
  is_nan x = false -> is_nan y = false ->
  (x <=? fmax x y) = true /\ (y <=? fmax x y) = true.
Proof.
  intros Hx Hy. unfold fmax. rewrite Hx, orb_false_r.
  destruct (y <? x) eqn:Hyx.
  - split; [now apply F64.leb_refl|now apply F64.ltb_leb].
  - split; [now apply F64Order.ltb_false_leb|now apply F64.leb_refl].
Qed.

Lemma fmax_nan (x y : float) :
  is_nan x = true \/ is_nan y = true -> is_nan (fmax x y) = true.
Proof.
  unfold fmax. intros [H|H].
  - now rewrite H, orb_true_r.
  - rewrite (F64Order.ltb_nan_l y x H). cbn. now destruct (is_nan x) eqn:Hx.
Qed.

(** A maximum that is not NaN is that of two numbers. *)
Lemma fmax_not_nan (x y : float) :
  is_nan (fmax x y) = false -> is_nan x = false /\ is_nan y = false.
Proof.
  intros H. destruct (is_nan x) eqn:Hx.
  - rewrite fmax_nan in H by now left. discriminate.
  - destruct (is_nan y) eqn:Hy; [|now split].
    rewrite fmax_nan in H by now right. discriminate.
Qed.

(** A running maximum that is not NaN is that of numbers, none greater. *)
Lemma fmax_fold_above (f : nat -> float) (l : list nat) :
  forall acc,
    is_nan (fold_left (fun acc k => fmax acc (f k)) l acc) = false ->
    (is_nan acc = false
     /\ (acc <=? fold_left (fun acc k => fmax acc (f k)) l acc) = true)
    /\ forall k, In k l ->
         is_nan (f k) = false
         /\ (f k <=? fold_left (fun acc k => fmax acc (f k)) l acc) = true.
Proof.
  induction l as [|k0 l IH]; intros acc H; cbn [fold_left] in *.
  - split; [|intros k []]. split; [exact H|now apply F64.leb_refl].
  - destruct (IH _ H) as [[Hn Hle] Hl].
    destruct (fmax_not_nan _ _ Hn) as [Hacc Hk0].
    destruct (fmax_above acc (f k0) Hacc Hk0) as [H1 H2].
    split.
    + split; [exact Hacc|]. now apply (F64Order.leb_trans _ (fmax acc (f k0))).
    + intros k [<-|Hin]; [|now apply Hl].
      split; [exact Hk0|]. now apply (F64Order.leb_trans _ (fmax acc (f k0))).
Qed.

Lemma fmax_over_above (n : nat) (f : nat -> float) (k : nat) :
  (k < n)%nat -> is_nan (fmax_over n f) = false ->
  is_nan (f k) = false /\ (f k <=? fmax_over n f) = true.
Proof.
  unfold fmax_over. intros Hk H.
  destruct (fmax_fold_above f _ _ H) as [H0 Hl].
  destruct k as [|k]; [exact H0|].
  apply Hl, in_seq. lia.
Qed.

End Maximum.

Section EnhancerRefinement.

Local Open Scope nat_scope.

Variable n : nat.

(** The symmetrized matrix of a square matrix. *)
Lemma sym_returns S :
  square n S = true ->
  exists Y,
    sym S = Ok Y
    /\ square n Y = true
    /\ forall i j, i < n -> j < n -> entry_at Y i j = spec_sym S i j.
Proof.
  intros H. pose proof (square_np_T n S H) as HT.
  pose proof H as [Hl _]%square_spec. pose proof HT as [HlT _]%square_spec.
  exists (map2 (map2 fmax) S (np_T S)).
  split; [now apply (np_maximum_square n)|]. split.
  - apply square_intro.
    + rewrite length_map2. lia.
    + intros i Hi. rewrite (nth_map2 _ _ _ _ _ [] []) by lia.
      rewrite length_map2, !(square_row n) by assumption. lia.
  - intros i j Hi Hj. unfold entry_at at 1.
    rewrite (nth_map2 _ _ _ _ _ [] []) by lia.
    rewrite (nth_map2 _ _ _ _ _ 0%float 0%float)
      by (rewrite (square_row n); assumption).
    unfold spec_sym. f_equal. now apply (entry_np_T n).
Qed.

(** Column [j] of the running maximum is the maximum of column [j]. *)
Lemma amax_fold rs :
  forall acc j,
    length acc = n -> Forall (fun r => length r = n) rs -> j < n ->
    length (fold_left (map2 fmax) rs acc) = n
    /\ nth j (fold_left (map2 fmax) rs acc) 0%float
       = fold_left fmax (column j rs) (nth j acc 0%float).
Proof.
  induction rs as [|r rs IH]; intros acc j Hacc Hrs Hj; [now split|].
  apply Forall_cons_iff in Hrs as [Hr Hrs']. cbn [fold_left column map].
  destruct (IH (map2 fmax acc r) j) as [IH1 IH2]; auto.
  - rewrite length_map2. lia.
  - split; [exact IH1|]. rewrite IH2.
    now rewrite (nth_map2 _ _ _ _ _ 0%float 0%float) by lia.
Qed.

Lemma amax_entry M j :
  square n M = true -> j < n ->
  exists maxes,
    np_amax_axis0 M = Ok maxes
    /\ length maxes = n
    /\ nth j maxes 0%float = fmax_over n (fun k => entry_at M k j).
Proof.
  intros H Hj. pose proof H as [Hl Hr]%square_spec.
  destruct M as [|r rs]; [cbn in Hl; lia|].
  apply Forall_cons_iff in Hr as [Hr0 Hrs]. cbn [np_amax_axis0].
  eexists; split; [reflexivity|].
  destruct (amax_fold rs r j Hr0 Hrs Hj) as [H1 H2].
  split; [assumption|]. rewrite H2. unfold fmax_over.
  cbn [length] in Hl. replace (n - 1) with (length rs) by lia.
  unfold column. rewrite (map_nth_seq _ rs []), fold_left_map.
  rewrite <- seq_shift, fold_left_map. reflexivity.
Qed.

Lemma np_divide_square M v :
  square n M = true -> length v = n -> square n (np_divide M v) = true.
Proof.
  intros H Hv. pose proof H as [Hl Hr]%square_spec. apply square_intro.
  - unfold np_divide. now rewrite length_map.
  - intros i Hi. unfold np_divide. rewrite (nth_map_in _ _ i _ []) by lia.
    rewrite length_map2, (square_row n) by assumption. lia.
Qed.

Lemma np_divide_entry M v i j :
  square n M = true -> length v = n -> i < n -> j < n ->
  entry_at (np_divide M v) i j = (entry_at M i j / nth j v 0)%float.
Proof.
  intros H Hv Hi Hj. pose proof H as [Hl Hr]%square_spec.
  unfold entry_at at 1, np_divide. rewrite (nth_map_in _ _ i _ []) by lia.
  rewrite (nth_map2 _ _ _ _ _ 0%float 0%float)
    by (rewrite ?(square_row n); assumption || lia).
  reflexivity.
Qed.

Lemma row_max_norm_entries M :
  0 < n -> square n M = true ->
  exists N,
    row_max_norm M = Ok N
    /\ square n N = true
    /\ forall i j, i < n -> j < n ->
         entry_at N i j
         = (entry_at M i j / fmax_over n (fun k => entry_at M k j))%float.
Proof.
  intros n_pos H. destruct (amax_entry M 0 H n_pos) as (maxes & E & Hlen & _).
  unfold row_max_norm. rewrite E. cbn [rbind].
  eexists; split; [reflexivity|]. split; [now apply np_divide_square|].
  intros i j Hi Hj. rewrite np_divide_entry by assumption.
  destruct (amax_entry M j H Hj) as (maxes' & E' & _ & Hmax).
  rewrite E in E'. injection E' as <-. now rewrite Hmax.
Qed.

Lemma row_max_norm_empty M : square 0 M = true -> row_max_norm M = Raise ValueError.
Proof.
  intros H. apply square_spec in H as [Hl _]. now destruct M.
Qed.

Context {libs : Libraries}.

(** The enhancer on a square matrix, when the product of the library has
    the shape of its factors. *)
Lemma sim_enhancement_steps S :
  square n S = true ->
  (forall a b, square n a = true -> square n b = true ->
               square n (np_dot a b) = true) ->
  exists Y,
    sym S = Ok Y
    /\ square n Y = true
    /\ (forall i j, i < n -> j < n -> entry_at Y i j = spec_sym S i j)
    /\ square n (diffusion Y) = true
    /\ sim_enhancement S = row_max_norm (diffusion Y).
Proof.
  intros H Hdot. destruct (sym_returns S H) as (Y & EY & HY & Hent).
  exists Y. repeat split; try assumption.
  - apply Hdot; [assumption|now apply square_np_T].
  - unfold sim_enhancement. now rewrite EY.
Qed.

End EnhancerRefinement.

(** C5: on a square matrix the enhancer is the composition of the three
    steps.  The symmetrized matrix [Y] has the entries
    [max(S[i][j], S[j][i])]; the diffused matrix is the product
    [np.dot(Y, Yt)] the library returns for [Y] and its transpose [Yt],
    whose entry [(i, j)] is the entry [(j, i)] of [Y]; and an entry of the
    result is the entry of the product divided by the maximum of its
    column (the maximum runs over the row index, axis 0).  The product of
    two [n] by [n] arrays being [n] by [n], the enhancer returns whenever
    the matrix has a row. *)
Theorem sim_enhancement_three_steps {libs : Libraries} (n : nat) (S : matrix) :
  square n S = true ->
  (forall a b, square n a = true -> square n b = true ->
               square n (np_dot a b) = true) ->
  exists Y Yt D,
    sym S = Ok Y
    /\ (forall i j, (i < n)%nat -> (j < n)%nat ->
          entry_at Y i j = fmax (entry_at S i j) (entry_at S j i))
    /\ Yt = np_T Y
    /\ (forall i j, (i < n)%nat -> (j < n)%nat ->
          entry_at Yt i j = entry_at Y j i)
    /\ D = np_dot Y Yt
    /\ diffusion Y = D
    /\ ((0 < n)%nat -> exists M, sim_enhancement S = Ok M)
    /\ forall M,
         sim_enhancement S = Ok M ->
         square n M = true
         /\ forall i j, (i < n)%nat -> (j < n)%nat ->
              entry_at M i j
              = (entry_at D i j
                 / fmax_over n (fun k => entry_at D k j))%float.
Proof.
  intros H Hdot.
  destruct (sim_enhancement_steps n S H Hdot) as (Y & EY & HY & Hent & HD & E).
  exists Y, (np_T Y), (np_dot Y (np_T Y)).
  split; [exact EY|]. split; [exact Hent|]. split; [reflexivity|].
  split; [intros i j Hi Hj; now apply (entry_np_T n)|].
  split; [reflexivity|]. split; [reflexivity|].
  destruct (Nat.eq_dec n 0) as [->|Hn0].
  { split; [lia|]. intros M EM. rewrite E, row_max_norm_empty in EM by exact HD.
    discriminate. }
  assert (Hn : (0 < n)%nat) by lia.
  destruct (row_max_norm_entries n _ Hn HD) as (N & EN & HN & HNent).
  split; [intros _; exists N; now rewrite E|].
  intros M EM. rewrite E, EN in EM. injection EM as <-.
  split; [exact HN|exact HNent].
Qed.

(** The product that adds from left to right has the shape of its
    factors. *)
Lemma sequential_dot_square (n : nat) (a b : matrix) :
  square n a = true -> square n b = true ->
  square n (sequential_dot a b) = true.
Proof.
  intros Ha Hb. pose proof (square_np_T n b Hb) as HT.
  apply square_spec in Ha as [Hla _]. apply square_spec in HT as [HlT _].
  apply square_spec. unfold sequential_dot. rewrite length_map.
  split; [exact Hla|]. apply Forall_map, Forall_forall. intros r _.
  now rewrite length_map.
Qed.

Lemma sim_enhancement_three_steps_witness :
  exists Y Yt D,
    sym [[1; 2]; [3; 4]]%float = Ok Y
    /\ (forall i j, (i < 2)%nat -> (j < 2)%nat ->
          entry_at Y i j
          = fmax (entry_at [[1; 2]; [3; 4]]%float i j)
              (entry_at [[1; 2]; [3; 4]]%float j i))
    /\ Yt = np_T Y
    /\ (forall i j, (i < 2)%nat -> (j < 2)%nat ->
          entry_at Yt i j = entry_at Y j i)
    /\ D = np_dot (Libraries := example_libraries) Y Yt
    /\ diffusion (libs := example_libraries) Y = D
    /\ ((0 < 2)%nat ->
        exists M,
          sim_enhancement (libs := example_libraries) [[1; 2]; [3; 4]]%float
          = Ok M)
    /\ forall M,
         sim_enhancement (libs := example_libraries) [[1; 2]; [3; 4]]%float
         = Ok M ->
         square 2 M = true
         /\ forall i j, (i < 2)%nat -> (j < 2)%nat ->
              entry_at M i j
              = (entry_at D i j
                 / fmax_over 2 (fun k => entry_at D k j))%float.
Proof.
  apply (sim_enhancement_three_steps (libs := example_libraries) 2
           [[1; 2]; [3; 4]]%float).
  - reflexivity.
  - intros a b. apply sequential_dot_square.
Defined.

(** The divisor is the maximum of the column, not of the row:
    for [[1,2],[3,4]] the symmetrized matrix is [[1,3],[3,4]], its product
    with its transpose, added exactly, [[10,15],[15,25]], and the entry 15
    of row 0 and column 1 is divided by 25. *)
Example sim_enhancement_divides_by_column_maximum :
  sim_enhancement (libs := example_libraries) [[1; 2]; [3; 4]]%float
  = Ok [[10 / 15; 15 / 25]; [15 / 15; 25 / 25]]%float.
Proof. reflexivity. Qed.

(** The symmetrized array of one row is square: the row is broadcast
    against its transpose; an array of two rows and three columns has no
    common shape with its transpose. *)
Example sym_broadcasts :
  sym [[1; 2; 3]]%float = Ok [[1; 2; 3]; [2; 2; 3]; [3; 3; 3]]%float
  /\ sym [[1; 2; 3]; [4; 5; 6]]%float = Raise ValueError.
Proof. split; reflexivity. Qed.

(** *** Signs *)

Section NotBelowZero.

Local Open Scope float_scope.

Lemma fmax_nn x y : nn x -> nn y -> nn (fmax x y).
Proof. intros Hx Hy. destruct (fmax_cases x y) as [-> | ->]; assumption. Qed.

Lemma nn_zero : nn 0.
Proof. reflexivity. Qed.

Lemma nth_nn r j : Forall nn r -> nn (nth j r 0).
Proof.
  intros H. destruct (nth_in_or_default j r 0) as [Hin | ->]; [|exact nn_zero].
  rewrite Forall_forall in H. now apply H.
Qed.

Lemma entry_nn m i j : Forall (Forall nn) m -> nn (entry_at m i j).
Proof.
  intros H. unfold entry_at. apply nth_nn.
  destruct (nth_in_or_default i m []) as [Hin | ->]; [|constructor].
  rewrite Forall_forall in H. now apply H.
Qed.

Lemma column_nn j m : Forall (Forall nn) m -> Forall nn (column j m).
Proof.
  intros H. unfold column. apply Forall_map.
  eapply Forall_impl; [|exact H]. intros r Hr. now apply nth_nn.
Qed.

Lemma np_T_nn m : Forall (Forall nn) m -> Forall (Forall nn) (np_T m).
Proof.
  intros H. unfold np_T, transpose. apply Forall_map, Forall_forall.
  intros j _. now apply column_nn.
Qed.

Lemma Forall_map2 {A B C} (P : A -> Prop) (Q : B -> Prop) (R : C -> Prop)
  (f : A -> B -> C) l l' :
  (forall x y, P x -> Q y -> R (f x y)) ->
  Forall P l -> Forall Q l' -> Forall R (map2 f l l').
Proof.
  intros Hf Hl; revert l'; induction Hl as [|x l Hx Hl IH];
    intros l' Hl'; [constructor|].
  destruct Hl' as [|y l' Hy Hl']; [constructor|].
  unfold map2 in *. cbn. constructor; auto.
Qed.

Lemma sym_nn n m Y :
  square n m = true -> Forall (Forall nn) m -> sym m = Ok Y ->
  Forall (Forall nn) Y.
Proof.
  intros Hsq H E. unfold sym in E.
  rewrite (np_maximum_square n) in E by auto using square_np_T.
  injection E as <-.
  apply Forall_map2 with (P := Forall nn) (Q := Forall nn);
    auto using np_T_nn.
  intros r r' Hr Hr'. apply Forall_map2 with (P := nn) (Q := nn);
    auto using fmax_nn.
Qed.

Lemma vdot_nn u v : Forall nn u -> Forall nn v -> nn (vdot u v).
Proof.
  unfold vdot. intros Hu. pose proof nn_zero as Hacc. revert Hacc.
  generalize 0 as acc. revert v.
  induction Hu as [|a u Ha Hu IH]; intros v acc Hacc Hv; [exact Hacc|].
  destruct Hv as [|b v Hb Hv]; [exact Hacc|]. cbn [combine fold_left fst snd].
  apply IH; [|assumption].
  apply F64.add_not_neg; [assumption|]. now apply F64.mul_not_neg.
Qed.

(** The product that adds from left to right keeps entries not below
    zero. *)
Lemma sequential_dot_nn a b :
  Forall (Forall nn) a -> Forall (Forall nn) b ->
  Forall (Forall nn) (sequential_dot a b).
Proof.
  intros Ha Hb. unfold sequential_dot. apply Forall_map.
  eapply Forall_impl; [|exact Ha]. intros r Hr. apply Forall_map.
  eapply Forall_impl; [|exact (np_T_nn _ Hb)].
  intros c Hc. now apply vdot_nn.
Qed.

(** A quotient by a maximum of numbers not below zero. *)
Lemma quotient_by_maximum (n : nat) (f : nat -> float) (i : nat) :
  (i < n)%nat -> (forall k, (k < n)%nat -> nn (f k)) ->
  (is_finite (fmax_over n f) = true -> is_zero (fmax_over n f) = false ->
   (0 <=? f i / fmax_over n f) = true)
  /\ (is_zero (fmax_over n f) = true -> is_nan (f i / fmax_over n f) = true).
Proof.
  intros Hi Hnn. split.
  - intros Hfin Hz.
    destruct (fmax_over_above n f i Hi (F64.is_finite_not_nan _ Hfin))
      as [Hx _].
    assert (Hq : is_nan (f i / fmax_over n f) = false)
      by now apply F64Order.div_finite_not_nan.
    assert (Hm : nn (fmax_over n f)).
    { unfold fmax_over. generalize (Hnn 0%nat ltac:(lia)).
      assert (Hl : forall k, In k (seq 1 (n - 1)) -> nn (f k))
        by (intros k Hk; apply in_seq in Hk; apply Hnn; lia).
      revert Hl. generalize (seq 1 (n - 1)) (f 0%nat).
      intros l; induction l as [|k l IH]; intros acc Hl Hacc; [exact Hacc|].
      cbn [fold_left]. apply IH; [intros k' Hk'; apply Hl; now right|].
      apply fmax_nn; [exact Hacc|apply Hl; now left]. }
    destruct (F64.not_neg_cases (f i / fmax_over n f)) as [H|H];
      [|exact H|congruence].
    apply F64.div_not_neg; [now apply Hnn|exact Hm|]. intros Hz'. congruence.
  - intros Hz.
    destruct (fmax_over_above n f i Hi (F64.is_zero_not_nan _ Hz)) as [Hx Hle].
    apply F64Order.div_zeros_nan; [|exact Hz].
    apply (F64.leb_zero_is_zero _ (fmax_over n f)); auto.
    now apply Hnn.
Qed.

End NotBelowZero.

(** C6, as the code has it: on a square matrix with non-negative entries
    the entries of the enhanced matrix in a column are non-negative when
    the maximum of that column of [np.dot(Y, Yt)] is finite and not zero,
    and are all NaN when that maximum is zero, the quotient being 0/0.
    The enhancer returns whenever the matrix has a row.  Of the product
    of the library the theorem assumes that it is [n] by [n] for [n] by
    [n] factors, and has no entry below zero when the factors have
    none. *)
Theorem sim_enhancement_not_below_zero {libs : Libraries} (n : nat) (S : matrix) :
  square n S = true ->
  (forall row x, In row S -> In x row -> (0 <=? x)%float = true) ->
  (forall a b, square n a = true -> square n b = true ->
               square n (np_dot a b) = true) ->
  (forall a b, square n a = true -> square n b = true ->
               Forall (Forall nn) a -> Forall (Forall nn) b ->
               Forall (Forall nn) (np_dot a b)) ->
  ((0 < n)%nat -> exists M, sim_enhancement S = Ok M)
  /\ forall Y M,
       sym S = Ok Y ->
       sim_enhancement S = Ok M ->
       forall j, (j < n)%nat ->
         let top := fmax_over n (fun k => entry_at (diffusion Y) k j) in
         (is_finite top = true -> is_zero top = false ->
          forall i, (i < n)%nat -> (0 <=? entry_at M i j)%float = true)
         /\ (is_zero top = true ->
             forall i, (i < n)%nat -> is_nan (entry_at M i j) = true).
Proof.
  intros Hsq Hpos Hshape Hsign.
  destruct (sim_enhancement_steps n S Hsq Hshape) as (Y & EY & HY & _ & HD & E).
  destruct (Nat.eq_dec n 0) as [->|Hn0].
  { split; [lia|]. intros Y' M _ EM.
    rewrite E, row_max_norm_empty in EM by exact HD. discriminate. }
  assert (Hn : (0 < n)%nat) by lia.
  destruct (row_max_norm_entries n _ Hn HD) as (N & EN & HN & HNent).
  split; [intros _; exists N; now rewrite E|].
  intros Y' M EY' EM j Hj. rewrite EY in EY'. injection EY' as <-.
  rewrite E, EN in EM. injection EM as <-.
  assert (Hnn : Forall (Forall nn) S).
  { apply Forall_forall. intros row Hrow. apply Forall_forall. intros x Hx.
    apply F64.leb_zero_not_neg. eauto. }
  assert (HYnn : Forall (Forall nn) Y) by now apply (sym_nn n S).
  assert (HDnn : Forall (Forall nn) (diffusion Y))
    by (apply Hsign; auto using square_np_T, np_T_nn).
  cbn zeta.
  assert (Hq : forall i, (i < n)%nat ->
             (is_finite (fmax_over n (fun k => entry_at (diffusion Y) k j)) = true ->
              is_zero (fmax_over n (fun k => entry_at (diffusion Y) k j)) = false ->
              (0 <=? entry_at N i j)%float = true)
             /\ (is_zero (fmax_over n (fun k => entry_at (diffusion Y) k j)) = true ->
                 is_nan (entry_at N i j) = true)).
  { intros i Hi. rewrite HNent by assumption.
    apply (quotient_by_maximum n (fun k => entry_at (diffusion Y) k j) i Hi).
    intros k _. now apply entry_nn. }
  split.
  - intros Hfin Hz i Hi. now apply (Hq i Hi).
  - intros Hz i Hi. now apply (Hq i Hi).
Qed.

Lemma sim_enhancement_not_below_zero_witness :
  ((0 < 2)%nat ->
   exists M,
     sim_enhancement (libs := example_libraries) [[1; 2]; [3; 4]]%float = Ok M)
  /\ forall Y M,
       sym [[1; 2]; [3; 4]]%float = Ok Y ->
       sim_enhancement (libs := example_libraries) [[1; 2]; [3; 4]]%float
       = Ok M ->
       forall j, (j < 2)%nat ->
         let top :=
           fmax_over 2
             (fun k => entry_at (diffusion (libs := example_libraries) Y) k j) in
         (is_finite top = true -> is_zero top = false ->
          forall i, (i < 2)%nat -> (0 <=? entry_at M i j)%float = true)
         /\ (is_zero top = true ->
             forall i, (i < 2)%nat -> is_nan (entry_at M i j) = true).
Proof.
  apply (sim_enhancement_not_below_zero (libs := example_libraries) 2
           [[1; 2]; [3; 4]]%float).
  - reflexivity.
  - intros row x Hrow Hx. cbn in Hrow.
    destruct Hrow as [<- | [<- | []]]; cbn in Hx;
      destruct Hx as [<- | [<- | []]]; reflexivity.
  - intros a b. apply sequential_dot_square.
  - intros a b _ _. apply sequential_dot_nn.
Defined.

(** C6 as stated fails on the 1x1 zero matrix: its only entry is
    non-negative, the product of the zero matrix with its transpose is
    zero however it is added, and the enhancer returns 0/0, which is
    NaN. *)
Lemma sim_enhancement_zero_matrix_is_nan :
  square 1 [[0%float]] = true
  /\ (forall row x, In row [[0%float]] -> In x row -> (0 <=? x)%float = true)
  /\ sym [[0%float]] = Ok [[0%float]]
  /\ sequential_dot [[0%float]] [[0%float]] = [[0%float]]
  /\ sim_enhancement (libs := example_libraries) [[0%float]] = Ok [[nan]]
  /\ (0 <=? nan)%float = false.
Proof.
  repeat split.
  intros row x [<- | []] [<- | []]. reflexivity.
Qed.

(** A column maximum that overflows gives NaN as well: the product of
    the matrix of the one entry 2^600 with its transpose is infinite,
    and the enhancer returns inf/inf. *)
Example sim_enhancement_overflow_is_nan :
  (0 <=? 0x1p+600)%float = true
  /\ sequential_dot [[0x1p+600%float]] [[0x1p+600%float]] = [[infinity]]
  /\ sim_enhancement (libs := example_libraries) [[0x1p+600%float]] = Ok [[nan]].
Proof. repeat split. Qed.

(** ** More on the enhancer *)

(** X10: the symmetrized matrix is symmetric as far as numbers go: on a
    square matrix [sym] returns, and the entries [(i, j)] and [(j, i)] of
    its result are equal numbers, or are both NaN.  Each is the greater of
    the input's two entries when neither of those is NaN, and NaN as soon
    as one is. *)
Theorem sym_symmetric (n : nat) (S : matrix) (i j : nat) :
  square n S = true -> (i < n)%nat -> (j < n)%nat ->
  exists Y,
    sym S = Ok Y
    /\ let a := entry_at Y i j in
       let b := entry_at Y j i in
       ((a =? b)%float = true \/ (is_nan a = true /\ is_nan b = true))
       /\ (is_nan (entry_at S i j) = false -> is_nan (entry_at S j i) = false ->
           (entry_at S i j <=? a)%float = true
           /\ (entry_at S j i <=? a)%float = true
           /\ (a = entry_at S i j \/ a = entry_at S j i))
       /\ (is_nan (entry_at S i j) = true \/ is_nan (entry_at S j i) = true ->
           is_nan a = true).
Proof.
  intros H Hi Hj. destruct (sym_returns n S H) as (Y & EY & _ & Hent).
  exists Y. split; [exact EY|]. intros a b. subst a b.
  rewrite !Hent by assumption. unfold spec_sym.
  split; [apply fmax_sym|]. split.
  - intros Hx Hy. destruct (fmax_above _ _ Hx Hy) as [H1 H2].
    repeat split; try assumption. apply fmax_cases.
  - apply fmax_nan.
Qed.

Lemma sym_symmetric_witness :
  let S := [[1; 2]; [3; 4]]%float in
  exists Y,
    sym S = Ok Y
    /\ let a := entry_at Y 0 1 in
       let b := entry_at Y 1 0 in
       ((a =? b)%float = true \/ (is_nan a = true /\ is_nan b = true))
       /\ (is_nan (entry_at S 0 1) = false -> is_nan (entry_at S 1 0) = false ->
           (entry_at S 0 1 <=? a)%float = true
           /\ (entry_at S 1 0 <=? a)%float = true
           /\ (a = entry_at S 0 1 \/ a = entry_at S 1 0))
       /\ (is_nan (entry_at S 0 1) = true \/ is_nan (entry_at S 1 0) = true ->
           is_nan a = true).
Proof.
  apply (sym_symmetric 2 [[1; 2]; [3; 4]]%float 0 1).
  - reflexivity.
  - lia.
  - lia.
Defined.

(** The two entries can differ as bit patterns: a zero of either sign is
    equal to the other, and of two equal numbers the maximum is the
    second operand, here the entry of the transpose. *)
Example sym_signed_zeros :
  exists Y,
    sym [[0; 0]; [-0; 0]]%float = Ok Y
    /\ Prim2SF (entry_at Y 0 1) = S754_zero true
    /\ Prim2SF (entry_at Y 1 0) = S754_zero false.
Proof. eexists. split; [reflexivity|]. vm_compute. split; reflexivity. Qed.

(** ** Cluster estimators *)

Section HeapFacts.

Local Open Scope nat_scope.

Lemma nth_snoc_last {A} (l : list A) (x d : A) : nth (length l) (l ++ [x]) d = x.
Proof. now rewrite app_nth2, Nat.sub_diag by lia. Qed.

Lemma update_snoc_last {A} (l : list A) (x y : A) :
  update (length l) y (l ++ [x]) = l ++ [y].
Proof. induction l as [|z l IH]; cbn; [reflexivity|]. now rewrite IH. Qed.

Lemma mask_rows_none {A} (mask : list bool) (rows : list A) :
  Forall (fun b => b = false) mask -> mask_rows mask rows = [].
Proof.
  unfold mask_rows. intros H; revert rows.
  induction H as [|b mask Hb H IH]; intros [|r rows]; cbn; try reflexivity.
  subst b. cbn. apply IH.
Qed.

Context {libs : Libraries}.

(** The enhancer on references allocates three arrays after the ones of
    the heap, the last one holding the enhanced matrix, and changes none;
    it allocates none when symmetrizing raises. *)
Lemma sim_enhancement_at_run (a : nat) (h : heap) :
  let v := nth a h [] in
  sim_enhancement_at a h
  = match sym v with
    | Raise ex => (Raise ex, h)
    | Ok y =>
        match row_max_norm (diffusion y) with
        | Ok r => (Ok (S (S (length h))), h ++ [y; diffusion y; r])
        | Raise ex => (Raise ex, h ++ [y; diffusion y])
        end
    end.
Proof.
  cbn zeta. unfold sim_enhancement_at, sym_at, diffusion_at, row_max_norm_at,
    bind, load, alloc, lift.
  destruct (sym (nth a h [])) as [y|ex]; [|reflexivity].
  rewrite nth_snoc_last, !length_app. cbn [length].
  replace (length h + 1) with (length (h ++ [y]))
    by (rewrite length_app; reflexivity).
  rewrite nth_snoc_last, length_app. cbn [length].
  rewrite <- !app_assoc. cbn [app].
  destruct (row_max_norm _); [|reflexivity].
  rewrite <- app_assoc. cbn [app]. do 2 f_equal. lia.
Qed.

(** What the enhancer returns is what it returns on references. *)
Lemma sim_enhancement_cases (v : matrix) :
  sim_enhancement v
  = match sym v with
    | Raise ex => Raise ex
    | Ok y => row_max_norm (diffusion y)
    end.
Proof. unfold sim_enhancement. now destruct (sym v). Qed.

(** What the spectral estimator returns and the heap it leaves. *)
Lemma spectral_clustering_run (a : nat) (beta : float) (h : heap) :
  let v := nth a h [] in
  spectral_clustering a beta h
  = match sym v with
    | Raise ex => (Raise ex, h)
    | Ok y =>
        match row_max_norm (diffusion y) with
        | Raise ex => (Raise ex, h ++ [y; diffusion y])
        | Ok r =>
            let h' := h ++ [y; diffusion y; with_diagonal 0 r] in
            match eig (laplacian (with_diagonal 0 r)) with
            | Raise ex => (Raise ex, h')
            | Ok dec =>
                let kmask :=
                  map (fun x => (x <? beta)%float) (np_real (fst dec)) in
                let R := map np_real (snd dec) in
                let P := transpose (nrows R) (mask_rows kmask (np_T R)) in
                (KMeans_fit_predict (shape1 P) P, h')
            end
        end
    end.
Proof.
  cbn zeta. unfold spectral_clustering. unfold bind at 1.
  rewrite sim_enhancement_at_run. cbn zeta.
  destruct (sym (nth a h [])) as [y|ex]; [|reflexivity].
  destruct (row_max_norm (diffusion y)) as [r|ex]; [|reflexivity].
  set (y' := diffusion y).
  assert (Hlen : S (S (length h)) = length (h ++ [y; y']))
    by (rewrite length_app; cbn; lia).
  replace (h ++ [y; y'; r]) with ((h ++ [y; y']) ++ [r])
    by now rewrite <- app_assoc.
  rewrite Hlen.
  unfold bind, np_fill_diagonal, bind, load, store, lift.
  rewrite nth_snoc_last, update_snoc_last, nth_snoc_last.
  rewrite <- app_assoc. cbn [app].
  destruct (eig _) as [dec|ex]; reflexivity.
Qed.

(** The same, from what the enhancer returned. *)
Lemma spectral_clustering_enhanced (a : nat) (beta : float) (h : heap) r :
  sim_enhancement (nth a h []) = Ok r ->
  exists y,
    sym (nth a h []) = Ok y
    /\ spectral_clustering a beta h
       = let h' := h ++ [y; diffusion y; with_diagonal 0 r] in
         match eig (laplacian (with_diagonal 0 r)) with
         | Raise ex => (Raise ex, h')
         | Ok dec =>
             let kmask :=
               map (fun x => (x <? beta)%float) (np_real (fst dec)) in
             let R := map np_real (snd dec) in
             let P := transpose (nrows R) (mask_rows kmask (np_T R)) in
             (KMeans_fit_predict (shape1 P) P, h')
         end.
Proof.
  intros H. rewrite sim_enhancement_cases in H.
  rewrite spectral_clustering_run. cbn zeta.
  destruct (sym (nth a h [])) as [y|ex]; [|discriminate].
  exists y. split; [reflexivity|]. now rewrite H.
Qed.

(** An array without rows has, transposed, rows without columns. *)
Lemma shape1_transpose_nil (n : nat) : shape1 (transpose n []) = 0.
Proof. unfold shape1, transpose. now destruct n. Qed.

End HeapFacts.

(** C7: when no eigenvalue of the normalized Laplacian of the enhanced,
    zero-diagonal matrix has a real part below [beta], the mask selects no
    eigenvector, K-means is called with [n_clusters = 0], and -- K-means
    rejecting zero clusters -- the estimator raises that error instead of
    returning labels. *)
Theorem spectral_clustering_zero_clusters {libs : Libraries}
  (h : heap) (S : nat) (beta : float) (enhanced : matrix)
  (eigvals : list complex) (eigvecs : list (list complex)) (ex : exn) :
  sim_enhancement (nth S h []) = Ok enhanced ->
  eig (laplacian (with_diagonal 0 enhanced)) = Ok (eigvals, eigvecs) ->
  (forall ev, In ev eigvals -> (re ev <? beta)%float = false) ->
  (forall P, KMeans_fit_predict 0 P = Raise ex) ->
  let kmask := map (fun x => (x <? beta)%float) (np_real eigvals) in
  let P :=
    transpose (nrows (map np_real eigvecs))
      (mask_rows kmask (np_T (map np_real eigvecs))) in
  mask_rows kmask (np_T (map np_real eigvecs)) = []
  /\ shape1 P = 0%nat
  /\ fst (spectral_clustering S beta h) = KMeans_fit_predict 0 P
  /\ fst (spectral_clustering S beta h) = Raise ex.
Proof.
  intros Henh Heig Hvals Hkm kmask P.
  assert (Hnone : mask_rows kmask (np_T (map np_real eigvecs)) = []).
  { apply mask_rows_none. subst kmask. unfold np_real.
    rewrite map_map. apply Forall_map, Forall_forall. exact Hvals. }
  assert (HP : shape1 P = 0%nat)
    by (subst P; rewrite Hnone; apply shape1_transpose_nil).
  assert (Hrun : fst (spectral_clustering S beta h) = KMeans_fit_predict 0 P).
  { destruct (spectral_clustering_enhanced S beta h enhanced Henh)
      as (y & _ & ->).
    cbn zeta. rewrite Heig. cbn [fst snd]. fold kmask. fold P.
    now rewrite HP. }
  repeat split; auto.
  now rewrite Hrun.
Qed.

Lemma spectral_clustering_zero_clusters_witness :
  mask_rows (map (fun x => (x <? -1)%float) (np_real [{| re := 0; im := 0 |}]))
    (np_T (map np_real [[{| re := 1; im := 0 |}]])) = []
  /\ shape1 (transpose (nrows (map np_real [[{| re := 1; im := 0 |}]]))
               (mask_rows
                  (map (fun x => (x <? -1)%float)
                     (np_real [{| re := 0; im := 0 |}]))
                  (np_T (map np_real [[{| re := 1; im := 0 |}]])))) = 0%nat
  /\ fst (spectral_clustering (libs := example_libraries) 0 (-1) [[[1%float]]])
     = KMeans_fit_predict (Libraries := example_libraries) 0
         (transpose (nrows (map np_real [[{| re := 1; im := 0 |}]]))
            (mask_rows
               (map (fun x => (x <? -1)%float)
                  (np_real [{| re := 0; im := 0 |}]))
               (np_T (map np_real [[{| re := 1; im := 0 |}]]))))
  /\ fst (spectral_clustering (libs := example_libraries) 0 (-1) [[[1%float]]])
     = Raise ValueError.
Proof.
  apply (spectral_clustering_zero_clusters (libs := example_libraries)
           [[[1%float]]] 0 (-1)%float [[1%float]]
           [{| re := 0; im := 0 |}] [[{| re := 1; im := 0 |}]] ValueError).
  - reflexivity.
  - reflexivity.
  - intros ev [<- | []]. reflexivity.
  - intros P. reflexivity.
Defined.

(** C8: both estimators leave every array of the caller's heap as it was,
    the input matrix among them.  The spectral estimator only adds arrays;
    when the enhancer succeeds, the zero diagonal is written into the
    newly allocated enhanced matrix. *)
Theorem estimators_leave_input_unchanged {libs : Libraries}
  (h : heap) (S : nat) (beta thresh : float) :
  (S < length h)%nat ->
  nth_error (snd (spectral_clustering S beta h)) S = nth_error h S
  /\ nth_error (snd (agg_clustering S thresh h)) S = nth_error h S
  /\ (exists fresh, snd (spectral_clustering S beta h) = h ++ fresh)
  /\ snd (agg_clustering S thresh h) = h
  /\ (forall enhanced,
         sim_enhancement (nth S h []) = Ok enhanced ->
         exists S',
           (length h <= S')%nat
           /\ nth_error (snd (spectral_clustering S beta h)) S'
              = Some (with_diagonal 0 enhanced)).
Proof.
  intros HS.
  assert (Hagg : snd (agg_clustering S thresh h) = h).
  { unfold agg_clustering, bind, load, lift. reflexivity. }
  assert (Hsp : exists fresh, snd (spectral_clustering S beta h) = h ++ fresh).
  { rewrite spectral_clustering_run. cbn zeta.
    destruct (sym _) as [y|ex]; [|exists []; now rewrite app_nil_r].
    destruct (row_max_norm _) as [r|ex]; [|eexists; reflexivity].
    destruct (eig _) as [dec|ex]; eexists; reflexivity. }
  split; [|split; [|split; [|split]]].
  - destruct Hsp as [fresh ->]. now apply nth_error_app1.
  - now rewrite Hagg.
  - exact Hsp.
  - exact Hagg.
  - intros enhanced Henh. exists (2 + length h)%nat. split; [lia|].
    destruct (spectral_clustering_enhanced S beta h enhanced Henh)
      as (y0 & _ & ->).
    cbn zeta.
    assert (Hnth : forall y y' z : matrix,
               nth_error (h ++ [y; y'; z]) (2 + length h) = Some z).
    { intros y y' z. rewrite nth_error_app2 by lia.
      replace (2 + length h - length h)%nat with 2%nat by lia. reflexivity. }
    destruct (eig _) as [dec|ex]; cbn [snd]; apply Hnth.
Qed.

Lemma estimators_leave_input_unchanged_witness :
  nth_error (snd (spectral_clustering (libs := example_libraries) 0 (-1)
                    [[[1%float]]])) 0
  = nth_error [[[1%float]]] 0
  /\ nth_error (snd (agg_clustering (libs := example_libraries) 0 0
                       [[[1%float]]])) 0
     = nth_error [[[1%float]]] 0
  /\ (exists fresh,
         snd (spectral_clustering (libs := example_libraries) 0 (-1)
                [[[1%float]]]) = [[[1%float]]] ++ fresh)
  /\ snd (agg_clustering (libs := example_libraries) 0 0 [[[1%float]]])
     = [[[1%float]]]
  /\ (forall enhanced,
         sim_enhancement (libs := example_libraries) (nth 0 [[[1%float]]] [])
         = Ok enhanced ->
         exists S',
           (length [[[1%float]]] <= S')%nat
           /\ nth_error (snd (spectral_clustering (libs := example_libraries)
                                0 (-1) [[[1%float]]])) S'
              = Some (with_diagonal 0 enhanced)).
Proof.
  apply (estimators_leave_input_unchanged (libs := example_libraries)
           [[[1%float]]] 0 (-1)%float 0%float).
  cbn. lia.
Defined.

(** ** Corpus aggregator *)

Section AggregatorFacts.

Local Open Scope nat_scope.

Lemma read_lines (lines : list string) :
  forall read,
    fold_left read_line lines read
    = (fst read ++ map (fun line => split_on " " (strip line)) lines,
       snd read ++ lines).
Proof.
  induction lines as [|line lines IH]; intros [data rows]; cbn [fold_left map].
  - now rewrite !app_nil_r.
  - rewrite IH. unfold read_line. cbn [fst snd]. now rewrite <- !app_assoc.
Qed.

Lemma read_files (fs : file_system) (rttms : list string) :
  forall lines read,
    all_lines fs rttms = Some lines ->
    fold_left (read_file fs) rttms (Ok read)
    = Ok (fst read ++ map (fun line => split_on " " (strip line)) lines,
          snd read ++ lines).
Proof.
  induction rttms as [|f rttms IH]; intros lines read H; cbn in H.
  - injection H as <-. cbn. rewrite !app_nil_r. now destruct read.
  - destruct (fs f) as [ls|] eqn:Ef; [|discriminate].
    destruct (all_lines fs rttms) as [more|] eqn:Em; [|discriminate].
    injection H as <-. cbn [fold_left]. unfold read_file at 2. cbn [rbind].
    rewrite Ef, read_lines, (IH more) by reflexivity. cbn [fst snd].
    now rewrite map_app, <- !app_assoc.
Qed.

(** *** Strings without a NUL character *)

Lemma np_str_id (t : string) : no_nul t = true -> np_str t = t.
Proof.
  induction t as [|c t IH]; [reflexivity|]. cbn [no_nul np_str].
  intros [Hc Ht]%andb_true_iff. rewrite (IH Ht).
  destruct t; [|reflexivity].
  apply negb_true_iff in Hc. now rewrite Hc.
Qed.

Lemma map_np_str_id (l : list string) :
  (forall t, In t l -> no_nul t = true) -> map np_str l = l.
Proof.
  intros H. rewrite <- (map_id l) at 2. apply map_ext_in.
  intros t Ht. now apply np_str_id, H.
Qed.

Lemma no_nul_lstrip (t : string) : no_nul t = true -> no_nul (lstrip t) = true.
Proof.
  induction t as [|c t IH]; [reflexivity|]. cbn [lstrip]. intros H.
  destruct (is_space c); [|exact H].
  cbn [no_nul] in H. apply andb_true_iff in H as [_ Ht]. now apply IH.
Qed.

Lemma no_nul_rstrip (t : string) : no_nul t = true -> no_nul (rstrip t) = true.
Proof.
  induction t as [|c t IH]; [reflexivity|]. cbn [rstrip no_nul].
  intros [Hc Ht]%andb_true_iff. specialize (IH Ht).
  destruct (rstrip t) as [|c' kept].
  - destruct (is_space c); [reflexivity|]. cbn [no_nul]. now rewrite Hc.
  - cbn [no_nul] in *. now rewrite Hc, IH.
Qed.

Lemma no_nul_split_on (sep : ascii) (t : string) :
  no_nul t = true -> Forall (fun field => no_nul field = true) (split_on sep t).
Proof.
  induction t as [|c t IH]; [now repeat constructor|]. cbn [split_on no_nul].
  intros [Hc Ht]%andb_true_iff. specialize (IH Ht).
  destruct (Ascii.eqb c sep); [now constructor|].
  destruct (split_on sep t) as [|field fields].
  - repeat constructor. cbn [no_nul]. now rewrite Hc.
  - apply Forall_cons_iff in IH as [Hf Hfs]. constructor; [|assumption].
    cbn [no_nul]. now rewrite Hc, Hf.
Qed.

Lemma no_nul_field_key (column : nat) (line : string) :
  no_nul line = true -> no_nul (field_key column line) = true.
Proof.
  intros H. unfold field_key, strip.
  pose proof (no_nul_split_on " " _ (no_nul_lstrip _ (no_nul_rstrip _ H)))
    as Hall.
  destruct (nth_in_or_default column (split_on " " (lstrip (rstrip line)))
              EmptyString) as [Hin | ->]; [|reflexivity].
  rewrite Forall_forall in Hall. now apply Hall.
Qed.

Lemma fold_min_above (c : nat) (l : list nat) :
  forall a, c < a -> Forall (fun x => c < x) l -> c < fold_left Nat.min l a.
Proof.
  induction l as [|x l IH]; intros a Ha Hl; [exact Ha|].
  apply Forall_cons_iff in Hl as [Hx Hl]. cbn. apply IH; [lia|assumption].
Qed.

(** The column the aggregator reads holds the key of every line. *)
Lemma zip_star_column (column : nat) (data : list (list string)) :
  data <> [] ->
  Forall (fun r => column < length r) data ->
  nth_error (zip_star data) column
  = Some (map (fun r => nth column r EmptyString) data).
Proof.
  intros Hne Hall. destruct data as [|row rows]; [contradiction|].
  apply Forall_cons_iff in Hall as [Hrow Hrows]. unfold zip_star.
  set (width := fold_left Nat.min _ _).
  assert (Hw : column < width).
  { apply fold_min_above; [assumption|]. now apply Forall_map. }
  rewrite nth_error_map, nth_error_seq.
  apply Nat.ltb_lt in Hw. now rewrite Hw.
Qed.

Lemma mask_rows_keys {A B} (p : B -> bool) (key : A -> B) (l : list A) :
  mask_rows (map p (map key l)) l = filter (fun x => p (key x)) l.
Proof.
  unfold mask_rows. induction l as [|x l IH]; [reflexivity|].
  cbn. destruct (p (key x)); cbn; now rewrite IH.
Qed.

Lemma fold_left_app_flat_map {A B} (f : A -> list B) (l : list A) :
  forall acc, fold_left (fun acc x => acc ++ f x) l acc = acc ++ flat_map f l.
Proof.
  induction l as [|x l IH]; intros acc; cbn.
  - now rewrite app_nil_r.
  - now rewrite IH, <- app_assoc.
Qed.

(** *** Grouping keeps every line once *)

Lemma filter_or_perm {A} (p q : A -> bool) (l : list A) :
  (forall x, p x = true -> q x = false) ->
  Permutation (filter p l ++ filter q l) (filter (fun x => p x || q x) l).
Proof.
  intros Hpq. induction l as [|x l IH]; [constructor|].
  cbn. destruct (p x) eqn:Hp; cbn.
  - rewrite (Hpq x Hp). now constructor.
  - destruct (q x); [|exact IH].
    etransitivity; [symmetry; apply Permutation_middle|]. now constructor.
Qed.

Lemma filter_all {A} (p : A -> bool) (l : list A) :
  (forall x, In x l -> p x = true) -> filter p l = l.
Proof.
  induction l as [|x l IH]; intros H; [reflexivity|].
  cbn. rewrite (H x) by now left. f_equal. apply IH. intros y Hy. apply H. now right.
Qed.

Lemma filter_none {A} (p : A -> bool) (l : list A) :
  (forall x, In x l -> p x = false) -> filter p l = [].
Proof.
  induction l as [|x l IH]; intros H; [reflexivity|].
  cbn. rewrite (H x) by now left. apply IH. intros y Hy. apply H. now right.
Qed.

Variable column : nat.
Variable lines : list string.

Lemma groups_perm (ids : list string) :
  NoDup ids ->
  Permutation (flat_map (group column lines) ids)
    (filter (fun line => existsb (String.eqb (field_key column line)) ids) lines).
Proof.
  induction 1 as [|k ids Hk Hnd IH]; cbn [flat_map existsb].
  - rewrite filter_none; [constructor|reflexivity].
  - etransitivity; [apply Permutation_app_head, IH|].
    apply filter_or_perm. intros line Hline.
    apply String.eqb_eq in Hline.
    destruct (existsb _ ids) eqn:E; [|reflexivity].
    apply existsb_exists in E as (k' & Hin & Heq).
    apply String.eqb_eq in Heq. congruence.
Qed.

Lemma group_group (k k' : string) :
  filter (fun line => String.eqb (field_key column line) k) (group column lines k')
  = if String.eqb k' k then group column lines k else [].
Proof.
  unfold group. destruct (String.eqb_spec k' k) as [->|Hne].
  - apply filter_all. intros line Hin. now apply filter_In in Hin.
  - apply filter_none. intros line Hin. apply filter_In in Hin as [_ Hk'].
    apply String.eqb_eq in Hk'. apply String.eqb_neq. congruence.
Qed.

Lemma filter_flat_map_groups (k : string) (ids : list string) :
  filter (fun line => String.eqb (field_key column line) k)
    (flat_map (group column lines) ids)
  = flat_map (fun k' => if String.eqb k' k then group column lines k else []) ids.
Proof.
  induction ids as [|k' ids IH]; [reflexivity|].
  cbn [flat_map]. now rewrite filter_app, group_group, IH.
Qed.

Lemma groups_other (k : string) (ids : list string) :
  ~ In k ids ->
  flat_map (fun k' => if String.eqb k' k then group column lines k else []) ids = [].
Proof.
  induction ids as [|k' ids IH]; intros Hk; [reflexivity|].
  cbn [flat_map]. destruct (String.eqb_spec k' k) as [->|Hne].
  - exfalso. apply Hk. now left.
  - apply IH. intros Hin. apply Hk. now right.
Qed.

(** Within a group the lines keep their order. *)
Lemma groups_stable (k : string) (ids : list string) :
  NoDup ids ->
  (forall line, In line lines -> In (field_key column line) ids) ->
  filter (fun line => String.eqb (field_key column line) k)
    (flat_map (group column lines) ids)
  = group column lines k.
Proof.
  intros Hnd Hkeys. rewrite filter_flat_map_groups.
  destruct (in_dec string_dec k ids) as [Hin|Hout].
  - clear Hkeys. induction Hnd as [|k' ids Hk' Hnd IH]; [contradiction|].
    cbn [flat_map]. destruct (String.eqb_spec k' k) as [->|Hne].
    + rewrite groups_other by assumption. apply app_nil_r.
    + destruct Hin as [?|Hin]; [contradiction|]. now apply IH.
  - rewrite groups_other by assumption. symmetry. apply filter_none.
    intros line Hline. apply String.eqb_neq. intros <-. auto.
Qed.

End AggregatorFacts.

(** *** The sorted distinct keys *)

Lemma sorted_set_NoDup keys : NoDup (sorted_set keys).
Proof.
  unfold sorted_set.
  eapply Permutation_NoDup; [apply StringSort.Permuted_sort|apply NoDup_nodup].
Qed.

Lemma sorted_set_In keys k : In k (sorted_set keys) <-> In k keys.
Proof.
  unfold sorted_set. rewrite <- (nodup_In string_dec keys k). split.
  - apply Permutation_in. symmetry. apply StringSort.Permuted_sort.
  - apply Permutation_in. apply StringSort.Permuted_sort.
Qed.

Lemma leb_neq_ltb (a b : string) :
  String.leb a b = true -> a <> b -> String.ltb a b = true.
Proof.
  unfold String.leb, String.ltb. intros Hle Hne.
  destruct (String.compare a b) eqn:E; try reflexivity; try discriminate.
  apply String.compare_eq_iff in E. contradiction.
Qed.

Lemma Sorted_leb_strict (l : list string) :
  Sorted (fun a b => is_true (StringOrder.leb a b)) l -> NoDup l ->
  Sorted (fun a b => String.ltb a b = true) l.
Proof.
  induction 1 as [|a l Hs IH Hhd]; intros Hnd; [constructor|].
  apply NoDup_cons_iff in Hnd as [Ha Hnd]. constructor; [now apply IH|].
  destruct Hhd as [|b l Hab]; constructor.
  apply leb_neq_ltb; [exact Hab|]. intros ->. apply Ha. now left.
Qed.

Lemma sorted_set_ascending keys :
  Sorted (fun a b => String.ltb a b = true) (sorted_set keys).
Proof.
  apply Sorted_leb_strict; [|apply sorted_set_NoDup].
  apply StringSort.Sorted_sort.
Qed.

(** What the aggregator returns when every file opens, there is a line,
    no line holds a NUL, and every line has a field at index [column]. *)
Lemma sort_and_cat_run fs rttms column lines :
  all_lines fs rttms = Some lines ->
  lines <> [] ->
  (forall line, In line lines -> no_nul line = true) ->
  (forall line, In line lines ->
                (column < length (split_on " " (strip line)))%nat) ->
  sort_and_cat fs rttms column
  = Ok (flat_map (group column lines)
          (sorted_set (map (field_key column) lines))).
Proof.
  intros Hall Hne Hnul Hfields. unfold sort_and_cat.
  rewrite (read_files fs rttms lines) by assumption. cbn [rbind fst snd app].
  rewrite nth_error_map, zip_star_column.
  - cbn [option_map]. rewrite (map_np_str_id lines Hnul).
    rewrite (map_map (fun line => split_on " " (strip line))).
    change (map (fun x => nth column (split_on " " (strip x)) EmptyString) lines)
      with (map (field_key column) lines).
    rewrite (map_np_str_id (map (field_key column) lines)).
    + f_equal. rewrite fold_left_app_flat_map. cbn [app].
      apply flat_map_ext. intros k. unfold group.
      rewrite mask_rows_keys. apply filter_ext. intros line. reflexivity.
    + intros k (line & <- & Hin)%in_map_iff. now apply no_nul_field_key, Hnul.
  - destruct lines; [contradiction|discriminate].
  - apply Forall_map, Forall_forall. exact Hfields.
Qed.

(** C9, as the code has it: when every file opens, the files hold at
    least one line, no line holds a NUL character, and every line,
    stripped and split at each single space, has a field at index
    [column], the aggregator returns the
    input lines, each once, grouped by that field: the groups follow the
    strictly ascending order of the distinct field values, and the lines
    of a group keep their order. *)
Theorem sort_and_cat_groups (fs : file_system) (rttms : list string)
  (column : nat) (lines : list string) :
  all_lines fs rttms = Some lines ->
  lines <> [] ->
  (forall line, In line lines -> no_nul line = true) ->
  (forall line, In line lines ->
                (column < length (split_on " " (strip line)))%nat) ->
  exists ids out,
    sort_and_cat fs rttms column = Ok out
    /\ Permutation out lines
    /\ (forall k, In k ids <->
                  exists line, In line lines /\ field_key column line = k)
    /\ Sorted (fun a b => String.ltb a b = true) ids
    /\ out = flat_map (group column lines) ids
    /\ forall k, group column out k = group column lines k.
Proof.
  intros Hall Hne Hnul Hfields.
  set (ids := sorted_set (map (field_key column) lines)).
  assert (Hin : forall k, In k ids <->
                          exists line, In line lines /\ field_key column line = k).
  { intros k. unfold ids. rewrite sorted_set_In, in_map_iff.
    split; intros (line & H1 & H2); exists line; auto. }
  exists ids, (flat_map (group column lines) ids).
  split; [now apply sort_and_cat_run|].
  split.
  { etransitivity; [apply groups_perm, sorted_set_NoDup|].
    rewrite filter_all; [reflexivity|].
    intros line Hline. apply existsb_exists.
    exists (field_key column line). split; [|apply String.eqb_refl].
    apply Hin. eauto. }
  split; [exact Hin|].
  split; [apply sorted_set_ascending|].
  split; [reflexivity|].
  intros k. apply groups_stable; [apply sorted_set_NoDup|].
  intros line Hline. apply Hin. eauto.
Qed.

Example sort_and_cat_interleaved :
  sort_and_cat example_files ["a.rttm"; "b.rttm"] 1
  = Ok [("SPEAKER r1 0 0.000 2.000 <NA> <NA> 1 <NA> <NA>" ++ LF)%string;
        ("SPEAKER r1 0 2.000 1.500 <NA> <NA> 0 <NA> <NA>" ++ LF)%string;
        ("SPEAKER r2 0 0.000 1.000 <NA> <NA> 0 <NA> <NA>" ++ LF)%string;
        ("SPEAKER r2 0 1.000 0.500 <NA> <NA> 1 <NA> <NA>" ++ LF)%string].
Proof. vm_compute. reflexivity. Qed.

Lemma sort_and_cat_groups_witness :
  exists ids out,
    sort_and_cat example_files ["a.rttm"; "b.rttm"] 1 = Ok out
    /\ Permutation out
         [("SPEAKER r2 0 0.000 1.000 <NA> <NA> 0 <NA> <NA>" ++ LF)%string;
          ("SPEAKER r1 0 0.000 2.000 <NA> <NA> 1 <NA> <NA>" ++ LF)%string;
          ("SPEAKER r1 0 2.000 1.500 <NA> <NA> 0 <NA> <NA>" ++ LF)%string;
          ("SPEAKER r2 0 1.000 0.500 <NA> <NA> 1 <NA> <NA>" ++ LF)%string]
    /\ (forall k, In k ids <->
                  exists line,
                    In line
                      [("SPEAKER r2 0 0.000 1.000 <NA> <NA> 0 <NA> <NA>" ++ LF)%string;
                       ("SPEAKER r1 0 0.000 2.000 <NA> <NA> 1 <NA> <NA>" ++ LF)%string;
                       ("SPEAKER r1 0 2.000 1.500 <NA> <NA> 0 <NA> <NA>" ++ LF)%string;
                       ("SPEAKER r2 0 1.000 0.500 <NA> <NA> 1 <NA> <NA>" ++ LF)%string]
                    /\ field_key 1 line = k)
    /\ Sorted (fun a b => String.ltb a b = true) ids
    /\ out = flat_map
               (group 1
                  [("SPEAKER r2 0 0.000 1.000 <NA> <NA> 0 <NA> <NA>" ++ LF)%string;
                   ("SPEAKER r1 0 0.000 2.000 <NA> <NA> 1 <NA> <NA>" ++ LF)%string;
                   ("SPEAKER r1 0 2.000 1.500 <NA> <NA> 0 <NA> <NA>" ++ LF)%string;
                   ("SPEAKER r2 0 1.000 0.500 <NA> <NA> 1 <NA> <NA>" ++ LF)%string])
               ids
    /\ forall k,
         group 1 out k
         = group 1
             [("SPEAKER r2 0 0.000 1.000 <NA> <NA> 0 <NA> <NA>" ++ LF)%string;
              ("SPEAKER r1 0 0.000 2.000 <NA> <NA> 1 <NA> <NA>" ++ LF)%string;
              ("SPEAKER r1 0 2.000 1.500 <NA> <NA> 0 <NA> <NA>" ++ LF)%string;
              ("SPEAKER r2 0 1.000 0.500 <NA> <NA> 1 <NA> <NA>" ++ LF)%string]
             k.
Proof.
  apply (sort_and_cat_groups example_files ["a.rttm"; "b.rttm"] 1).
  - reflexivity.
  - discriminate.
  - intros line [<- | [<- | [<- | [<- | []]]]]; reflexivity.
  - intros line [<- | [<- | [<- | [<- | []]]]]; vm_compute; lia.
Defined.

(** NUL characters at the end of a key do not tell keys apart: the keys
    [b] followed by a NUL and [b] form one group, in input order, where
    the fields of the lines differ. *)
Example sort_and_cat_trailing_nul :
  sort_and_cat example_nul_files ["nul.rttm"] 0
  = Ok [("a 3" ++ LF)%string;
        String "b"%char (String "000"%char (" 1" ++ LF)%string);
        ("b 2" ++ LF)%string]
  /\ field_key 0 (String "b"%char (String "000"%char (" 1" ++ LF)%string))
     <> field_key 0 ("b 2" ++ LF)%string.
Proof. split; [vm_compute; reflexivity|discriminate]. Qed.

(** C9 as stated fails in three ways.  With no input file the aggregator
    raises instead of returning no line.  A line with no field at the key
    index makes it raise.  And the key is the field between single
    spaces: after two spaces it is the empty field, so the line of
    recording [rb] is emitted before the line of [ra], against the order
    of the whitespace-delimited fields. *)
Lemma sort_and_cat_differs_from_whitespace_grouping :
  sort_and_cat example_spaced_files [] 1 = Raise IndexError
  /\ sort_and_cat example_spaced_files ["short.rttm"] 1 = Raise IndexError
  /\ sort_and_cat example_spaced_files ["spaced.rttm"] 1
     = Ok [("SPEAKER  rb 0" ++ LF)%string; ("SPEAKER ra 0" ++ LF)%string]
  /\ nth 1 (split_whitespace EmptyString ("SPEAKER  rb 0" ++ LF)) EmptyString = "rb"
  /\ nth 1 (split_whitespace EmptyString ("SPEAKER ra 0" ++ LF)) EmptyString = "ra"
  /\ String.ltb "ra" "rb" = true.
Proof. repeat split. Qed.

(** ** More on the spectral estimator *)

Section Selection.

Local Open Scope nat_scope.

Lemma mask_rows_map {A B} (g : A -> B) (mask : list bool) :
  forall l, mask_rows mask (map g l) = map g (mask_rows mask l).
Proof.
  unfold mask_rows. induction mask as [|b mask IH]; intros [|x l];
    try reflexivity.
  cbn. destruct b; cbn; now rewrite IH.
Qed.

Lemma length_mask_rows {A B} (mask : list bool) :
  forall (l : list A) (l' : list B),
    length l = length l' ->
    length (mask_rows mask l) = length (mask_rows mask l').
Proof.
  unfold mask_rows. induction mask as [|b mask IH]; intros [|x l] [|y l'] H;
    try reflexivity; try discriminate.
  injection H as H. cbn. destruct b; cbn; now rewrite (IH l l').
Qed.

Lemma mask_rows_filter {A} (p : A -> bool) (l : list A) :
  mask_rows (map p l) l = filter p l.
Proof.
  unfold mask_rows. induction l as [|x l IH]; [reflexivity|].
  cbn. destruct (p x); cbn; now rewrite IH.
Qed.

Lemma length_selected (beta : float) (eigvals : list complex) {A} (l : list A) :
  length l = length eigvals ->
  length (mask_rows (map (selected beta) eigvals) l)
  = clusters_requested beta eigvals.
Proof.
  intros H. rewrite (length_mask_rows _ l eigvals H).
  unfold clusters_requested. now rewrite mask_rows_filter.
Qed.

Variable c : nat.
Variable mask : list bool.
Variable R : matrix.
Hypothesis R_rows : Forall (fun r => length r = c) R.
Hypothesis R_not_empty : R <> [].

(** The rows the mask keeps among the columns of [R]. *)
Lemma mask_columns :
  mask_rows mask (np_T R)
  = map (fun j => column j R) (mask_rows mask (seq 0 c)).
Proof.
  unfold np_T, transpose, ncols. rewrite mask_rows_map.
  destruct R as [|r R']; [contradiction|].
  apply Forall_cons_iff in R_rows as [Hr _]. cbn [hd]. now rewrite Hr.
Qed.

Lemma mask_row (r : vector) :
  length r = c ->
  mask_rows mask r = map (fun j => nth j r 0%float) (mask_rows mask (seq 0 c)).
Proof.
  intros Hr. rewrite <- mask_rows_map, <- Hr.
  rewrite <- (map_nth_seq (fun x => x) r 0%float). now rewrite map_id.
Qed.

(** Masking the columns of [R], seen again row by row, masks every row,
    also when the mask keeps no column. *)
Lemma np_T_mask_np_T :
  transpose (nrows R) (mask_rows mask (np_T R)) = map (mask_rows mask) R.
Proof.
  rewrite mask_columns. unfold transpose, nrows.
  rewrite (map_nth_seq (mask_rows mask) R []).
  apply map_ext_in. intros i Hi. apply in_seq in Hi.
  assert (Hrow : length (nth i R []) = c).
  { rewrite Forall_forall in R_rows. apply R_rows, nth_In. lia. }
  rewrite (mask_row _ Hrow).
  unfold column at 1. rewrite map_map.
  apply map_ext. intros j. unfold column.
  now rewrite (nth_map_in _ R i _ []) by lia.
Qed.

End Selection.

Section ClusterCount.

Context {libs : Libraries}.

(** What K-means is asked when at least one eigenvalue is kept. *)
Lemma spectral_clustering_selection (h : heap) (a : nat) (beta : float)
  (enhanced : matrix) (eigvals : list complex) (eigvecs : list (list complex)) :
  sim_enhancement (nth a h []) = Ok enhanced ->
  eig (laplacian (with_diagonal 0 enhanced)) = Ok (eigvals, eigvecs) ->
  eigvecs <> [] ->
  Forall (fun row => length row = length eigvals) eigvecs ->
  (0 < clusters_requested beta eigvals)%nat ->
  fst (spectral_clustering a beta h)
  = KMeans_fit_predict (clusters_requested beta eigvals)
      (embedding beta eigvals eigvecs).
Proof.
  intros Hen Heig Hne Hrows Hk.
  destruct (spectral_clustering_enhanced a beta h enhanced Hen) as (y & _ & ->).
  cbn zeta. rewrite Heig. cbn [fst snd].
  set (kmask := map (selected beta) eigvals).
  replace (map (fun x => (x <? beta)%float) (np_real eigvals)) with kmask
    by (unfold kmask, np_real; now rewrite map_map).
  assert (HR : Forall (fun r : vector => length r = length eigvals)
                 (map np_real eigvecs)).
  { apply Forall_map. eapply Forall_impl; [|exact Hrows].
    cbn beta. intros row Hrow. unfold np_real. now rewrite length_map. }
  assert (HRne : map np_real eigvecs <> [])
    by (destruct eigvecs; [contradiction|discriminate]).
  rewrite (np_T_mask_np_T (length eigvals) kmask _ HR HRne).
  rewrite map_map. fold (embedding beta eigvals eigvecs).
  f_equal. unfold shape1, embedding.
  destruct eigvecs as [|row rows]; [contradiction|]. cbn [map hd].
  apply Forall_cons_iff in Hrows as [Hrow _].
  apply length_selected. unfold np_real. now rewrite length_map.
Qed.

Lemma filter_length_le {A} (p q : A -> bool) (l : list A) :
  (forall x, p x = true -> q x = true) ->
  (length (filter p l) <= length (filter q l))%nat.
Proof.
  intros H. induction l as [|x l IH]; [constructor|].
  cbn. destruct (p x) eqn:Hp.
  - rewrite (H x Hp). cbn. lia.
  - destruct (q x); cbn; lia.
Qed.

Lemma selected_monotone (beta1 beta2 : float) (ev : complex) :
  (beta1 <=? beta2)%float = true ->
  selected beta1 ev = true -> selected beta2 ev = true.
Proof. intros H H1. apply (F64Order.ltb_leb_trans _ beta1); assumption. Qed.

End ClusterCount.

(** X12: when the eigenvector matrix has a row and as many columns as
    there are eigenvalues, and at least one eigenvalue has a real part
    below [beta], the spectral estimator asks K-means for as many
    clusters as there are such eigenvalues, and hands it, for every row,
    the real parts of the components along the kept eigenvectors; what
    K-means answers is the estimator's result. *)
Theorem spectral_clustering_cluster_count {libs : Libraries}
  (h : heap) (S : nat) (beta : float) (enhanced : matrix)
  (eigvals : list complex) (eigvecs : list (list complex)) :
  sim_enhancement (nth S h []) = Ok enhanced ->
  eig (laplacian (with_diagonal 0 enhanced)) = Ok (eigvals, eigvecs) ->
  eigvecs <> [] ->
  Forall (fun row => length row = length eigvals) eigvecs ->
  (0 < clusters_requested beta eigvals)%nat ->
  fst (spectral_clustering S beta h)
  = KMeans_fit_predict (clusters_requested beta eigvals)
      (embedding beta eigvals eigvecs).
Proof. apply spectral_clustering_selection. Qed.

Lemma spectral_clustering_cluster_count_witness :
  fst (spectral_clustering (libs := example_libraries) 0 1 [[[1%float]]])
  = KMeans_fit_predict (Libraries := example_libraries)
      (clusters_requested 1 [{| re := 0; im := 0 |}])
      (embedding 1 [{| re := 0; im := 0 |}] [[{| re := 1; im := 0 |}]]).
Proof.
  apply (spectral_clustering_cluster_count (libs := example_libraries)
           [[[1%float]]] 0 1 [[1%float]]).
  - reflexivity.
  - reflexivity.
  - discriminate.
  - repeat constructor.
  - vm_compute. lia.
Defined.

(** X13: raising the threshold never lowers the number of clusters: with
    [beta1 <= beta2], every eigenvalue kept under [beta1] is kept under
    [beta2], so the estimator run with [beta2] asks K-means for at least
    as many clusters as the one run with [beta1]. *)
Theorem spectral_clustering_beta_monotone {libs : Libraries}
  (h : heap) (S : nat) (beta1 beta2 : float) (enhanced : matrix)
  (eigvals : list complex) (eigvecs : list (list complex)) :
  sim_enhancement (nth S h []) = Ok enhanced ->
  eig (laplacian (with_diagonal 0 enhanced)) = Ok (eigvals, eigvecs) ->
  eigvecs <> [] ->
  Forall (fun row => length row = length eigvals) eigvecs ->
  (0 < clusters_requested beta1 eigvals)%nat ->
  (beta1 <=? beta2)%float = true ->
  fst (spectral_clustering S beta1 h)
  = KMeans_fit_predict (clusters_requested beta1 eigvals)
      (embedding beta1 eigvals eigvecs)
  /\ fst (spectral_clustering S beta2 h)
     = KMeans_fit_predict (clusters_requested beta2 eigvals)
         (embedding beta2 eigvals eigvecs)
  /\ (clusters_requested beta1 eigvals <= clusters_requested beta2 eigvals)%nat
  /\ forall ev, In ev eigvals -> selected beta1 ev = true -> selected beta2 ev = true.
Proof.
  intros Hen Heig Hne Hrows Hk Hle.
  assert (Hmono : (clusters_requested beta1 eigvals
                   <= clusters_requested beta2 eigvals)%nat).
  { apply filter_length_le. intros ev. now apply selected_monotone. }
  split; [now apply (spectral_clustering_selection h S beta1 enhanced)|].
  split; [apply (spectral_clustering_selection h S beta2 enhanced);
          try assumption; lia|].
  split; [exact Hmono|].
  intros ev _. now apply selected_monotone.
Qed.

Lemma spectral_clustering_beta_monotone_witness :
  fst (spectral_clustering (libs := example_libraries) 0 1 [[[1%float]]])
  = KMeans_fit_predict (Libraries := example_libraries)
      (clusters_requested 1 [{| re := 0; im := 0 |}])
      (embedding 1 [{| re := 0; im := 0 |}] [[{| re := 1; im := 0 |}]])
  /\ fst (spectral_clustering (libs := example_libraries) 0 2 [[[1%float]]])
     = KMeans_fit_predict (Libraries := example_libraries)
         (clusters_requested 2 [{| re := 0; im := 0 |}])
         (embedding 2 [{| re := 0; im := 0 |}] [[{| re := 1; im := 0 |}]])
  /\ (clusters_requested 1 [{| re := 0; im := 0 |}]
      <= clusters_requested 2 [{| re := 0; im := 0 |}])%nat
  /\ forall ev, In ev [{| re := 0; im := 0 |}] ->
                selected 1 ev = true -> selected 2 ev = true.
Proof.
  apply (spectral_clustering_beta_monotone (libs := example_libraries)
           [[[1%float]]] 0 1 2 [[1%float]]).
  - reflexivity.
  - reflexivity.
  - discriminate.
  - repeat constructor.
  - vm_compute. lia.
  - reflexivity.
Defined.

(** *** The order of strings *)

Lemma ascii_compare_refl (a : ascii) : Ascii.compare a a = Eq.
Proof. apply N.compare_refl. Qed.

Lemma ascii_compare_lt_trans (a b c : ascii) :
  Ascii.compare a b = Lt -> Ascii.compare b c = Lt -> Ascii.compare a c = Lt.
Proof.
  unfold Ascii.compare. rewrite !N.compare_lt_iff. apply N.lt_trans.
Qed.

Lemma string_compare_lt_trans (a : string) :
  forall b c,
    String.compare a b = Lt -> String.compare b c = Lt -> String.compare a c = Lt.
Proof.
  induction a as [|x a IH]; intros [|y b] [|z c]; cbn; try discriminate; auto.
  destruct (Ascii.compare x y) eqn:Exy; try discriminate;
    destruct (Ascii.compare y z) eqn:Eyz; try discriminate; intros Hab Hbc.
  - apply Ascii.compare_eq_iff in Exy, Eyz. subst.
    rewrite ascii_compare_refl. eauto.
  - apply Ascii.compare_eq_iff in Exy. subst. now rewrite Eyz.
  - apply Ascii.compare_eq_iff in Eyz. subst. now rewrite Exy.
  - now rewrite (ascii_compare_lt_trans x y z).
Qed.

Lemma string_ltb_trans (a b c : string) :
  String.ltb a b = true -> String.ltb b c = true -> String.ltb a c = true.
Proof.
  unfold String.ltb. intros Hab Hbc.
  destruct (String.compare a b) eqn:Eab; try discriminate.
  destruct (String.compare b c) eqn:Ebc; try discriminate.
  now rewrite (string_compare_lt_trans a b c).
Qed.

Lemma string_ltb_irrefl (a : string) : String.ltb a a = false.
Proof.
  unfold String.ltb. destruct (String.compare a a) eqn:E; try reflexivity.
  pose proof (String.compare_antisym a a) as H. rewrite E in H.
  cbn in H. discriminate.
Qed.

Lemma string_ltb_leb (a b : string) : String.ltb a b = true -> String.leb a b = true.
Proof.
  unfold String.ltb, String.leb. now destruct (String.compare a b).
Qed.

Lemma string_leb_refl (a : string) : String.leb a a = true.
Proof. destruct (String.leb_total a a); assumption. Qed.

(** The distinct keys are in strictly ascending order, each before all
    the later ones. *)
Lemma sorted_set_strongly keys :
  StronglySorted (fun a b => String.ltb a b = true) (sorted_set keys).
Proof.
  apply Sorted_StronglySorted; [|apply sorted_set_ascending].
  intros a b c. apply string_ltb_trans.
Qed.

(** Two strictly ascending lists with the same elements are equal. *)
Lemma strictly_sorted_unique (l1 : list string) :
  forall l2,
    StronglySorted (fun a b => String.ltb a b = true) l1 ->
    StronglySorted (fun a b => String.ltb a b = true) l2 ->
    (forall x, In x l1 <-> In x l2) ->
    l1 = l2.
Proof.
  induction l1 as [|a l1 IH]; intros [|b l2] H1 H2 Hin.
  - reflexivity.
  - exfalso. apply (proj2 (Hin b)). now left.
  - exfalso. apply (proj1 (Hin a)). now left.
  - apply StronglySorted_inv in H1 as [H1 Ha].
    apply StronglySorted_inv in H2 as [H2 Hb].
    rewrite Forall_forall in Ha, Hb.
    assert (Hab : a = b).
    { pose proof (proj1 (Hin a) (or_introl eq_refl)) as Ha2.
      pose proof (proj2 (Hin b) (or_introl eq_refl)) as Hb1.
      cbn [In] in Ha2, Hb1.
      destruct Ha2 as [Heq|Ha2]; [now symmetry|].
      destruct Hb1 as [Heq|Hb1]; [assumption|].
      pose proof (string_ltb_trans a b a (Ha b Hb1) (Hb a Ha2)) as Hc.
      rewrite string_ltb_irrefl in Hc. discriminate. }
    subst b. f_equal. apply IH; try assumption.
    intros x. split; intros Hx.
    + pose proof (proj1 (Hin x) (or_intror Hx)) as Hx2. cbn [In] in Hx2.
      destruct Hx2 as [Heq|]; [|assumption]. subst x.
      specialize (Ha a Hx). rewrite string_ltb_irrefl in Ha. discriminate.
    + pose proof (proj2 (Hin x) (or_intror Hx)) as Hx1. cbn [In] in Hx1.
      destruct Hx1 as [Heq|]; [|assumption]. subst x.
      specialize (Hb a Hx). rewrite string_ltb_irrefl in Hb. discriminate.
Qed.

Lemma sorted_set_ext keys keys' :
  (forall k, In k keys <-> In k keys') -> sorted_set keys = sorted_set keys'.
Proof.
  intros H. apply strictly_sorted_unique; try apply sorted_set_strongly.
  intros x. now rewrite !sorted_set_In.
Qed.

(** *** When the aggregator fails *)

Lemma read_files_raise (fs : file_system) (rttms : list string) (err : exn) :
  fold_left (read_file fs) rttms (Raise err) = Raise err.
Proof. induction rttms as [|f rttms IH]; [reflexivity|exact IH]. Qed.

(** Reading stops at the first file that cannot be read, with its
    exception. *)
Lemma read_files_failure (fs : file_system) (rttms : list string) (err : exn) :
  forall read,
    first_failure fs rttms = Some err ->
    fold_left (read_file fs) rttms (Ok read) = Raise err.
Proof.
  induction rttms as [|f rttms IH]; intros read H; cbn in H; [discriminate|].
  cbn [fold_left]. unfold read_file at 2. cbn [rbind].
  destruct (fs f) as [ls|ex] eqn:Ef.
  - now apply IH.
  - injection H as <-. apply read_files_raise.
Qed.

Lemma first_failure_none (fs : file_system) (rttms : list string) :
  first_failure fs rttms = None <-> exists lines, all_lines fs rttms = Some lines.
Proof.
  induction rttms as [|f rttms IH]; cbn.
  - split; [eauto|reflexivity].
  - destruct (fs f) as [ls|ex].
    + rewrite IH. destruct (all_lines fs rttms) as [more|].
      * split; eauto.
      * split; [intros (lines & H)|intros (lines & H)]; discriminate.
    + split; [discriminate|intros (lines & H); discriminate].
Qed.

Lemma fold_min_below (l : list nat) :
  forall a, (fold_left Nat.min l a <= a)%nat
            /\ Forall (fun x => (fold_left Nat.min l a <= x)%nat) l.
Proof.
  induction l as [|x l IH]; intros a; cbn [fold_left]; [split; [lia|constructor]|].
  destruct (IH (Nat.min a x)) as [H1 H2]. split; [lia|].
  constructor; [lia|exact H2].
Qed.

(** The table has a column at an index only when every line has a field
    there, and there is a line. *)
Lemma zip_star_column_inv (column : nat) (data : list (list string)) keys :
  nth_error (zip_star data) column = Some keys ->
  data <> [] /\ Forall (fun r => (column < length r)%nat) data.
Proof.
  destruct data as [|row rows]; [now destruct column|].
  unfold zip_star. set (width := fold_left Nat.min _ _). intros H.
  assert (Hw : (column < width)%nat).
  { assert (Hs : nth_error (map (fun k => map (fun r => nth k r EmptyString)
                                              (row :: rows)) (seq 0 width)) column
                 <> None) by (rewrite H; discriminate).
    apply nth_error_Some in Hs. now rewrite length_map, length_seq in Hs. }
  split; [discriminate|].
  destruct (fold_min_below (map (fun r => length r) rows) (length row)) as [H1 H2].
  fold width in H1, H2. constructor; [lia|].
  rewrite Forall_map in H2. eapply Forall_impl; [|exact H2].
  cbn beta. intros r Hr. lia.
Qed.

Lemma zip_star_column_none (column : nat) (data : list (list string)) :
  data = [] \/ Exists (fun r => (length r <= column)%nat) data ->
  nth_error (zip_star data) column = None.
Proof.
  intros H. destruct (nth_error (zip_star data) column) as [keys|] eqn:E;
    [|reflexivity].
  apply zip_star_column_inv in E as [Hne Hall]. destruct H as [H|H];
    [contradiction|].
  apply Exists_exists in H as (r & Hin & Hr).
  rewrite Forall_forall in Hall. specialize (Hall r Hin). lia.
Qed.

Lemma short_line_dec (column : nat) (lines : list string) :
  (forall line, In line lines ->
                (column < length (split_on " " (strip line)))%nat)
  \/ exists line, In line lines
                  /\ (length (split_on " " (strip line)) <= column)%nat.
Proof.
  induction lines as [|l lines [IH|(line & Hin & Hl)]].
  - left. intros line [].
  - destruct (Nat.lt_ge_cases column (length (split_on " " (strip l)))) as [H|H].
    + left. intros line [<-|Hin]; auto.
    + right. exists l. split; [now left|assumption].
  - right. exists line. split; [now right|assumption].
Qed.

Lemma sort_and_cat_index_error fs rttms column lines :
  all_lines fs rttms = Some lines ->
  lines = []
  \/ (exists line, In line lines
                   /\ (length (split_on " " (strip line)) <= column)%nat) ->
  sort_and_cat fs rttms column = Raise IndexError.
Proof.
  intros Hall H. unfold sort_and_cat.
  rewrite (read_files fs rttms lines) by assumption. cbn [rbind fst snd app].
  rewrite nth_error_map, zip_star_column_none; [reflexivity|].
  destruct H as [->|(line & Hin & Hl)]; [now left|right].
  apply Exists_exists. exists (split_on " " (strip line)).
  split; [|assumption]. apply in_map_iff. eauto.
Qed.

Lemma sort_and_cat_failure fs rttms column err :
  first_failure fs rttms = Some err ->
  sort_and_cat fs rttms column = Raise err.
Proof.
  intros H. unfold sort_and_cat. now rewrite (read_files_failure fs rttms err).
Qed.

(** A returned list comes from files that hold a line and whose every
    line has the key field. *)
Lemma sort_and_cat_inv fs rttms column lines out :
  all_lines fs rttms = Some lines ->
  (forall line, In line lines -> no_nul line = true) ->
  sort_and_cat fs rttms column = Ok out ->
  lines <> []
  /\ (forall line, In line lines ->
                   (column < length (split_on " " (strip line)))%nat)
  /\ out = flat_map (group column lines)
             (sorted_set (map (field_key column) lines)).
Proof.
  intros Hall Hnul H. destruct lines as [|l lines].
  { rewrite (sort_and_cat_index_error fs rttms column []) in H; auto.
    discriminate. }
  destruct (short_line_dec column (l :: lines)) as [Hok|Hshort].
  - rewrite (sort_and_cat_run fs rttms column (l :: lines)) in H;
      [|assumption|discriminate|assumption|assumption].
    injection H as <-. repeat split; [discriminate|assumption].
  - rewrite (sort_and_cat_index_error fs rttms column (l :: lines)) in H; auto.
    discriminate.
Qed.

(** What the aggregator returns does not fail. *)
Lemma sort_and_cat_ok_or_index fs rttms column lines :
  all_lines fs rttms = Some lines ->
  (exists out, sort_and_cat fs rttms column = Ok out)
  \/ sort_and_cat fs rttms column = Raise IndexError.
Proof.
  intros Hall. unfold sort_and_cat.
  rewrite (read_files fs rttms lines) by assumption. cbn [rbind fst snd app].
  destruct (nth_error _ column); eauto.
Qed.

(** X5: the aggregator raises the exception of the first file that
    cannot be opened or read, whatever it is; when every file is read it
    raises [IndexError] exactly when the files hold no line at all or
    hold a line that, stripped and split at single spaces, has no field
    at the key index; it raises nothing else, and otherwise returns a
    list. *)
Theorem sort_and_cat_failures (fs : file_system) (rttms : list string)
  (column : nat) :
  (forall err, first_failure fs rttms = Some err ->
               sort_and_cat fs rttms column = Raise err)
  /\ (first_failure fs rttms = None ->
      (sort_and_cat fs rttms column = Raise IndexError
       <-> exists lines,
             all_lines fs rttms = Some lines
             /\ (lines = []
                 \/ exists line,
                      In line lines
                      /\ (length (split_on " " (strip line)) <= column)%nat)))
  /\ (forall err, sort_and_cat fs rttms column = Raise err ->
                  first_failure fs rttms = Some err
                  \/ (first_failure fs rttms = None /\ err = IndexError))
  /\ ((exists out, sort_and_cat fs rttms column = Ok out)
      <-> exists lines,
            all_lines fs rttms = Some lines
            /\ lines <> []
            /\ forall line, In line lines ->
                            (column < length (split_on " " (strip line)))%nat).
Proof.
  split; [intros err; apply sort_and_cat_failure|].
  destruct (first_failure fs rttms) as [ex|] eqn:Efail.
  { rewrite (sort_and_cat_failure fs rttms column ex Efail).
    assert (Hnone : forall lines, all_lines fs rttms <> Some lines).
    { intros lines Hl.
      assert (Hn : first_failure fs rttms = None)
        by (apply first_failure_none; eauto).
      congruence. }
    split; [discriminate|]. split; [intros err [= <-]; now left|].
    split; [intros (out & H); discriminate|].
    intros (lines & Hl & _). now apply Hnone in Hl. }
  destruct (proj1 (first_failure_none fs rttms) Efail) as (lines & Hall).
  assert (Hcases :
      (lines = []
       \/ exists line, In line lines
                       /\ (length (split_on " " (strip line)) <= column)%nat)
      \/ (lines <> []
          /\ forall line, In line lines ->
                          (column < length (split_on " " (strip line)))%nat)).
  { destruct lines as [|l lines]; [now left; left|].
    destruct (short_line_dec column (l :: lines)) as [Hok|Hshort].
    - right. split; [discriminate|assumption].
    - left. now right. }
  destruct Hcases as [Hbad|[Hne Hok]].
  - rewrite (sort_and_cat_index_error fs rttms column lines) by assumption.
    split; [intros _; split; eauto|].
    split; [intros err [= <-]; now right|].
    split; [intros (out & H); discriminate|].
    intros (lines' & Hl & Hne & Hok). rewrite Hall in Hl. injection Hl as <-.
    destruct Hbad as [->|(line & Hin & Hl)]; [contradiction|].
    specialize (Hok line Hin). lia.
  - assert (Hret : exists out, sort_and_cat fs rttms column = Ok out).
    { destruct (sort_and_cat_ok_or_index fs rttms column lines Hall)
        as [Hout|Herr]; [exact Hout|].
      exfalso. unfold sort_and_cat in Herr.
      rewrite (read_files fs rttms lines) in Herr by assumption.
      cbn [rbind fst snd app] in Herr.
      rewrite nth_error_map, zip_star_column in Herr; [discriminate| |].
      - destruct lines; [contradiction|discriminate].
      - apply Forall_map, Forall_forall. exact Hok. }
    destruct Hret as (out & Hout). rewrite Hout.
    split.
    { intros _. split; [discriminate|].
      intros (lines' & Hl & Hbad). rewrite Hall in Hl. injection Hl as <-.
      destruct Hbad as [->|(line & Hin & Hl)]; [contradiction|].
      specialize (Hok line Hin). lia. }
    split; [discriminate|]. split; eauto.
Qed.

(** *** The order of the returned lines *)

Lemma StronglySorted_app {A} (R : A -> A -> Prop) (l1 l2 : list A) :
  StronglySorted R l1 -> StronglySorted R l2 ->
  (forall x y, In x l1 -> In y l2 -> R x y) ->
  StronglySorted R (l1 ++ l2).
Proof.
  induction l1 as [|a l1 IH]; intros H1 H2 H12; [exact H2|].
  apply StronglySorted_inv in H1 as [H1 Ha]. cbn. constructor.
  - apply IH; [assumption..|]. intros x y Hx Hy. apply H12; [now right|assumption].
  - apply Forall_app. split; [assumption|].
    apply Forall_forall. intros y Hy. apply H12; [now left|assumption].
Qed.

Lemma group_same_key (column : nat) (lines : list string) (k : string) :
  StronglySorted
    (fun a b => String.leb (field_key column a) (field_key column b) = true)
    (group column lines k).
Proof.
  assert (H : Forall (fun line => field_key column line = k) (group column lines k)).
  { apply Forall_forall. intros line Hin. apply filter_In in Hin as [_ Hk].
    now apply String.eqb_eq. }
  induction H as [|line l Hk Hl IH]; constructor; [exact IH|].
  eapply Forall_impl; [|exact Hl]. cbn beta. intros b ->. rewrite Hk.
  apply string_leb_refl.
Qed.

Lemma groups_key_sorted (column : nat) (lines ids : list string) :
  StronglySorted (fun a b => String.ltb a b = true) ids ->
  StronglySorted
    (fun a b => String.leb (field_key column a) (field_key column b) = true)
    (flat_map (group column lines) ids).
Proof.
  induction 1 as [|k ids Hs IH Hk]; cbn [flat_map]; [constructor|].
  apply StronglySorted_app; [apply group_same_key|exact IH|].
  intros x y Hx Hy. apply filter_In in Hx as [_ Hx]. apply String.eqb_eq in Hx.
  apply in_flat_map in Hy as (k' & Hk' & Hy). apply filter_In in Hy as [_ Hy].
  apply String.eqb_eq in Hy. rewrite Hx, Hy. apply string_ltb_leb.
  rewrite Forall_forall in Hk. now apply Hk.
Qed.

(** X6: when no line of the files holds a NUL character, whatever list
    the aggregator returns is ordered by the key field: the key of a line
    is never greater, in the code-point order of strings, than the key of
    any line after it. *)
Theorem sort_and_cat_keys_ascend (fs : file_system) (rttms : list string)
  (column : nat) (lines out : list string) :
  all_lines fs rttms = Some lines ->
  (forall line, In line lines -> no_nul line = true) ->
  sort_and_cat fs rttms column = Ok out ->
  StronglySorted
    (fun a b => String.leb (field_key column a) (field_key column b) = true)
    out.
Proof.
  intros Hall Hnul H.
  apply (sort_and_cat_inv fs rttms column lines) in H as (_ & _ & ->);
    [|assumption..].
  apply groups_key_sorted, sorted_set_strongly.
Qed.

Lemma sort_and_cat_keys_ascend_witness :
  StronglySorted
    (fun a b => String.leb (field_key 1 a) (field_key 1 b) = true)
    [("SPEAKER r1 0 0.000 2.000 <NA> <NA> 1 <NA> <NA>" ++ LF)%string;
     ("SPEAKER r1 0 2.000 1.500 <NA> <NA> 0 <NA> <NA>" ++ LF)%string;
     ("SPEAKER r2 0 0.000 1.000 <NA> <NA> 0 <NA> <NA>" ++ LF)%string;
     ("SPEAKER r2 0 1.000 0.500 <NA> <NA> 1 <NA> <NA>" ++ LF)%string].
Proof.
  apply (sort_and_cat_keys_ascend example_files ["a.rttm"; "b.rttm"] 1
           [("SPEAKER r2 0 0.000 1.000 <NA> <NA> 0 <NA> <NA>" ++ LF)%string;
            ("SPEAKER r1 0 0.000 2.000 <NA> <NA> 1 <NA> <NA>" ++ LF)%string;
            ("SPEAKER r1 0 2.000 1.500 <NA> <NA> 0 <NA> <NA>" ++ LF)%string;
            ("SPEAKER r2 0 1.000 0.500 <NA> <NA> 1 <NA> <NA>" ++ LF)%string]).
  - reflexivity.
  - intros line [<- | [<- | [<- | [<- | []]]]]; reflexivity.
  - vm_compute. reflexivity.
Defined.

(** With a NUL at the end of a key the order can fail: the keys [b]
    followed by a NUL and [b] are one group, in input order, and the
    first is greater than the second. *)
Example sort_and_cat_nul_keys_descend :
  sort_and_cat example_nul_files ["nul.rttm"] 0
  = Ok [("a 3" ++ LF)%string;
        String "b"%char (String "000"%char (" 1" ++ LF)%string);
        ("b 2" ++ LF)%string]
  /\ String.leb
       (field_key 0 (String "b"%char (String "000"%char (" 1" ++ LF)%string)))
       (field_key 0 ("b 2" ++ LF)%string) = false.
Proof. split; vm_compute; reflexivity. Qed.

Lemma groups_cover (column : nat) (lines : list string) line :
  In line (flat_map (group column lines)
             (sorted_set (map (field_key column) lines)))
  <-> In line lines.
Proof.
  rewrite in_flat_map. split.
  - intros (k & _ & Hin). now apply filter_In in Hin.
  - intros Hin. exists (field_key column line). split.
    + apply sorted_set_In, in_map. assumption.
    + apply filter_In. split; [assumption|apply String.eqb_refl].
Qed.

Lemma all_lines_single (fs : file_system) (path : string) (lines : list string) :
  fs path = Ok lines -> all_lines fs [path] = Some lines.
Proof. intros H. cbn. rewrite H. now rewrite app_nil_r. Qed.

(** X7: aggregating is idempotent when no line of the files holds a NUL
    character: a file that reads as the lines the aggregator returned,
    aggregated alone on the same key index, gives the same lines in the
    same order. *)
Theorem sort_and_cat_idempotent (fs fs' : file_system) (rttms : list string)
  (column : nat) (lines out : list string) (path : string) :
  all_lines fs rttms = Some lines ->
  (forall line, In line lines -> no_nul line = true) ->
  sort_and_cat fs rttms column = Ok out ->
  fs' path = Ok out ->
  sort_and_cat fs' [path] column = Ok out.
Proof.
  intros Hall Hnul H Hpath.
  apply (sort_and_cat_inv fs rttms column lines) in H
    as (Hne & Hfields & Hout); [|assumption..].
  assert (Hin : forall line, In line out <-> In line lines)
    by (intros line; subst out; apply groups_cover).
  rewrite (sort_and_cat_run fs' [path] column out).
  - f_equal. rewrite Hout at 3.
    rewrite (sorted_set_ext (map (field_key column) out)
               (map (field_key column) lines)).
    + apply flat_map_ext. intros k. subst out.
      apply groups_stable; [apply sorted_set_NoDup|].
      intros line Hline. apply sorted_set_In, in_map. assumption.
    + intros k. rewrite !in_map_iff.
      split; intros (line & Hk & Hl); exists line; split; auto; now apply Hin.
  - now apply all_lines_single.
  - destruct lines as [|l lines]; [contradiction|].
    intros ->. apply (proj2 (Hin l)). now left.
  - intros line Hline. apply Hnul, Hin, Hline.
  - intros line Hline. apply Hfields, Hin, Hline.
Qed.

Lemma sort_and_cat_idempotent_witness :
  sort_and_cat
    (fun path =>
       if String.eqb path "all.rttm" then
         Ok [("SPEAKER r1 0 0.000 2.000 <NA> <NA> 1 <NA> <NA>" ++ LF)%string;
             ("SPEAKER r1 0 2.000 1.500 <NA> <NA> 0 <NA> <NA>" ++ LF)%string;
             ("SPEAKER r2 0 0.000 1.000 <NA> <NA> 0 <NA> <NA>" ++ LF)%string;
             ("SPEAKER r2 0 1.000 0.500 <NA> <NA> 1 <NA> <NA>" ++ LF)%string]
       else Raise FileNotFoundError)
    ["all.rttm"] 1
  = Ok [("SPEAKER r1 0 0.000 2.000 <NA> <NA> 1 <NA> <NA>" ++ LF)%string;
        ("SPEAKER r1 0 2.000 1.500 <NA> <NA> 0 <NA> <NA>" ++ LF)%string;
        ("SPEAKER r2 0 0.000 1.000 <NA> <NA> 0 <NA> <NA>" ++ LF)%string;
        ("SPEAKER r2 0 1.000 0.500 <NA> <NA> 1 <NA> <NA>" ++ LF)%string].
Proof.
  apply (sort_and_cat_idempotent example_files _ ["a.rttm"; "b.rttm"] 1
           [("SPEAKER r2 0 0.000 1.000 <NA> <NA> 0 <NA> <NA>" ++ LF)%string;
            ("SPEAKER r1 0 0.000 2.000 <NA> <NA> 1 <NA> <NA>" ++ LF)%string;
            ("SPEAKER r1 0 2.000 1.500 <NA> <NA> 0 <NA> <NA>" ++ LF)%string;
            ("SPEAKER r2 0 1.000 0.500 <NA> <NA> 1 <NA> <NA>" ++ LF)%string]
           _ "all.rttm").
  - reflexivity.
  - intros line [<- | [<- | [<- | [<- | []]]]]; reflexivity.
  - vm_compute. reflexivity.
  - reflexivity.
Defined.

(** X8: the aggregator sees only the sequence of lines: two lists of
    files that open to the same lines in the same order, however the
    lines are divided among the files, give the same result. *)
Theorem sort_and_cat_file_boundaries (fs fs' : file_system)
  (rttms rttms' : list string) (column : nat) (lines : list string) :
  all_lines fs rttms = Some lines ->
  all_lines fs' rttms' = Some lines ->
  sort_and_cat fs rttms column = sort_and_cat fs' rttms' column.
Proof.
  intros H H'. unfold sort_and_cat.
  now rewrite (read_files fs rttms lines), (read_files fs' rttms' lines).
Qed.

Lemma sort_and_cat_file_boundaries_witness :
  sort_and_cat example_files ["a.rttm"; "b.rttm"] 1
  = sort_and_cat
      (fun path =>
         if String.eqb path "one.rttm" then
           Ok [("SPEAKER r2 0 0.000 1.000 <NA> <NA> 0 <NA> <NA>" ++ LF)%string;
               ("SPEAKER r1 0 0.000 2.000 <NA> <NA> 1 <NA> <NA>" ++ LF)%string;
               ("SPEAKER r1 0 2.000 1.500 <NA> <NA> 0 <NA> <NA>" ++ LF)%string;
               ("SPEAKER r2 0 1.000 0.500 <NA> <NA> 1 <NA> <NA>" ++ LF)%string]
         else Raise FileNotFoundError)
      ["one.rttm"] 1.
Proof.
  apply (sort_and_cat_file_boundaries example_files _ ["a.rttm"; "b.rttm"]
           ["one.rttm"] 1
           [("SPEAKER r2 0 0.000 1.000 <NA> <NA> 0 <NA> <NA>" ++ LF)%string;
            ("SPEAKER r1 0 0.000 2.000 <NA> <NA> 1 <NA> <NA>" ++ LF)%string;
            ("SPEAKER r1 0 2.000 1.500 <NA> <NA> 0 <NA> <NA>" ++ LF)%string;
            ("SPEAKER r2 0 1.000 0.500 <NA> <NA> 1 <NA> <NA>" ++ LF)%string]).
  - reflexivity.
  - reflexivity.
Defined.

(** ** The serializer's lines as the aggregator reads them *)

Section SerializerFields.

Import PyFormat.

Lemma has_char_app (c : ascii) (a b : string) :
  has_char c (a ++ b) = has_char c a || has_char c b.
Proof.
  induction a as [|x a IH]; [reflexivity|].
  cbn. now rewrite IH, orb_assoc.
Qed.

Lemma split_on_not_nil (sep : ascii) (t : string) : split_on sep t <> [].
Proof.
  destruct t as [|c t]; cbn; [discriminate|].
  destruct (Ascii.eqb c sep); [discriminate|].
  destruct (split_on sep t); discriminate.
Qed.

Lemma split_on_whole (sep : ascii) (t : string) :
  has_char sep t = false -> split_on sep t = [t].
Proof.
  induction t as [|c t IH]; [reflexivity|].
  cbn. destruct (Ascii.eqb c sep); [discriminate|].
  cbn. intros H. now rewrite IH.
Qed.

Lemma split_on_field (sep : ascii) (field rest : string) :
  has_char sep field = false ->
  split_on sep (field ++ String sep rest) = field :: split_on sep rest.
Proof.
  induction field as [|c field IH]; cbn.
  - now rewrite Ascii.eqb_refl.
  - destruct (Ascii.eqb c sep); [discriminate|].
    cbn. intros H. now rewrite IH.
Qed.

(** Splitting at the separator undoes joining fields that do not hold it. *)
Lemma split_on_join (sep : ascii) (fields : list string) :
  fields <> [] ->
  Forall (fun field => has_char sep field = false) fields ->
  split_on sep (join sep fields) = fields.
Proof.
  induction fields as [|field fields IH]; intros Hne H; [contradiction|].
  apply Forall_cons_iff in H as [Hf H].
  destruct fields as [|field' fields].
  - now apply split_on_whole.
  - change (join sep (field :: field' :: fields))
      with (field ++ String sep (join sep (field' :: fields)))%string.
    rewrite split_on_field by assumption. f_equal.
    apply IH; [discriminate|assumption].
Qed.

Lemma append_not_empty (a b : string) : b <> EmptyString -> (a ++ b)%string <> EmptyString.
Proof. destruct a; [auto|discriminate]. Qed.

Lemma rstrip_app_keep (a b : string) :
  rstrip b <> EmptyString -> rstrip (a ++ b) = (a ++ rstrip b)%string.
Proof.
  intros Hb. induction a as [|c a IH]; [reflexivity|].
  cbn [append rstrip]. rewrite IH.
  pose proof (append_not_empty a (rstrip b) Hb) as Hne.
  now destruct (a ++ rstrip b)%string.
Qed.

Lemma string_append_assoc (a b c : string) :
  ((a ++ b) ++ c = a ++ (b ++ c))%string.
Proof. induction a as [|x a IH]; [reflexivity|]. cbn. now rewrite IH. Qed.

(** *** Printed numbers hold no white space and no NUL *)

Lemma eqb_not_space (c x : ascii) :
  blank c = true -> blank x = false -> Ascii.eqb x c = false.
Proof. intros Hc Hx. apply Ascii.eqb_neq. intros ->. congruence. Qed.

Lemma no_nul_has_char (t : string) : no_nul t = negb (has_char "000" t).
Proof.
  induction t as [|c t IH]; [reflexivity|].
  cbn [no_nul has_char]. now rewrite IH, negb_orb.
Qed.

Section NoSpace.

Variable c : ascii.
Hypothesis c_space : blank c = true.

Lemma uint_no_space (d : Decimal.uint) :
  has_char c (NilEmpty.string_of_uint d) = false.
Proof.
  induction d; cbn [NilEmpty.string_of_uint has_char]; try reflexivity;
    rewrite IHd, orb_false_r; now apply eqb_not_space.
Qed.

Lemma str_int_no_space (z : Z) : has_char c (str_int z) = false.
Proof.
  unfold str_int, NilZero.string_of_int.
  assert (Hu : forall d, has_char c (NilZero.string_of_uint d) = false).
  { intros d. unfold NilZero.string_of_uint.
    destruct d; try apply uint_no_space.
    cbn [has_char]. rewrite orb_false_r. now apply eqb_not_space. }
  destruct (Z.to_int z) as [d|d]; [apply Hu|].
  cbn [has_char]. rewrite Hu, orb_false_r. now apply eqb_not_space.
Qed.

Lemma digit_not_space (n : Z) : blank (digit (n mod 10)) = false.
Proof.
  pose proof (Z.mod_pos_bound n 10 ltac:(lia)) as H.
  assert (Hd : (n mod 10 = 0 \/ n mod 10 = 1 \/ n mod 10 = 2 \/ n mod 10 = 3
                \/ n mod 10 = 4 \/ n mod 10 = 5 \/ n mod 10 = 6
                \/ n mod 10 = 7 \/ n mod 10 = 8 \/ n mod 10 = 9)%Z) by lia.
  repeat (destruct Hd as [Hd|Hd]; [now rewrite Hd|]). now rewrite Hd.
Qed.

Lemma zero_padded_no_space (p : nat) :
  forall n, has_char c (zero_padded p n) = false.
Proof.
  induction p as [|p IH]; intros n; [reflexivity|].
  cbn [zero_padded]. rewrite has_char_app, IH. cbn [has_char orb].
  rewrite orb_false_r. apply eqb_not_space; [assumption|apply digit_not_space].
Qed.

Lemma point_digits_no_space (p : nat) (n : Z) :
  has_char c (point_digits p n) = false.
Proof.
  unfold point_digits. rewrite has_char_app, str_int_no_space.
  destruct p; [reflexivity|].
  rewrite has_char_app, zero_padded_no_space. cbn [has_char orb].
  rewrite !orb_false_r. now apply eqb_not_space.
Qed.

Lemma sign_str_no_space (sx : bool) : has_char c (sign_str sx) = false.
Proof.
  destruct sx; [|reflexivity]. cbn [sign_str has_char].
  rewrite orb_false_r. now apply eqb_not_space.
Qed.

Lemma format_fixed_no_space (p : nat) (x : float) :
  has_char c (format_fixed p x) = false.
Proof.
  unfold format_fixed.
  destruct (Prim2SF x) as [sx|sx| |sx m ex];
    rewrite ?has_char_app, ?sign_str_no_space, ?point_digits_no_space;
    try reflexivity; cbn [has_char orb];
    rewrite ?(eqb_not_space c "i"), ?(eqb_not_space c "n"),
      ?(eqb_not_space c "f"), ?(eqb_not_space c "a") by (assumption || reflexivity);
    reflexivity.
Qed.

End NoSpace.

Lemma rttm_line_stripped (rec_id : string) (en : entry) :
  strip (rttm_line rec_id en) = join " " (rttm_fields rec_id en).
Proof.
  unfold strip, rttm_line.
  set (f1 := format_fixed 3 (s en)).
  set (f2 := format_fixed 3 (e en - s en)).
  set (lab := str_int (id en)).
  replace ("SPEAKER " ++ rec_id ++ " 0 " ++ f1 ++ " " ++ f2 ++ " <NA> <NA> "
             ++ lab ++ " <NA> <NA>" ++ LF)%string
    with (("SPEAKER " ++ rec_id ++ " 0 " ++ f1 ++ " " ++ f2 ++ " <NA> <NA> "
             ++ lab) ++ (" <NA> <NA>" ++ LF))%string
    by now rewrite !string_append_assoc.
  rewrite rstrip_app_keep by (vm_compute; discriminate).
  replace (rstrip (" <NA> <NA>" ++ LF)) with " <NA> <NA>" by reflexivity.
  rewrite !string_append_assoc. reflexivity.
Qed.

Lemma rttm_fields_no_space (rec_id : string) (en : entry) :
  has_char " " rec_id = false ->
  Forall (fun field => has_char " " field = false) (rttm_fields rec_id en).
Proof.
  intros H. unfold rttm_fields.
  repeat constructor; try assumption;
    try apply (format_fixed_no_space " " eq_refl);
    apply (str_int_no_space " " eq_refl).
Qed.

Lemma one_line_app (a b : string) :
  has_char "010" a = false -> has_char "013" a = false ->
  one_line b = true -> one_line (a ++ b) = true.
Proof.
  induction a as [|c a IH]; intros Hn Hc Hb; [exact Hb|].
  cbn [has_char] in Hn, Hc.
  apply orb_false_iff in Hn as [Hn1 Hn2]. apply orb_false_iff in Hc as [Hc1 Hc2].
  cbn [append one_line]. destruct (a ++ b)%string eqn:E.
  - destruct a; cbn in E; [subst b; discriminate Hb|discriminate].
  - rewrite Hn1, Hc1. cbn [negb andb]. now apply IH.
Qed.

(** A line of the serializer is one line of text when the recording
    identifier holds no line break. *)
Lemma rttm_line_one_line (rec_id : string) (en : entry) :
  has_char "010" rec_id = false -> has_char "013" rec_id = false ->
  one_line (rttm_line rec_id en) = true.
Proof.
  intros Hn Hc. unfold rttm_line.
  repeat (apply one_line_app;
          [first [exact Hn | reflexivity
                 | apply (format_fixed_no_space "010" eq_refl)
                 | apply (str_int_no_space "010" eq_refl)]
          |first [exact Hc | reflexivity
                 | apply (format_fixed_no_space "013" eq_refl)
                 | apply (str_int_no_space "013" eq_refl)]
          |]).
  reflexivity.
Qed.

Lemma rttm_line_fields (rec_id : string) (en : entry) :
  has_char " " rec_id = false ->
  split_on " " (strip (rttm_line rec_id en)) = rttm_fields rec_id en.
Proof.
  intros Hid. rewrite rttm_line_stripped.
  apply split_on_join; [discriminate|now apply rttm_fields_no_space].
Qed.

Lemma rttm_line_key (rec_id : string) (en : entry) :
  has_char " " rec_id = false -> field_key 1 (rttm_line rec_id en) = rec_id.
Proof. intros Hid. unfold field_key. now rewrite rttm_line_fields. Qed.

(** A line of the serializer holds no NUL when the recording identifier
    holds none. *)
Lemma rttm_line_no_nul (rec_id : string) (en : entry) :
  no_nul rec_id = true -> no_nul (rttm_line rec_id en) = true.
Proof.
  rewrite !no_nul_has_char, !negb_true_iff. intros Hid. unfold rttm_line.
  rewrite !has_char_app, Hid, !(format_fixed_no_space "000" eq_refl),
    (str_int_no_space "000" eq_refl).
  reflexivity.
Qed.

Lemma plain_id_spec (rec_id : string) :
  plain_id rec_id = true ->
  has_char " " rec_id = false /\ has_char "010" rec_id = false
  /\ has_char "013" rec_id = false /\ no_nul rec_id = true.
Proof.
  unfold plain_id. intros H. apply andb_true_iff in H as [H H4].
  apply andb_true_iff in H as [H H3].
  apply andb_true_iff in H as [H1 H2].
  now rewrite negb_true_iff in H1, H2, H3.
Qed.

Lemma example_reader_opens (d : disk) : opens d (example_reader d).
Proof. intros path lines H. unfold example_reader. now rewrite H. Qed.

End SerializerFields.

(** X9: the aggregator reads back what the serializer wrote: for a
    recording identifier without a space, every line of the serializer,
    stripped and split at single spaces, has exactly the ten fields
    [SPEAKER], the identifier, [0], the start, the duration, two [<NA>],
    the label and two [<NA>]; so its key at index 1 is the recording
    identifier. *)
Theorem rttm_lines_split_back (entries : list entry) (rec_id : string)
  (lines : list string) :
  has_char " " rec_id = false ->
  rttm_lines_from_entries entries rec_id = Some lines ->
  Forall2 (fun en line => split_on " " (strip line) = rttm_fields rec_id en)
    entries lines
  /\ Forall (fun line => field_key 1 line = rec_id) lines.
Proof.
  intros Hid H. unfold rttm_lines_from_entries in H.
  rewrite rttm_loop in H. injection H as <-. cbn [app].
  assert (Hf : forall en, split_on " " (strip (rttm_line rec_id en))
                          = rttm_fields rec_id en)
    by (intros en; now apply rttm_line_fields).
  split.
  - induction entries as [|en entries IH]; constructor; auto.
  - apply Forall_map, Forall_forall. intros en _.
    unfold field_key. now rewrite Hf.
Qed.

Lemma rttm_lines_split_back_witness :
  Forall2 (fun en line => split_on " " (strip line) = rttm_fields "rec1" en)
    [{| s := 1.0; e := 2.5; id := 3 |}]
    [("SPEAKER rec1 0 1.000 1.500 <NA> <NA> 3 <NA> <NA>" ++ LF)%string]
  /\ Forall (fun line => field_key 1 line = "rec1")
       [("SPEAKER rec1 0 1.000 1.500 <NA> <NA> 3 <NA> <NA>" ++ LF)%string].
Proof.
  apply (rttm_lines_split_back [{| s := 1.0; e := 2.5; id := 3 |}] "rec1").
  - reflexivity.
  - vm_compute. reflexivity.
Defined.

(** ** Writing lines to a file *)

Section FileFacts.

Lemma put_same (path : string) (n : node) (d : disk) : put path n d path = n.
Proof. unfold put. now rewrite String.eqb_refl. Qed.

Lemma put_other (path p : string) (n : node) (d : disk) :
  p <> path -> put path n d p = d p.
Proof. intros H. unfold put. apply String.eqb_neq in H. now rewrite H. Qed.

Lemma write_loop (lines : list string) :
  forall text,
    fold_left (fun text line => (text ++ line)%string) lines text
    = (text ++ joined lines)%string.
Proof.
  induction lines as [|line lines IH]; intros text; cbn.
  - symmetry. induction text as [|c text IHt]; [reflexivity|].
    cbn. now rewrite IHt.
  - rewrite IH. apply string_append_assoc.
Qed.

Lemma joined_app (l1 l2 : list string) :
  joined (l1 ++ l2) = (joined l1 ++ joined l2)%string.
Proof.
  induction l1 as [|line l1 IH]; [reflexivity|].
  change (joined ((line :: l1) ++ l2)) with (line ++ joined (l1 ++ l2))%string.
  change (joined (line :: l1)) with (line ++ joined l1)%string.
  now rewrite IH, string_append_assoc.
Qed.

(** What writing lines to a file that can be opened does. *)
Lemma lines_to_file_run (lines : list string) (filename : string)
  (mode : wmode) (w : world) :
  files w filename <> Barred ->
  exists d,
    lines_to_file lines filename mode w = (Done tt, with_files d w)
    /\ d filename
       = Regular (text_at_open mode (files w filename) ++ joined lines)
    /\ forall p, p <> filename -> d p = files w p.
Proof.
  intros Hopen. unfold lines_to_file, io_bind, open_write, close_write.
  destruct (files w filename) as [text| |] eqn:E; [| |contradiction];
    destruct mode; cbn [text_at_open with_files files arrays stdout];
    eexists; (split; [reflexivity|]); rewrite write_loop;
    (split; [now rewrite put_same|]);
    intros p Hp; now rewrite ?put_other by assumption.
Qed.

Lemma lines_to_file_barred (lines : list string) (filename : string)
  (mode : wmode) (w : world) :
  files w filename = Barred ->
  lines_to_file lines filename mode w = (Failed OSError, w).
Proof.
  intros H. unfold lines_to_file, io_bind, open_write. rewrite H.
  now destruct mode.
Qed.

(** *** Reading the lines back *)

Lemma text_lines_line (line : string) :
  one_line line = true ->
  forall cur rest,
    text_lines_from cur (line ++ rest)
    = (cur ++ line)%string :: text_lines_from EmptyString rest.
Proof.
  induction line as [|c line IH]; intros H cur rest; [discriminate|].
  destruct line as [|c' line'].
  - cbn in H. apply Ascii.eqb_eq in H. subst c. reflexivity.
  - cbn [one_line] in H. apply andb_true_iff in H as [H Hline].
    apply andb_true_iff in H as [Hnl Hcr].
    apply negb_true_iff in Hnl, Hcr.
    change ((String c (String c' line') ++ rest)%string)
      with (String c (String c' line' ++ rest)%string).
    cbn [text_lines_from]. rewrite Hnl, Hcr.
    rewrite (IH Hline). f_equal.
    now rewrite string_append_assoc.
Qed.

Lemma text_lines_joined (lines : list string) :
  Forall (fun line => one_line line = true) lines ->
  text_lines (joined lines) = lines.
Proof.
  unfold text_lines. induction 1 as [|line lines Hline _ IH]; [reflexivity|].
  cbn [joined fold_right]. rewrite (text_lines_line line Hline).
  cbn [append]. f_equal. exact IH.
Qed.

End FileFacts.

(** X14: writing lines to a file that can be opened succeeds and leaves
    the file with the lines one after the other, after the text it held
    when opened in mode [a], alone when opened in mode [w+] or when there
    was no file; no other file, no array and nothing printed changes.
    When the file cannot be opened the call fails with [OSError] and
    changes nothing. *)
Theorem lines_to_file_contents (lines : list string) (filename : string)
  (mode : wmode) (w : world) :
  (files w filename = Barred ->
   lines_to_file lines filename mode w = (Failed OSError, w))
  /\ (files w filename <> Barred ->
      let w' := snd (lines_to_file lines filename mode w) in
      fst (lines_to_file lines filename mode w) = Done tt
      /\ files w' filename
         = Regular (text_at_open mode (files w filename) ++ joined lines)
      /\ (forall p, p <> filename -> files w' p = files w p)
      /\ arrays w' = arrays w
      /\ stdout w' = stdout w).
Proof.
  split; [apply lines_to_file_barred|].
  intros H. destruct (lines_to_file_run lines filename mode w H)
    as (d & -> & Hd & Hother).
  cbn. repeat split; assumption.
Qed.

(** X15: appending in two calls is appending once: after the lines [l1]
    and then the lines [l2] are appended to a file, every file holds
    what it holds after the lines [l1 ++ l2] are appended in one call. *)
Theorem lines_to_file_append_twice (l1 l2 : list string) (filename : string)
  (w : world) (p : string) :
  files w filename <> Barred ->
  files (snd (lines_to_file l2 filename A_mode
                (snd (lines_to_file l1 filename A_mode w)))) p
  = files (snd (lines_to_file (l1 ++ l2) filename A_mode w)) p.
Proof.
  intros H.
  destruct (lines_to_file_run l1 filename A_mode w H) as (d1 & -> & Hd1 & Ho1).
  cbn [snd].
  assert (H1 : files (with_files d1 w) filename <> Barred)
    by (cbn; rewrite Hd1; discriminate).
  destruct (lines_to_file_run l2 filename A_mode _ H1) as (d2 & -> & Hd2 & Ho2).
  destruct (lines_to_file_run (l1 ++ l2) filename A_mode w H)
    as (d & -> & Hd & Ho).
  cbn [snd files with_files] in *.
  destruct (String.eqb_spec p filename) as [->|Hp].
  - rewrite Hd2, Hd, Hd1. cbn [text_at_open].
    now rewrite joined_app, string_append_assoc.
  - now rewrite Ho2, Ho1, Ho by assumption.
Qed.

Lemma lines_to_file_append_twice_witness :
  files (snd (lines_to_file [("b" ++ LF)%string] "hyp.rttm" A_mode
                (snd (lines_to_file [("a" ++ LF)%string] "hyp.rttm" A_mode
                        {| files := fun _ => Free; arrays := []; stdout := [] |}))))
    "hyp.rttm"
  = files (snd (lines_to_file ([("a" ++ LF)%string] ++ [("b" ++ LF)%string]) "hyp.rttm" A_mode
                  {| files := fun _ => Free; arrays := []; stdout := [] |}))
      "hyp.rttm".
Proof.
  apply (lines_to_file_append_twice [("a" ++ LF)%string] [("b" ++ LF)%string]
           "hyp.rttm" {| files := fun _ => Free; arrays := []; stdout := [] |}
           "hyp.rttm").
  discriminate.
Defined.

(** X16: what is written is what is read: after lines that each end
    with a newline and hold no other newline and no carriage return are
    written in mode [w+], or appended to a file made of such lines, the
    file read line by line gives back the lines, after the ones it held
    when they are appended. *)
Theorem lines_to_file_read_back (old lines : list string) (filename : string)
  (mode : wmode) (w : world) :
  files w filename = Regular (joined old) \/ files w filename = Free ->
  Forall (fun line => one_line line = true) old ->
  Forall (fun line => one_line line = true) lines ->
  readable (files (snd (lines_to_file lines filename mode w))) filename
  = Some (match mode, files w filename with
          | A_mode, Regular _ => old ++ lines
          | _, _ => lines
          end).
Proof.
  intros Hfile Hold Hlines.
  assert (H : files w filename <> Barred)
    by (destruct Hfile as [-> | ->]; discriminate).
  destruct (lines_to_file_run lines filename mode w H) as (d & -> & Hd & _).
  cbn [snd files with_files]. unfold readable. rewrite Hd. f_equal.
  destruct Hfile as [-> | ->]; destruct mode; cbn [text_at_open append];
    try now apply text_lines_joined.
  rewrite <- joined_app. apply text_lines_joined.
  apply Forall_app. now split.
Qed.

Lemma lines_to_file_read_back_witness :
  readable
    (files (snd (lines_to_file [("b" ++ LF)%string] "hyp.rttm" A_mode
                   {| files := fun _ => Regular (joined [("a" ++ LF)%string]);
                      arrays := []; stdout := [] |})))
    "hyp.rttm"
  = Some ([("a" ++ LF)%string] ++ [("b" ++ LF)%string]).
Proof.
  apply (lines_to_file_read_back [("a" ++ LF)%string] [("b" ++ LF)%string]
           "hyp.rttm" A_mode
           {| files := fun _ => Regular (joined [("a" ++ LF)%string]);
              arrays := []; stdout := [] |}).
  - left. reflexivity.
  - repeat constructor.
  - repeat constructor.
Defined.

(** ** Orchestration *)

Section WorldFacts.

Lemma with_arrays_same (w : world) : with_arrays (arrays w) w = w.
Proof. now destruct w. Qed.


Lemma touches_only_refl (path : string) (w : world) : touches_only path w w.
Proof.
  repeat split; [exists []|exists []]; now rewrite app_nil_r.
Qed.

Lemma touches_only_trans (path : string) (w1 w2 w3 : world) :
  touches_only path w1 w2 -> touches_only path w2 w3 -> touches_only path w1 w3.
Proof.
  intros (Hf & (fresh & Ha) & (more & Hs)) (Hf' & (fresh' & Ha') & (more' & Hs')).
  repeat split.
  - intros p Hp. now rewrite Hf', Hf.
  - exists (fresh ++ fresh'). now rewrite Ha', Ha, app_assoc.
  - exists (more ++ more'). now rewrite Hs', Hs, app_assoc.
Qed.

Lemma confined_ret {A} (path : string) (a : A) : confined path (io_ret a).
Proof. intros w. apply touches_only_refl. Qed.

Lemma confined_fail {A} (path : string) (f : failure) :
  confined path (io_fail (A := A) f).
Proof. intros w. apply touches_only_refl. Qed.

Lemma confined_bind {A B} (path : string) (c : IO A) (k : A -> IO B) :
  confined path c -> (forall a, confined path (k a)) ->
  confined path (io_bind c k).
Proof.
  intros Hc Hk w. unfold io_bind. specialize (Hc w).
  destruct (c w) as [[a|f] w1]; cbn [snd] in *; [|exact Hc].
  eapply touches_only_trans; [exact Hc|apply Hk].
Qed.

Lemma confined_for_each {A St} (path : string) (body : St -> A -> IO St)
  (items : list A) :
  (forall st x, confined path (body st x)) ->
  forall st, confined path (for_each body items st).
Proof.
  intros Hbody. induction items as [|x items IH]; intros st; cbn [for_each].
  - apply confined_ret.
  - apply confined_bind; [apply Hbody|exact IH].
Qed.

Lemma confined_assert (path : string) (b : bool) : confined path (assert b).
Proof. destruct b; [apply confined_ret|apply confined_fail]. Qed.

Lemma confined_print (path : string) (a b : Z) : confined path (print a b).
Proof.
  intros w. unfold print. cbn [snd]. repeat split.
  - exists []. cbn. now rewrite app_nil_r.
  - eexists. reflexivity.
Qed.

Lemma confined_remove (path : string) : confined path (os_remove path).
Proof.
  intros w. unfold os_remove. destruct (files w path);
    try apply touches_only_refl.
  cbn [snd]. repeat split.
  - intros p Hp. cbn. now apply put_other.
  - exists []. cbn. now rewrite app_nil_r.
  - exists []. cbn. now rewrite app_nil_r.
Qed.

Lemma confined_lines_to_file (path : string) (lines : list string)
  (mode : wmode) : confined path (lines_to_file lines path mode).
Proof.
  intros w. destruct (files w path) eqn:E.
  1,2: destruct (lines_to_file_run lines path mode w) as (d & -> & _ & Hd);
    [rewrite E; discriminate|];
    cbn [snd]; repeat split; [exact Hd| |]; exists []; cbn;
    now rewrite app_nil_r.
  rewrite lines_to_file_barred by assumption. apply touches_only_refl.
Qed.

Lemma confined_on_arrays {A} (path : string) (c : M A) :
  (forall h, exists fresh, snd (c h) = h ++ fresh) ->
  confined path (on_arrays c).
Proof.
  intros Hc w. unfold on_arrays. destruct (Hc (arrays w)) as (fresh & Hh).
  destruct (c (arrays w)) as [[a|ex] h]; cbn [snd] in *; subst h;
    (repeat split; [now exists fresh|exists []; cbn; now rewrite app_nil_r]).
Qed.

End WorldFacts.

Section EstimatorsOnHeaps.

Context {libs : Libraries}.

(** The spectral estimator reads the heap only at its argument, and
    leaves it with new arrays after the old ones. *)
Lemma spectral_clustering_at (a : nat) (beta : float) (h : heap) :
  exists fresh,
    spectral_clustering a beta h
    = (fst (spectral_clustering 0 beta [nth a h []]), h ++ fresh).
Proof.
  rewrite (spectral_clustering_run a beta h),
    (spectral_clustering_run 0 beta [nth a h []]).
  cbn zeta. cbn [nth].
  destruct (sym (nth a h [])) as [y|ex]; [|exists []; now rewrite app_nil_r].
  destruct (row_max_norm (diffusion y)) as [r|ex]; [|eexists; reflexivity].
  destruct (eig (laplacian (with_diagonal 0 r))) as [dec|ex];
    eexists; reflexivity.
Qed.

Lemma agg_clustering_at (a : nat) (thresh : float) (h : heap) :
  agg_clustering a thresh h
  = (fst (agg_clustering 0 thresh [nth a h []]), h).
Proof. reflexivity. Qed.

Lemma load_at (a : nat) (h : heap) : load a h = (Ok (nth a h []), h).
Proof. reflexivity. Qed.

End EstimatorsOnHeaps.

Section OrchestrationFacts.

Context {libs : Libraries} {data_io : DataIO}.

Lemma confined_events_of (path : string) (segment_cols : list segment) :
  confined path (events_of segment_cols).
Proof.
  unfold events_of.
  destruct (astype_float _); [destruct (astype_float _)|];
    try apply confined_ret; apply confined_fail.
Qed.

Lemma confined_step (segment_cols : list segment) (events0 : list event)
  (rttm_file ctype : string) (cparam : float) (pred_labels : option (list Z))
  (item : string * nat) :
  confined rttm_file
    (make_rttm_step segment_cols events0 rttm_file ctype cparam pred_labels item).
Proof.
  destruct item as [rec_id smatrix]. unfold make_rttm_step.
  apply confined_bind.
  { apply confined_on_arrays. intros h. exists []. cbn. now rewrite app_nil_r. }
  intros m. apply confined_bind; [apply confined_assert|]. intros _.
  apply confined_bind.
  { destruct (String.eqb ctype "sc"); [|apply confined_ret].
    apply confined_bind; [|intros labels; apply confined_ret].
    apply confined_on_arrays. intros h.
    destruct (spectral_clustering_at smatrix cparam h) as (fresh & ->).
    now exists fresh. }
  intros pl. apply confined_bind.
  { destruct (String.eqb ctype "ahc"); [|apply confined_ret].
    apply confined_bind; [|intros labels; apply confined_ret].
    apply confined_on_arrays. intros h. exists [].
    rewrite agg_clustering_at. cbn. now rewrite app_nil_r. }
  intros [labels|]; [|apply confined_fail].
  destruct (rttm_lines_from_entries _ _); [|apply confined_fail].
  apply confined_bind; [apply confined_lines_to_file|].
  intros _. apply confined_ret.
Qed.

Lemma confined_make_rttm (segments : string) (cids : list string)
  (cm : list nat) (rttm_file ctype : string) (cparam : float) :
  confined rttm_file (make_rttm segments cids cm rttm_file ctype cparam).
Proof.
  unfold make_rttm.
  apply confined_bind; [intros w; apply touches_only_refl|]. intros isfile.
  apply confined_bind.
  { destruct isfile; [apply confined_remove|apply confined_ret]. }
  intros _. apply confined_bind; [intros w; apply touches_only_refl|].
  intros segment_cols. apply confined_bind; [apply confined_print|]. intros _.
  apply confined_bind; [apply confined_assert|]. intros _.
  apply confined_bind; [apply confined_events_of|]. intros events0.
  apply confined_bind; [|intros _; apply confined_ret].
  apply confined_for_each. intros st x. apply confined_step.
Qed.

End OrchestrationFacts.

(** X17: whatever its arguments and however it ends, the orchestration
    changes no file other than the output file, leaves every array that
    existed as it was (the estimators only add arrays) and only adds to
    what was printed. *)
Theorem make_rttm_touches_only_output {libs : Libraries} {data_io : DataIO}
  (segments : string) (cids : list string) (cm : list nat)
  (rttm_file ctype : string) (cparam : float) (w : world) :
  let w' := snd (make_rttm segments cids cm rttm_file ctype cparam w) in
  (forall p, p <> rttm_file -> files w' p = files w p)
  /\ (forall a, (a < length (arrays w))%nat ->
                nth_error (arrays w') a = nth_error (arrays w) a)
  /\ (exists more, stdout w' = stdout w ++ more).
Proof.
  destruct (confined_make_rttm segments cids cm rttm_file ctype cparam w)
    as (Hf & (fresh & Ha) & Hs).
  cbn zeta. repeat split; try assumption.
  intros a Hlt. rewrite Ha. now apply nth_error_app1.
Qed.

Section OrchestrationRuns.

Context {libs : Libraries} {data_io : DataIO}.

Lemma with_files_same (w : world) : with_files (files w) w = w.
Proof. now destruct w. Qed.

(** The orchestration up to its loop. *)
Lemma make_rttm_prelude (segments : string) (cids : list string)
  (cm : list nat) (rttm_file ctype : string) (cparam : float) (w : world) :
  let w0 := with_files (removed rttm_file (files w)) w in
  make_rttm segments cids cm rttm_file ctype cparam w
  = match load_n_col (files w0) segments with
    | Failed f => (Failed f, w0)
    | Done segment_cols =>
        let ids := sorted_set (map seg_rec segment_cols) in
        let w1 := with_stdout
                    (stdout w ++ [counts_line (length ids) (length cids)]) w0 in
        if (length ids =? length cids)%nat then
          (events0 <~ events_of segment_cols ;;
           for_each (make_rttm_step segment_cols events0 rttm_file ctype cparam)
             (combine cids cm) None ;;~
           io_ret tt) w1
        else (Failed AssertionError, w1)
    end.
Proof.
  cbn zeta. unfold make_rttm, removed.
  unfold io_bind at 1. unfold os_path_isfile.
  destruct (files w rttm_file) as [text| |] eqn:E.
  - unfold io_bind at 1. unfold os_remove. rewrite E.
    unfold io_bind at 1. cbn [files with_files].
    destruct (load_n_col _ segments) as [segment_cols|f]; [|reflexivity].
    unfold io_bind at 1. unfold print. unfold io_bind at 1.
    unfold counts_line. cbn [stdout with_files].
    destruct (_ =? _)%nat; reflexivity.
  - unfold io_bind at 1. unfold io_ret at 1.
    unfold io_bind at 1. rewrite with_files_same.
    destruct (load_n_col _ segments) as [segment_cols|f]; [|reflexivity].
    unfold io_bind at 1. unfold print. unfold io_bind at 1.
    unfold counts_line.
    destruct (_ =? _)%nat; reflexivity.
  - unfold io_bind at 1. unfold io_ret at 1.
    unfold io_bind at 1. rewrite with_files_same.
    destruct (load_n_col _ segments) as [segment_cols|f]; [|reflexivity].
    unfold io_bind at 1. unfold print. unfold io_bind at 1.
    unfold counts_line.
    destruct (_ =? _)%nat; reflexivity.
Qed.

End OrchestrationRuns.

Section OrchestrationLoop.

Context {libs : Libraries} {data_io : DataIO}.

Variable segment_cols : list segment.
Variable events0 : list event.
Variable rttm_file ctype : string.
Variable cparam : float.

Lemma on_arrays_load (a : nat) (w : world) :
  on_arrays (load a) w = (Done (nth a (arrays w) []), w).
Proof. unfold on_arrays. rewrite load_at. now rewrite with_arrays_same. Qed.

(** The estimator the orchestration runs for [ctype], and what follows
    it. *)
Lemma estimator_run {B} (k : option (list Z) -> IO B)
  (pred_labels : option (list Z)) (a : nat) (w : world) :
  ctype = "sc" \/ ctype = "ahc" ->
  exists fresh,
    (pl <~ (if String.eqb ctype "sc" then
              labels <~ on_arrays (spectral_clustering a cparam) ;;
              io_ret (Some labels)
            else io_ret pred_labels) ;;
     pl <~ (if String.eqb ctype "ahc" then
              labels <~ on_arrays (agg_clustering a cparam) ;;
              io_ret (Some labels)
            else io_ret pl) ;;
     k pl) w
    = match labels_of ctype cparam (nth a (arrays w) []) with
      | Ok labels => k (Some labels) (with_arrays (arrays w ++ fresh) w)
      | Raise ex => (Failed (Raised ex), with_arrays (arrays w ++ fresh) w)
      end.
Proof.
  intros [-> | ->]; unfold labels_of; cbn [String.eqb Ascii.eqb Bool.eqb];
    unfold io_bind, on_arrays, io_ret.
  - destruct (spectral_clustering_at a cparam (arrays w)) as (fresh & ->).
    exists fresh. now destruct (fst (spectral_clustering 0 cparam _)).
  - rewrite agg_clustering_at. exists []. rewrite app_nil_r.
    now destruct (fst (agg_clustering 0 cparam _)).
Qed.

Lemma make_rttm_step_ok (pred_labels : option (list Z)) (rec_id : string)
  (a : nat) (labels : list Z) (w : world) :
  ctype = "sc" \/ ctype = "ahc" ->
  files w rttm_file <> Barred ->
  length (nth a (arrays w) [])
  = length (recording_events segment_cols events0 rec_id) ->
  labels_of ctype cparam (nth a (arrays w) []) = Ok labels ->
  exists w',
    make_rttm_step segment_cols events0 rttm_file ctype cparam pred_labels
      (rec_id, a) w
    = (Done (Some labels), w')
    /\ files w' rttm_file
       = appended (recording_lines segment_cols events0 rec_id labels)
           (files w rttm_file)
    /\ (forall p, p <> rttm_file -> files w' p = files w p)
    /\ (exists fresh, arrays w' = arrays w ++ fresh)
    /\ stdout w' = stdout w.
Proof.
  intros Hctype Hopen Hsize Hlabels.
  unfold make_rttm_step. unfold io_bind at 1. rewrite on_arrays_load.
  unfold io_bind at 1. fold (recording_events segment_cols events0 rec_id).
  rewrite Hsize, Nat.eqb_refl. unfold assert, io_ret at 1.
  match goal with
  | |- context [io_bind _ (fun pl => io_bind _ (fun pl' => @?k pl'))] =>
      destruct (estimator_run k pred_labels a w Hctype) as (fresh & Hrun)
  end.
  cbn beta in Hrun. rewrite Hrun, Hlabels. clear Hrun.
  unfold rttm_lines_from_entries. rewrite rttm_loop. cbn [app].
  fold (recording_lines segment_cols events0 rec_id labels).
  set (w1 := with_arrays (arrays w ++ fresh) w).
  assert (Hopen1 : files w1 rttm_file <> Barred) by exact Hopen.
  destruct (lines_to_file_run (recording_lines segment_cols events0 rec_id labels)
              rttm_file A_mode w1 Hopen1) as (d & Hd & Hfile & Hother).
  exists (with_files d w1). unfold io_bind. rewrite Hd. unfold io_ret.
  split; [reflexivity|]. split; [exact Hfile|]. split; [exact Hother|].
  split; [now exists fresh|reflexivity].
Qed.




Lemma appended_appended (l1 l2 : list string) (n : node) :
  appended l2 (appended l1 n) = appended (l1 ++ l2) n.
Proof.
  unfold appended. cbn [text_at_open].
  now rewrite joined_app, string_append_assoc.
Qed.

Lemma output_file_cons (item : string * nat) (labels : list Z)
  (items : list (string * nat)) (labelss : list (list Z)) (n : node) :
  output_file segment_cols events0 items labelss
    (appended (recording_lines segment_cols events0 (fst item) labels) n)
  = output_file segment_cols events0 (item :: items) (labels :: labelss) n.
Proof.
  unfold output_file at 2. unfold output_lines. cbn [combine flat_map fst snd].
  unfold output_file. destruct items as [|item' items].
  - cbn [combine flat_map]. now rewrite app_nil_r.
  - apply appended_appended.
Qed.

Lemma output_file_open (items : list (string * nat)) (labelss : list (list Z))
  (n : node) :
  n <> Barred -> output_file segment_cols events0 items labelss n <> Barred.
Proof. unfold output_file. destruct items; [auto|discriminate]. Qed.

(** The loop over recordings that can all be processed. *)
Lemma make_rttm_loop (h0 : heap) (items : list (string * nat))
  (labelss : list (list Z)) :
  ctype = "sc" \/ ctype = "ahc" ->
  Forall2 (processed segment_cols events0 ctype cparam h0) items labelss ->
  forall rest pred_labels w,
    files w rttm_file <> Barred ->
    (exists fresh, arrays w = h0 ++ fresh) ->
    exists w' pred_labels',
      for_each (make_rttm_step segment_cols events0 rttm_file ctype cparam)
        (items ++ rest) pred_labels w
      = for_each (make_rttm_step segment_cols events0 rttm_file ctype cparam)
          rest pred_labels' w'
      /\ files w' rttm_file
         = output_file segment_cols events0 items labelss (files w rttm_file)
      /\ (forall p, p <> rttm_file -> files w' p = files w p)
      /\ (exists fresh, arrays w' = h0 ++ fresh)
      /\ stdout w' = stdout w.
Proof.
  intros Hctype. induction 1 as [|[rec_id a] labels items labelss Hitem _ IH];
    intros rest pred_labels w Hopen (fresh & Hh).
  - exists w, pred_labels. repeat split. now exists fresh.
  - destruct Hitem as (Ha & Hsize & Hlabels). cbn [fst snd] in *.
    assert (Hnth : nth a (arrays w) [] = nth a h0 [])
      by (rewrite Hh; now apply app_nth1).
    destruct (make_rttm_step_ok pred_labels rec_id a labels w Hctype Hopen)
      as (w1 & Hstep & Hfile & Hother & (fresh1 & Hh1) & Hout);
      [now rewrite Hnth..|].
    destruct (IH rest (Some labels) w1) as (w' & pl' & Hloop & Hfile' & Hother' & Hh' & Hout').
    { rewrite Hfile. discriminate. }
    { exists (fresh ++ fresh1). now rewrite Hh1, Hh, app_assoc. }
    exists w', pl'. split.
    { cbn [app for_each]. unfold io_bind at 1. now rewrite Hstep. }
    split.
    { rewrite Hfile', Hfile.
      apply (output_file_cons (rec_id, a) labels). }
    split; [intros p Hp; now rewrite Hother', Hother|].
    split; [exact Hh'|congruence].
Qed.

End OrchestrationLoop.

Section OrchestrationOutcomes.

Context {libs : Libraries} {data_io : DataIO}.

Lemma removed_open (path : string) (d : disk) :
  d path <> Barred -> removed path d path = Free.
Proof.
  intros H. unfold removed. destruct (d path) eqn:E; try assumption.
  - apply put_same.
  - contradiction.
Qed.

Lemma events_of_run (segment_cols : list segment) (starts ends : list float) :
  astype_float (map seg_start segment_cols) = Some starts ->
  astype_float (map seg_end segment_cols) = Some ends ->
  events_of segment_cols = io_ret (combine starts ends).
Proof. intros Hs He. unfold events_of. now rewrite Hs, He. Qed.

Lemma output_file_free (segment_cols : list segment) (events0 : list event)
  (items : list (string * nat)) (labelss : list (list Z)) :
  output_file segment_cols events0 items labelss Free
  = match items with
    | [] => Free
    | _ => Regular (joined (output_lines segment_cols events0 items labelss))
    end.
Proof. now destruct items. Qed.

(** The orchestration once the table is loaded, the counts agree and
    the times are numbers. *)
Lemma make_rttm_to_loop (segments : string) (cids : list string)
  (cm : list nat) (rttm_file ctype : string) (cparam : float) (w : world)
  (segment_cols : list segment) (starts ends : list float) :
  load_n_col (removed rttm_file (files w)) segments = Done segment_cols ->
  length (sorted_set (map seg_rec segment_cols)) = length cids ->
  astype_float (map seg_start segment_cols) = Some starts ->
  astype_float (map seg_end segment_cols) = Some ends ->
  make_rttm segments cids cm rttm_file ctype cparam w
  = (for_each
       (make_rttm_step segment_cols (combine starts ends) rttm_file ctype cparam)
       (combine cids cm) None ;;~
     io_ret tt)
      (with_stdout (stdout w ++ [counts_line (length cids) (length cids)])
         (with_files (removed rttm_file (files w)) w)).
Proof.
  intros Hload Hcount Hs He. rewrite make_rttm_prelude. cbn zeta.
  cbn [files with_files]. rewrite Hload, Hcount, Nat.eqb_refl.
  rewrite (events_of_run segment_cols starts ends Hs He).
  reflexivity.
Qed.

End OrchestrationOutcomes.

(** The orchestration when every recording can be processed. *)
Lemma make_rttm_returns {libs : Libraries} {data_io : DataIO}
  (segments : string) (cids : list string) (cm : list nat)
  (rttm_file ctype : string) (cparam : float) (w : world)
  (segment_cols : list segment) (starts ends : list float)
  (labelss : list (list Z)) :
  ctype = "sc" \/ ctype = "ahc" ->
  files w rttm_file <> Barred ->
  load_n_col (removed rttm_file (files w)) segments = Done segment_cols ->
  length (sorted_set (map seg_rec segment_cols)) = length cids ->
  astype_float (map seg_start segment_cols) = Some starts ->
  astype_float (map seg_end segment_cols) = Some ends ->
  Forall2 (processed segment_cols (combine starts ends) ctype cparam (arrays w))
    (combine cids cm) labelss ->
  exists w',
    make_rttm segments cids cm rttm_file ctype cparam w = (Done tt, w')
    /\ files w' rttm_file
       = output_file segment_cols (combine starts ends) (combine cids cm)
           labelss Free
    /\ stdout w' = stdout w ++ [counts_line (length cids) (length cids)].
Proof.
  intros Hctype Hopen Hload Hcount Hs He Hall.
  rewrite (make_rttm_to_loop segments cids cm rttm_file ctype cparam w
             segment_cols starts ends) by assumption.
  set (w1 := with_stdout _ _).
  destruct (make_rttm_loop segment_cols (combine starts ends) rttm_file ctype
              cparam (arrays w) (combine cids cm) labelss Hctype Hall
              [] None w1)
    as (w2 & pl & Hloop & Hfile & _ & _ & Hout).
  { unfold w1. cbn [files with_stdout with_files].
    rewrite removed_open by assumption. discriminate. }
  { exists []. unfold w1. cbn. now rewrite app_nil_r. }
  rewrite app_nil_r in Hloop. exists w2. unfold io_bind. rewrite Hloop.
  cbn [for_each]. unfold io_ret.
  split; [reflexivity|]. split; [|exact Hout].
  rewrite Hfile. unfold w1. cbn [files with_stdout with_files].
  now rewrite removed_open by assumption.
Qed.

(** X18: when the table loads, has as many distinct recordings as there
    are identifiers, spells numbers, and every recording paired with a
    matrix can be processed (its matrix has one row per segment and the
    estimator returns labels), the orchestration succeeds and the output
    file holds exactly the serialized turns of the recordings, one
    recording after the other in the order of the identifiers; whatever
    the file held before is gone, and no file is created when no
    recording is paired with a matrix. *)
Theorem make_rttm_output {libs : Libraries} {data_io : DataIO}
  (segments : string) (cids : list string) (cm : list nat)
  (rttm_file ctype : string) (cparam : float) (w : world)
  (segment_cols : list segment) (starts ends : list float)
  (labelss : list (list Z)) :
  ctype = "sc" \/ ctype = "ahc" ->
  files w rttm_file <> Barred ->
  load_n_col (removed rttm_file (files w)) segments = Done segment_cols ->
  length (sorted_set (map seg_rec segment_cols)) = length cids ->
  astype_float (map seg_start segment_cols) = Some starts ->
  astype_float (map seg_end segment_cols) = Some ends ->
  Forall2 (processed segment_cols (combine starts ends) ctype cparam (arrays w))
    (combine cids cm) labelss ->
  let w' := snd (make_rttm segments cids cm rttm_file ctype cparam w) in
  fst (make_rttm segments cids cm rttm_file ctype cparam w) = Done tt
  /\ files w' rttm_file
     = match combine cids cm with
       | [] => Free
       | _ => Regular (joined (output_lines segment_cols (combine starts ends)
                                 (combine cids cm) labelss))
       end
  /\ stdout w' = stdout w ++ [counts_line (length cids) (length cids)].
Proof.
  intros Hctype Hopen Hload Hcount Hs He Hall.
  destruct (make_rttm_returns segments cids cm rttm_file ctype cparam w
              segment_cols starts ends labelss)
    as (w' & -> & Hfile & Hout); try assumption.
  cbn zeta. cbn [fst snd]. split; [reflexivity|]. split; [|exact Hout].
  rewrite Hfile. apply output_file_free.
Qed.

Lemma make_rttm_output_witness :
  let w := example_world [[[1; 1]; [1; 1]]; [[1]]]%float in
  let w' := snd (make_rttm (libs := example_libraries)
                   (data_io := example_data_io)
                   "segments" ["rec1"; "rec2"] [0; 1]%nat "hyp.rttm" "ahc" 0 w) in
  fst (make_rttm (libs := example_libraries) (data_io := example_data_io)
         "segments" ["rec1"; "rec2"] [0; 1]%nat "hyp.rttm" "ahc" 0 w)
  = Done tt
  /\ files w' "hyp.rttm"
     = match combine ["rec1"; "rec2"] [0; 1]%nat with
       | [] => Free
       | _ => Regular
                (joined
                   (output_lines example_table
                      (combine [0; 1; 0]%float [1; 2; 1]%float)
                      (combine ["rec1"; "rec2"] [0; 1]%nat)
                      [[0; 0]; [0]]%Z))
       end
  /\ stdout w' = stdout w ++ [counts_line 2 2].
Proof.
  apply (make_rttm_output (libs := example_libraries)
           (data_io := example_data_io)
           "segments" ["rec1"; "rec2"] [0; 1]%nat "hyp.rttm" "ahc" 0%float
           (example_world [[[1; 1]; [1; 1]]; [[1]]]%float)
           example_table [0; 1; 0]%float [1; 2; 1]%float [[0; 0]; [0]]%Z).
  - right. reflexivity.
  - discriminate.
  - reflexivity.
  - reflexivity.
  - reflexivity.
  - reflexivity.
  - repeat constructor.
Defined.

(** The lines of that run. *)
Example make_rttm_output_example :
  files (snd (make_rttm (libs := example_libraries) (data_io := example_data_io)
                "segments" ["rec1"; "rec2"] [0; 1]%nat "hyp.rttm" "ahc" 0
                (example_world [[[1; 1]; [1; 1]]; [[1]]]%float)))
    "hyp.rttm"
  = Regular ("SPEAKER rec1 0 0.000 2.000 <NA> <NA> 0 <NA> <NA>" ++ LF
             ++ "SPEAKER rec2 0 0.000 1.000 <NA> <NA> 0 <NA> <NA>" ++ LF).
Proof. vm_compute. reflexivity. Qed.



(** X20: the consistency check comes after the removal: when the table
    loads but its number of distinct recordings is not the number of
    identifiers, the orchestration prints the two counts and fails with
    [AssertionError]; by then a regular file at the output path has been
    removed, and nothing else has changed. *)
Theorem make_rttm_count_mismatch {libs : Libraries} {data_io : DataIO}
  (segments : string) (cids : list string) (cm : list nat)
  (rttm_file ctype : string) (cparam : float) (w : world)
  (segment_cols : list segment) :
  load_n_col (removed rttm_file (files w)) segments = Done segment_cols ->
  length (sorted_set (map seg_rec segment_cols)) <> length cids ->
  let w' := snd (make_rttm segments cids cm rttm_file ctype cparam w) in
  fst (make_rttm segments cids cm rttm_file ctype cparam w)
  = Failed AssertionError
  /\ files w' rttm_file
     = match files w rttm_file with
       | Regular _ => Free
       | n => n
       end
  /\ (forall p, p <> rttm_file -> files w' p = files w p)
  /\ arrays w' = arrays w
  /\ stdout w'
     = stdout w ++ [counts_line (length (sorted_set (map seg_rec segment_cols)))
                      (length cids)].
Proof.
  intros Hload Hcount. apply Nat.eqb_neq in Hcount.
  rewrite make_rttm_prelude. cbn zeta. cbn [files with_files].
  rewrite Hload, Hcount. cbn [fst snd files arrays stdout with_stdout with_files].
  repeat split.
  - unfold removed. destruct (files w rttm_file) eqn:E; try assumption.
    apply put_same.
  - intros p Hp. unfold removed. destruct (files w rttm_file); try reflexivity.
    now apply put_other.
Qed.

Lemma make_rttm_count_mismatch_witness :
  let w := example_world [[[1; 1]; [1; 1]]]%float in
  let w' := snd (make_rttm (libs := example_libraries)
                   (data_io := example_data_io)
                   "segments" ["rec1"] [0%nat] "hyp.rttm" "ahc" 0 w) in
  fst (make_rttm (libs := example_libraries) (data_io := example_data_io)
         "segments" ["rec1"] [0%nat] "hyp.rttm" "ahc" 0 w)
  = Failed AssertionError
  /\ files w' "hyp.rttm"
     = match files w "hyp.rttm" with
       | Regular _ => Free
       | n => n
       end
  /\ (forall p, p <> "hyp.rttm" -> files w' p = files w p)
  /\ arrays w' = arrays w
  /\ stdout w'
     = stdout w ++ [counts_line (length (sorted_set (map seg_rec example_table)))
                      (length ["rec1"])].
Proof.
  apply (make_rttm_count_mismatch (libs := example_libraries)
           (data_io := example_data_io)
           "segments" ["rec1"] [0%nat] "hyp.rttm" "ahc" 0%float
           (example_world [[[1; 1]; [1; 1]]]%float) example_table).
  - reflexivity.
  - vm_compute. discriminate.
Defined.

Section UnknownEstimator.

Context {libs : Libraries} {data_io : DataIO}.


End UnknownEstimator.



Section ReadByTheAggregator.

Variable segment_cols : list segment.
Variable events0 : list event.

Lemma filter_flat_map {A B} (p : B -> bool) (f : A -> list B) (l : list A) :
  filter p (flat_map f l) = flat_map (fun x => filter p (f x)) l.
Proof.
  induction l as [|x l IH]; [reflexivity|].
  cbn [flat_map]. now rewrite filter_app, IH.
Qed.

Lemma flat_map_ext_in {A B} (f g : A -> list B) (l : list A) :
  (forall x, In x l -> f x = g x) -> flat_map f l = flat_map g l.
Proof.
  induction l as [|x l IH]; intros H; [reflexivity|].
  cbn [flat_map]. rewrite (H x) by now left.
  f_equal. apply IH. intros y Hy. apply H. now right.
Qed.

Lemma output_lines_in (items : list (string * nat)) (labelss : list (list Z))
  (line : string) :
  In line (output_lines segment_cols events0 items labelss) ->
  exists item en, In item items /\ line = rttm_line (fst item) en.
Proof.
  unfold output_lines, recording_lines. intros H.
  apply in_flat_map in H as ([item labels] & Hin & H).
  apply in_map_iff in H as (en & <- & _).
  exists item, en. split; [|reflexivity]. now apply in_combine_l in Hin.
Qed.

Lemma recording_lines_group (rec_id rid : string) (labels : list Z) :
  has_char " " rec_id = false ->
  group 1 (recording_lines segment_cols events0 rec_id labels) rid
  = if String.eqb rec_id rid
    then recording_lines segment_cols events0 rec_id labels
    else [].
Proof.
  intros Hid. unfold group.
  destruct (String.eqb_spec rec_id rid) as [<-|Hne].
  - apply filter_all. intros line Hin.
    apply in_map_iff in Hin as (en & <- & _).
    rewrite rttm_line_key by assumption. apply String.eqb_refl.
  - apply filter_none. intros line Hin.
    apply in_map_iff in Hin as (en & <- & _).
    rewrite rttm_line_key by assumption. now apply String.eqb_neq.
Qed.

Lemma output_lines_group (items : list (string * nat))
  (labelss : list (list Z)) (rid : string) :
  Forall (fun item => has_char " " (fst item) = false) items ->
  group 1 (output_lines segment_cols events0 items labelss) rid
  = flat_map
      (fun il =>
         if String.eqb (fst (fst il)) rid
         then recording_lines segment_cols events0 (fst (fst il)) (snd il)
         else [])
      (combine items labelss).
Proof.
  intros Hids. unfold group at 1, output_lines. rewrite filter_flat_map.
  apply flat_map_ext_in. intros [item labels] Hin. cbn [fst snd].
  apply recording_lines_group. apply in_combine_l in Hin.
  rewrite Forall_forall in Hids. now apply Hids.
Qed.

End ReadByTheAggregator.

(** X22: the aggregator reads back what the orchestration wrote: when
    the orchestration succeeds as above, the recording identifiers hold
    no space, newline, carriage return or NUL, and at least one turn was
    written, the aggregator run with key index 1 on the output file, in
    any file system in which the regular files of the disk read as
    their lines, returns the written lines, each once, ordered by
    recording identifier, and the lines it returns for an identifier
    are the turns written for the recordings of that name, in the order
    they were written. *)
Theorem make_rttm_then_sort_and_cat {libs : Libraries} {data_io : DataIO}
  (segments : string) (cids : list string) (cm : list nat)
  (rttm_file ctype : string) (cparam : float) (w : world)
  (segment_cols : list segment) (starts ends : list float)
  (labelss : list (list Z)) :
  ctype = "sc" \/ ctype = "ahc" ->
  files w rttm_file <> Barred ->
  load_n_col (removed rttm_file (files w)) segments = Done segment_cols ->
  length (sorted_set (map seg_rec segment_cols)) = length cids ->
  astype_float (map seg_start segment_cols) = Some starts ->
  astype_float (map seg_end segment_cols) = Some ends ->
  Forall2 (processed segment_cols (combine starts ends) ctype cparam (arrays w))
    (combine cids cm) labelss ->
  Forall (fun rec_id => plain_id rec_id = true) cids ->
  output_lines segment_cols (combine starts ends) (combine cids cm) labelss
  <> [] ->
  let w' := snd (make_rttm segments cids cm rttm_file ctype cparam w) in
  forall fs, opens (files w') fs ->
  exists out,
    sort_and_cat fs [rttm_file] 1 = Ok out
    /\ Permutation out
         (output_lines segment_cols (combine starts ends) (combine cids cm)
            labelss)
    /\ StronglySorted
         (fun a b => String.leb (field_key 1 a) (field_key 1 b) = true) out
    /\ forall rec_id,
         group 1 out rec_id
         = flat_map
             (fun il =>
                if String.eqb (fst (fst il)) rec_id
                then recording_lines segment_cols (combine starts ends)
                       (fst (fst il)) (snd il)
                else [])
             (combine (combine cids cm) labelss).
Proof.
  intros Hctype Hopen Hload Hcount Hs He Hall Hplain Hlines.
  destruct (make_rttm_returns segments cids cm rttm_file ctype cparam w
              segment_cols starts ends labelss)
    as (w' & -> & Hfile & _); try assumption.
  cbn zeta. cbn [snd]. intros fs Hfs.
  set (events0 := combine starts ends) in *.
  set (items := combine cids cm) in *.
  set (L := output_lines segment_cols events0 items labelss) in *.
  assert (Hitems : forall item, In item items -> plain_id (fst item) = true).
  { intros [rec_id a] Hin. apply in_combine_l in Hin.
    rewrite Forall_forall in Hplain. now apply Hplain. }
  assert (Hline : forall line, In line L ->
                    exists rec_id en,
                      plain_id rec_id = true /\ line = rttm_line rec_id en).
  { intros line Hin. apply output_lines_in in Hin as (item & en & Hin & ->).
    exists (fst item), en. split; [now apply Hitems|reflexivity]. }
  assert (Hnode : files w' rttm_file = Regular (joined L)).
  { rewrite Hfile, output_file_free. destruct items; [|reflexivity].
    now contradiction Hlines. }
  assert (Hread : all_lines fs [rttm_file] = Some L).
  { apply all_lines_single, Hfs. unfold readable. rewrite Hnode. f_equal.
    apply text_lines_joined, Forall_forall. intros line Hin.
    destruct (Hline line Hin) as (rec_id & en & Hid & ->).
    apply plain_id_spec in Hid as (_ & Hn & Hc & _).
    now apply rttm_line_one_line. }
  assert (Hnul : forall line, In line L -> no_nul line = true).
  { intros line Hin. destruct (Hline line Hin) as (rec_id & en & Hid & ->).
    apply plain_id_spec in Hid as (_ & _ & _ & Hid).
    now apply rttm_line_no_nul. }
  assert (Hfields : forall line, In line L ->
                      (1 < length (split_on " " (strip line)))%nat).
  { intros line Hin. destruct (Hline line Hin) as (rec_id & en & Hid & ->).
    apply plain_id_spec in Hid as (Hsp & _).
    rewrite rttm_line_fields by assumption. cbn. lia. }
  set (ids := sorted_set (map (field_key 1) L)).
  exists (flat_map (group 1 L) ids).
  split; [now apply sort_and_cat_run|].
  assert (Hids : forall line, In line L -> In (field_key 1 line) ids).
  { intros line Hin. apply sorted_set_In, in_map. assumption. }
  split.
  { etransitivity; [apply groups_perm, sorted_set_NoDup|].
    rewrite filter_all; [reflexivity|].
    intros line Hin. apply existsb_exists.
    exists (field_key 1 line). split; [now apply Hids|apply String.eqb_refl]. }
  split; [apply groups_key_sorted, sorted_set_strongly|].
  intros rec_id.
  change (group 1 (flat_map (group 1 L) ids) rec_id)
    with (filter (fun line => String.eqb (field_key 1 line) rec_id)
            (flat_map (group 1 L) ids)).
  rewrite (groups_stable 1 L rec_id ids (sorted_set_NoDup _) Hids).
  apply output_lines_group. apply Forall_forall. intros item Hin.
  now apply plain_id_spec, Hitems.
Qed.

Lemma make_rttm_then_sort_and_cat_witness :
  let w := example_world [[[1; 1]; [1; 1]]; [[1]]]%float in
  let w' := snd (make_rttm (libs := example_libraries)
                   (data_io := example_data_io)
                   "segments" ["rec2"; "rec1"] [1; 0]%nat "hyp.rttm" "ahc" 0 w) in
  exists out,
    sort_and_cat (example_reader (files w')) ["hyp.rttm"] 1 = Ok out
    /\ Permutation out
         (output_lines example_table (combine [0; 1; 0]%float [1; 2; 1]%float)
            (combine ["rec2"; "rec1"] [1; 0]%nat) [[0]; [0; 0]]%Z)
    /\ StronglySorted
         (fun a b => String.leb (field_key 1 a) (field_key 1 b) = true) out
    /\ forall rec_id,
         group 1 out rec_id
         = flat_map
             (fun il =>
                if String.eqb (fst (fst il)) rec_id
                then recording_lines example_table
                       (combine [0; 1; 0]%float [1; 2; 1]%float)
                       (fst (fst il)) (snd il)
                else [])
             (combine (combine ["rec2"; "rec1"] [1; 0]%nat) [[0]; [0; 0]]%Z).
Proof.
  intros w w'.
  apply (make_rttm_then_sort_and_cat (libs := example_libraries)
           (data_io := example_data_io)
           "segments" ["rec2"; "rec1"] [1; 0]%nat "hyp.rttm" "ahc" 0%float
           (example_world [[[1; 1]; [1; 1]]; [[1]]]%float)
           example_table [0; 1; 0]%float [1; 2; 1]%float [[0]; [0; 0]]%Z).
  - right. reflexivity.
  - discriminate.
  - reflexivity.
  - reflexivity.
  - reflexivity.
  - reflexivity.
  - repeat constructor.
  - repeat constructor.
  - vm_compute. discriminate.
  - apply example_reader_opens.
Defined.

(** In that run the recordings are written in the order given and read
    back in the order of their names. *)
Example make_rttm_then_sort_and_cat_example :
  sort_and_cat
    (example_reader
       (files (snd (make_rttm (libs := example_libraries)
                      (data_io := example_data_io)
                      "segments" ["rec2"; "rec1"] [1; 0]%nat "hyp.rttm" "ahc" 0
                      (example_world [[[1; 1]; [1; 1]]; [[1]]]%float)))))
    ["hyp.rttm"] 1
  = Ok [("SPEAKER rec1 0 0.000 2.000 <NA> <NA> 0 <NA> <NA>" ++ LF)%string;
        ("SPEAKER rec2 0 0.000 1.000 <NA> <NA> 0 <NA> <NA>" ++ LF)%string].
Proof. vm_compute. reflexivity. Qed.
